(** * Inspect dispatch core: scheduler, bot dispatcher, result cache, HTTP glue

    A shallow embedding of the JavaScript sources

      - [src/lib/queue.js]         (priority scheduler, module [Queue])
      - [src/lib/bot.js]           (bot dispatcher, module [Bot]; the file also
                                    carries an earlier scheduler, module
                                    [QueueLegacy])
      - [src/lib/memory_cache.js]  (result cache, module [MemoryCache])
      - [src/unnamed/part_000]     (process entry and HTTP handlers, module
                                    [App]; the bounded result cache at its
                                    end, module [BoundedCache])

    Node runs every callback to completion on one thread, so each callback is
    one transition of a state machine; promises and timers that are pending
    between callbacks are part of the state. *)

From stdpp Require Import gmap strings list sorting.
From Stdlib Require Import ZArith QArith Qpower Lia.

(** ** JavaScript objects used as counters *)

Module JS.

(** A number a counter holds: an integer, or NaN once arithmetic was applied
    to something that is no number. *)
Inductive num := Num (z : Z) | NaN.

(** The property names every object literal inherits from
    [Object.prototype] in Node: eleven methods and the accessor
    [__proto__]. *)
Definition prototype_members : list string :=
  ["constructor"; "__defineGetter__"; "__defineSetter__"; "hasOwnProperty";
   "__lookupGetter__"; "__lookupSetter__"; "isPrototypeOf";
   "propertyIsEnumerable"; "toString"; "valueOf"; "__proto__";
   "toLocaleString"]%string.

Definition inherited (k : string) : bool := bool_decide (k ∈ prototype_members).

(** The own properties of an object created as [{}] whose properties are
    only ever assigned numbers. *)
Abbreviation counters := (gmap string num).

(** What [o[k]] reads: an own number, else the member of
    [Object.prototype] of that name (a function; the prototype object itself
    for [__proto__]), else [undefined]. *)
Inductive value := Own (n : num) | Member | Undefined.

Definition get (o : counters) (k : string) : value :=
  match o !! k with
  | Some n => Own n
  | None => if inherited k then Member else Undefined
  end.

(** [k in o]: own or inherited. *)
Definition has (k : string) (o : counters) : bool :=
  match o !! k with
  | Some _ => true
  | None => inherited k
  end.

(** [o[k] = n] for a number [n]: an own data property is created or
    overwritten, also over an inherited method; [__proto__] is an accessor
    whose setter ignores a number. *)
Definition set (k : string) (n : num) (o : counters) : counters :=
  if decide (k = "__proto__"%string) then o else <[k := n]> o.

(** The number [o[k]++] stores: the old value is converted to a number
    first, which gives NaN for [undefined], a function or an object. *)
Definition incr (v : value) : num :=
  match v with Own (Num z) => Num (z + 1) | _ => NaN end.

(** The number [o[k]--] stores. *)
Definition decr (v : value) : num :=
  match v with Own (Num z) => Num (z - 1) | _ => NaN end.

(** [o[k] === 0]. *)
Definition is_zero (v : value) : bool :=
  match v with Own (Num 0) => true | _ => false end.

(** What [o[k] || 0] evaluates to: a number, or the inherited member
    itself, which is truthy. *)
Inductive amount := Amount (z : Z) | PrototypeMember.

(** [o[k] || 0]: [undefined], [NaN] and [0] are falsy. *)
Definition or_zero (v : value) : amount :=
  match v with
  | Own (Num z) => Amount z
  | Own NaN | Undefined => Amount 0
  | Member => PrototypeMember
  end.

(** [(x + n) > max] for numbers [n] and [max]: with a function or an object
    as [x] the sum is a string that is no numeral, and its comparison with a
    number is false. *)
Definition plus_gt (x : amount) (n max : Z) : bool :=
  match x with
  | Amount z => (max <? z + n)%Z
  | PrototypeMember => false
  end.

End JS.

(** ** Inspect links and jobs (collaborators of the scheduler) *)

Module InspectURL.

(** The canonical parameters [{s, a, d, m}] of an inspect link, all decimal
    strings. *)
Record params := mkParams { s : string; a : string; d : string; m : string }.

End InspectURL.

Module Errors.

(** Modelled from the spec: [errors.js] is not part of the sources; §6.2
    lists the error envelopes by name. *)
Inductive t :=
  | InvalidInspect | BadBody | BadSecret | MaxRequests | MaxQueueSize
  | SteamOffline | RateLimit | GenericBad | TTLExceeded | NoBotsAvailable.

End Errors.

Module Job.

(** Modelled from the spec: [lib/job.js] is not part of the sources. §3 and
    §4.7 describe a job as the caller's IP, a bulk flag and an ordered list of
    links, each with an optional price, that are pending until
    [setResponse] answers them with an item or an error. *)
Record link_entry := mkLink { link : InspectURL.params; price : option Z }.

Inductive answer := Item | Failed (e : Errors.t).

Record t := mk {
  ip : string;
  bulk : bool;
  remainingLinks : list link_entry;
  responses : list (string * answer)
}.

Definition create (ip : string) (bulk : bool) : t := mk ip bulk [] [].

Definition getRemainingLinks (j : t) : list link_entry := remainingLinks j.

Definition remainingSize (j : t) : Z := Z.of_nat (length (remainingLinks j)).

Definition add (l : InspectURL.params) (p : option Z) (j : t) : t :=
  mk (ip j) (bulk j) (remainingLinks j ++ [mkLink l p]) (responses j).

(** [setResponseRemaining(err)]: every pending link is answered with
    [err]. *)
Definition setResponseRemaining (e : Errors.t) (j : t) : t :=
  mk (ip j) (bulk j) []
     (responses j ++ ((fun l => (InspectURL.a (link l), Failed e)) <$> remainingLinks j)).

End Job.

(** ** The priority scheduler, [src/lib/queue.js] *)

Module Queue.

#[local] Open Scope Z_scope.

(** What the handler's promise rejects with. [checkQueue] compares the error
    by identity with [errors.NoBotsAvailable]. *)
Inductive error := NoBotsAvailable | OtherError (msg : string).

Definition is_NoBotsAvailable (e : error) : bool :=
  match e with NoBotsAvailable => true | OtherError _ => false end.

(** The object pushed by [addJob]:
    [{data, max_attempts, attempts: 0, ip, priority}]. *)
Record entry := mkEntry {
  data : Job.link_entry;
  max_attempts : Z;
  attempts : Z;
  ip : string;
  priority : Z
}.

(** [this.priorityQueues = {1: [], 2: [], 3: [], 4: [], 5: []}]: an object
    with exactly these five keys; nothing adds or deletes a key. *)
Record lanes := mkLanes {
  lane1 : list entry;
  lane2 : list entry;
  lane3 : list entry;
  lane4 : list entry;
  lane5 : list entry
}.

Definition no_lanes : lanes := mkLanes [] [] [] [] [].

(** [this.priorityQueues[p]]; [None] is [undefined]. *)
Definition lane (p : Z) (pq : lanes) : option (list entry) :=
  match p with
  | 1 => Some (lane1 pq)
  | 2 => Some (lane2 pq)
  | 3 => Some (lane3 pq)
  | 4 => Some (lane4 pq)
  | 5 => Some (lane5 pq)
  | _ => None
  end.

(** The array under key [p] after [push], [shift] or [unshift] left it as
    [l]. *)
Definition set_lane (p : Z) (l : list entry) (pq : lanes) : lanes :=
  match p with
  | 1 => mkLanes l (lane2 pq) (lane3 pq) (lane4 pq) (lane5 pq)
  | 2 => mkLanes (lane1 pq) l (lane3 pq) (lane4 pq) (lane5 pq)
  | 3 => mkLanes (lane1 pq) (lane2 pq) l (lane4 pq) (lane5 pq)
  | 4 => mkLanes (lane1 pq) (lane2 pq) (lane3 pq) l (lane5 pq)
  | 5 => mkLanes (lane1 pq) (lane2 pq) (lane3 pq) (lane4 pq) l
  | _ => pq
  end.

(** [Object.values(this.priorityQueues)], in key order. *)
Definition values (pq : lanes) : list (list entry) :=
  [lane1 pq; lane2 pq; lane3 pq; lane4 pq; lane5 pq].

(** [size()]: [Object.values(...).reduce((total, queue) => total +
    queue.length, 0)]. *)
Definition lanes_size (pq : lanes) : Z :=
  foldl (fun total queue => total + Z.of_nat (length queue)) 0 (values pq).

(** The [for (let priority = 1; priority <= 5; priority++)] loop of
    [checkQueue], over the priorities still to visit: the first non-empty
    lane is shifted and the loop breaks. *)
Fixpoint scan (ps : list Z) (pq : lanes) : option (entry * lanes) :=
  match ps with
  | [] => None
  | p :: ps' =>
      match lane p pq with
      | Some (job :: rest) => Some (job, set_lane p rest pq)
      | _ => scan ps' pq
      end
  end.

Definition pick (pq : lanes) : option (entry * lanes) := scan [1; 2; 3; 4; 5] pq.

(** The scheduler object together with the callbacks that are pending on the
    event loop and close over it. *)
Record t := mk {
  priorityQueues : lanes;
  users : JS.counters;
  running : bool;
  activeJobsCount : Z;
  processingLock : bool;
  concurrency : Z;
  (** [this.handler(job)] promises that have not settled, oldest first *)
  handling : list entry;
  (** resolved chains waiting [delay] ms before [.finally] runs *)
  pacing : list Z;
  (** rejected chains whose [.finally] callback is queued *)
  finishing : nat;
  (** [setTimeout(requeue, backoffDelay)] timers that have not fired *)
  backoff : list (Q * entry);
  (** ['job failed'] events emitted so far, oldest first *)
  emitted : list (entry * error)
}.

(** The constructor, followed by [process(concurrency, ...)] storing the
    initial concurrency; [running] is still [false]. *)
Definition init (c : Z) : t :=
  mk no_lanes ∅ false 0 false c [] [] 0%nat [] [].

Definition size (q : t) : Z := lanes_size (priorityQueues q).

Definition getProcessingCount (q : t) : Z := activeJobsCount q.

Definition getUserQueuedAmt (ip : string) (q : t) : JS.amount :=
  JS.or_zero (JS.get (users q) ip).

Definition with_lanes (pq : lanes) (q : t) : t :=
  mk pq (users q) (running q) (activeJobsCount q) (processingLock q)
     (concurrency q) (handling q) (pacing q) (finishing q) (backoff q) (emitted q).

Definition with_users (u : JS.counters) (q : t) : t :=
  mk (priorityQueues q) u (running q) (activeJobsCount q) (processingLock q)
     (concurrency q) (handling q) (pacing q) (finishing q) (backoff q) (emitted q).

Definition with_running (b : bool) (q : t) : t :=
  mk (priorityQueues q) (users q) b (activeJobsCount q) (processingLock q)
     (concurrency q) (handling q) (pacing q) (finishing q) (backoff q) (emitted q).

Definition with_active (n : Z) (q : t) : t :=
  mk (priorityQueues q) (users q) (running q) n (processingLock q)
     (concurrency q) (handling q) (pacing q) (finishing q) (backoff q) (emitted q).

Definition with_lock (b : bool) (q : t) : t :=
  mk (priorityQueues q) (users q) (running q) (activeJobsCount q) b
     (concurrency q) (handling q) (pacing q) (finishing q) (backoff q) (emitted q).

Definition with_concurrency (c : Z) (q : t) : t :=
  mk (priorityQueues q) (users q) (running q) (activeJobsCount q) (processingLock q)
     c (handling q) (pacing q) (finishing q) (backoff q) (emitted q).

Definition with_handling (l : list entry) (q : t) : t :=
  mk (priorityQueues q) (users q) (running q) (activeJobsCount q) (processingLock q)
     (concurrency q) l (pacing q) (finishing q) (backoff q) (emitted q).

Definition with_pacing (l : list Z) (q : t) : t :=
  mk (priorityQueues q) (users q) (running q) (activeJobsCount q) (processingLock q)
     (concurrency q) (handling q) l (finishing q) (backoff q) (emitted q).

Definition with_finishing (n : nat) (q : t) : t :=
  mk (priorityQueues q) (users q) (running q) (activeJobsCount q) (processingLock q)
     (concurrency q) (handling q) (pacing q) n (backoff q) (emitted q).

Definition with_backoff (l : list (Q * entry)) (q : t) : t :=
  mk (priorityQueues q) (users q) (running q) (activeJobsCount q) (processingLock q)
     (concurrency q) (handling q) (pacing q) (finishing q) l (emitted q).

Definition with_emitted (l : list (entry * error)) (q : t) : t :=
  mk (priorityQueues q) (users q) (running q) (activeJobsCount q) (processingLock q)
     (concurrency q) (handling q) (pacing q) (finishing q) (backoff q) l.

(** The guard of the [while] loop of [checkQueue]. *)
Definition may_dispatch (q : t) : bool :=
  running q && (0 <? size q) && (activeJobsCount q <? concurrency q).

(** One iteration of the loop body after the guard held: pick, count the job
    as active and call the handler, whose promise is now pending. [None] is
    the [if (!job) break]. *)
Definition dispatch_one (q : t) : option t :=
  match pick (priorityQueues q) with
  | None => None
  | Some (job, pq') =>
      Some (with_handling (handling q ++ [job])
              (with_active (activeJobsCount q + 1) (with_lanes pq' q)))
  end.

(** The [while] loop, with the number of iterations still allowed. *)
Fixpoint checkQueue_loop (fuel : nat) (q : t) : t :=
  match fuel with
  | O => q
  | S fuel' =>
      if may_dispatch q then
        match dispatch_one q with
        | None => q
        | Some q' => checkQueue_loop fuel' q'
        end
      else q
  end.

(** [checkQueue()]: it contains no [await], so it runs to completion when
    called. Every iteration shifts one entry, so [size] iterations are all
    the loop can make. *)
Definition checkQueue (q : t) : t :=
  if processingLock q then q
  else with_lock false (checkQueue_loop (Z.to_nat (size q)) (with_lock true q)).

(** How a call that may raise ends: the state it leaves either way. *)
Inductive outcome := Returned (q : t) | Threw (q : t).

Definition state_of (o : outcome) : t :=
  match o with Returned q => q | Threw q => q end.

(** One iteration of the [for (const link of job.getRemainingLinks())] loop
    of [addJob]. [this.priorityQueues[priority].push] raises a TypeError when
    the lane is [undefined]. *)
Definition enqueue_link (ip : string) (max_attempts priority : Z)
    (l : Job.link_entry) (q : t) : outcome :=
  match lane priority (priorityQueues q) with
  | None => Threw q
  | Some waiting =>
      let e := mkEntry l max_attempts 0 ip priority in
      let q1 := with_lanes (set_lane priority (waiting ++ [e]) (priorityQueues q)) q in
      let q2 := with_users (JS.set ip (JS.incr (JS.get (users q1) ip)) (users q1)) q1 in
      Returned (checkQueue q2)
  end.

Fixpoint addJob_loop (ip : string) (max_attempts priority : Z)
    (links : list Job.link_entry) (q : t) : outcome :=
  match links with
  | [] => Returned q
  | l :: links' =>
      match enqueue_link ip max_attempts priority l q with
      | Returned q' => addJob_loop ip max_attempts priority links' q'
      | Threw q' => Threw q'
      end
  end.

(** [addJob(job, max_attempts, priority = 3)]; the default is applied by the
    caller of this function. *)
Definition addJob (job : Job.t) (max_attempts priority : Z) (q : t) : outcome :=
  let ip := Job.ip job in
  let q0 := if JS.has ip (users q) then q
            else with_users (JS.set ip (JS.Num 0) (users q)) q in
  addJob_loop ip max_attempts priority (Job.getRemainingLinks job) q0.

(** [this.users[ip]--; if (this.users[ip] === 0) delete this.users[ip]]. *)
Definition release_user (ip : string) (u : JS.counters) : JS.counters :=
  let u1 := JS.set ip (JS.decr (JS.get u ip)) u in
  if JS.is_zero (JS.get u1 ip) then delete ip u1 else u1.

(** [1000 * Math.pow(2, job.attempts - 1)]; the exponent is -1 when the
    entry has made no counted attempt, so the value is a rational. *)
Definition backoffDelay (attempts : Z) : Q :=
  (inject_Z 1000 * inject_Z 2 ^ (attempts - 1))%Q.

(** The [.then] callback of the chain of the [i]-th pending handler promise:
    the handler resolved with [delay] ([None] for [undefined]). *)
Definition on_resolved (i : nat) (delay : option Z) (q : t) : option t :=
  match handling q !! i with
  | None => None
  | Some job =>
      let delay := match delay with Some n => n | None => 0 end in
      Some (with_pacing (pacing q ++ [delay])
              (with_users (release_user (ip job) (users q))
                 (with_handling (delete i (handling q)) q)))
  end.

(** [job.attempts++], unless the error is [errors.NoBotsAvailable]. *)
Definition count_attempt (err : error) (job : entry) : entry :=
  if is_NoBotsAvailable err then job
  else mkEntry (data job) (max_attempts job) (attempts job + 1) (ip job) (priority job).

(** The [.catch] callback: the handler rejected with [err]. The listeners of
    ['job failed'] are taken to return normally. *)
Definition on_rejected (i : nat) (err : error) (q : t) : option t :=
  match handling q !! i with
  | None => None
  | Some job =>
      let job := count_attempt err job in
      let q1 := with_finishing (S (finishing q)) (with_handling (delete i (handling q)) q) in
      if max_attempts job <=? attempts job then
        Some (with_users (release_user (ip job) (users q1))
                (with_emitted (emitted q1 ++ [(job, err)]) q1))
      else
        Some (with_backoff (backoff q1 ++ [(backoffDelay (attempts job), job)]) q1)
  end.

(** The [.finally] callback. *)
Definition finally_ (q : t) : t :=
  let q1 := with_active (activeJobsCount q - 1) q in
  if running q1 && (0 <? size q1) then checkQueue q1 else q1.

(** The pacing timer of a resolved chain fired; [.finally] follows. *)
Definition on_paced (i : nat) (q : t) : option t :=
  match pacing q !! i with
  | None => None
  | Some _ => Some (finally_ (with_pacing (delete i (pacing q)) q))
  end.

(** The queued [.finally] of a rejected chain runs. *)
Definition on_finish (q : t) : option t :=
  match finishing q with
  | O => None
  | S n => Some (finally_ (with_finishing n q))
  end.

(** The backoff timer's callback:
    [this.priorityQueues[job.priority].unshift(job); this.checkQueue()].
    With the lane [undefined] the callback raises and nothing catches it. *)
Definition on_backoff (i : nat) (q : t) : option t :=
  match backoff q !! i with
  | None => None
  | Some (_, job) =>
      match lane (priority job) (priorityQueues q) with
      | None => None
      | Some waiting =>
          Some (checkQueue
                  (with_lanes (set_lane (priority job) (job :: waiting) (priorityQueues q))
                     (with_backoff (delete i (backoff q)) q)))
      end
  end.

(** The 50 ms interval of [process]: [concurrency] follows the number of
    ready bots, and each unit of growth calls [checkQueue]. *)
Definition on_tick (ready : Z) (q : t) : t :=
  let old := concurrency q in
  let q1 := with_concurrency ready q in
  if old <? ready then Nat.iter (Z.to_nat (ready - old)) checkQueue q1 else q1.

Definition start (q : t) : t :=
  if running q then q else checkQueue (with_running true q).

Definition pause (q : t) : t :=
  if running q then with_running false q else q.

(** What the event loop can run next. *)
Inductive event :=
  | AddJob (job : Job.t) (max_attempts priority : Z)
  | Resolved (i : nat) (delay : option Z)
  | Rejected (i : nat) (err : error)
  | Paced (i : nat)
  | Finish
  | BackoffFired (i : nat)
  | Tick (ready : Z)
  | Start
  | Pause.

(** One callback; [None] when the event is not pending in [q] (or the
    process died in the callback). A raising [addJob] is caught by its
    caller, and the scheduler lives on in the state it was left in. *)
Definition fire (ev : event) (q : t) : option t :=
  match ev with
  | AddJob job max_attempts priority => Some (state_of (addJob job max_attempts priority q))
  | Resolved i delay => on_resolved i delay q
  | Rejected i err => on_rejected i err q
  | Paced i => on_paced i q
  | Finish => on_finish q
  | BackoffFired i => on_backoff i q
  | Tick ready => Some (on_tick ready q)
  | Start => Some (start q)
  | Pause => Some (pause q)
  end.

Fixpoint run (evs : list event) (q : t) : option t :=
  match evs with
  | [] => Some q
  | ev :: evs' =>
      match fire ev q with
      | Some q' => run evs' q'
      | None => None
      end
  end.

(** The states the scheduler can be in after [process(c, ...)]. *)
Definition reachable (q : t) : Prop :=
  exists c evs, run evs (init c) = Some q.

(** [n] dequeues in a row, as the [while] loop makes them. *)
Fixpoint dequeue_n (n : nat) (pq : lanes) : list entry :=
  match n with
  | O => []
  | S n' =>
      match pick pq with
      | None => []
      | Some (job, pq') => job :: dequeue_n n' pq'
      end
  end.

(** The entries waiting in the lanes, first lane first. *)
Definition waiting (pq : lanes) : list entry := concat (values pq).

(** Every entry the scheduler still owes an outcome: waiting in a lane, with
    the handler, or behind a backoff timer. *)
Definition outstanding (q : t) : list entry :=
  waiting (priorityQueues q) ++ handling q ++ (snd <$> backoff q).

(** The outstanding entries of one caller. *)
Definition owed (caller : string) (q : t) : Z :=
  Z.of_nat (length (filter (fun e => ip e = caller) (outstanding q))).

(** Each lane holds entries of its own priority only. *)
Definition lanes_wf (pq : lanes) : Prop :=
  forall p l e, lane p pq = Some l -> e ∈ l -> priority e = p.

(** Dispatches the [while] loop can make: free concurrency slots while
    running. *)
Definition slots (q : t) : nat :=
  if running q then Z.to_nat (concurrency q - activeJobsCount q) else 0%nat.

(** The fields [checkQueue] never writes. *)
Definition same_books (q q' : t) : Prop :=
  users q' = users q /\ running q' = running q /\ concurrency q' = concurrency q /\
  pacing q' = pacing q /\ finishing q' = finishing q /\ backoff q' = backoff q /\
  emitted q' = emitted q.

(** Entries of one caller in a list. *)
Definition cnt (caller : string) (l : list entry) : Z :=
  Z.of_nat (length (filter (fun e => ip e = caller) l)).

(** [1] when the entry belongs to the caller, else [0]. *)
Definition mine (c : string) (e : entry) : Z := if decide (ip e = c) then 1 else 0.

(** The books are right: for every caller whose name is not that of a
    member of [Object.prototype], [users] holds the number of its
    outstanding entries, or no key when it has none. *)
Definition accounted (q : t) : Prop :=
  forall caller, JS.inherited caller = false ->
    users q !! caller = Some (JS.Num (owed caller q)) \/
    (users q !! caller = None /\ owed caller q = 0).

(** The invariant of the scheduler between callbacks. *)
Definition inv (q : t) : Prop :=
  processingLock q = false /\
  lanes_wf (priorityQueues q) /\
  (forall e, e ∈ handling q ++ (snd <$> backoff q) -> 1 <= priority e <= 5) /\
  accounted q.

(** The promise chains that hold a concurrency slot: handlers that have not
    settled, resolved chains waiting out their delay, and rejected chains
    whose [.finally] has not run. *)
Definition in_progress (q : t) : Z :=
  Z.of_nat (length (handling q)) + Z.of_nat (length (pacing q)) + Z.of_nat (finishing q).

(** An entry the scheduler still holds has no counted failure, or fewer than
    its [max_attempts]. *)
Definition attempts_ok (e : entry) : Prop :=
  attempts e = 0 \/ 0 < attempts e < max_attempts e.

(** An emitted ['job failed'] for an entry that was allowed at least one
    attempt: the attempts are used up exactly, and the error is not
    [NoBotsAvailable]. *)
Definition failed_ok (x : entry * error) : Prop :=
  1 <= max_attempts x.1 ->
  attempts x.1 = max_attempts x.1 /\ is_NoBotsAvailable x.2 = false.

(** The counters and logs agree with the pending chains. *)
Definition counted (q : t) : Prop :=
  activeJobsCount q = in_progress q /\
  (forall e, e ∈ outstanding q -> attempts_ok e) /\
  (forall x, x ∈ emitted q -> failed_ok x).

(** Between callbacks the loop of [checkQueue] has nothing left to do. *)
Definition steady (q : t) : Prop := counted q /\ may_dispatch q = false.

(** What one callback may do to the dispatch state [q]: [running] and
    [concurrency] stay, the active count does not pass the larger of its old
    value and the concurrency, and a paused scheduler hands nothing to the
    handler. *)
Definition within (q q' : t) : Prop :=
  running q' = running q /\ concurrency q' = concurrency q /\
  activeJobsCount q' <= Z.max (activeJobsCount q) (concurrency q) /\
  (running q = false ->
   handling q' = handling q /\ activeJobsCount q' = activeJobsCount q).

(** The entries [addJob] builds for the links of a job. *)
Definition entries_of (ip : string) (max_attempts priority : Z)
    (links : list Job.link_entry) : list entry :=
  (fun l => mkEntry l max_attempts 0 ip priority) <$> links.

End Queue.

(** ** The earlier scheduler kept at the end of [src/lib/bot.js] *)

Module QueueLegacy.

#[local] Open Scope Z_scope.
Import Queue.

(** The same five lanes, but the loop of this [checkQueue] is
    [for (let priority = 1; priority <= 3; priority++)]. *)
Definition pick (pq : lanes) : option (entry * lanes) := scan [1; 2; 3] pq.

Record t := mk {
  priorityQueues : lanes;
  users : JS.counters;
  running : bool;
  processing : Z;
  concurrency : Z;
  (** [this.handler(job)] promises that have not settled *)
  handling : list entry;
  (** ['job failed'] events emitted so far *)
  emitted : list (entry * error)
}.

Definition init (c : Z) : t := mk no_lanes ∅ false 0 c [] [].

Definition size (q : t) : Z := lanes_size (priorityQueues q).

Definition getUserQueuedAmt (ip : string) (q : t) : JS.amount :=
  JS.or_zero (JS.get (users q) ip).

(** [checkQueue()]: one dispatch at most per call. *)
Definition checkQueue (q : t) : t :=
  if negb (running q) then q
  else if (0 <? size q) && (processing q <? concurrency q) then
    match pick (priorityQueues q) with
    | Some (job, pq') =>
        mk pq' (users q) (running q) (processing q + 1) (concurrency q)
           (handling q ++ [job]) (emitted q)
    | None => q
    end
  else q.

(** One iteration of the loop of [addJob]; [None] when the push raises. *)
Definition enqueue_link (ip : string) (max_attempts priority : Z)
    (l : Job.link_entry) (q : t) : option t :=
  match lane priority (priorityQueues q) with
  | None => None
  | Some waiting =>
      let e := mkEntry l max_attempts 0 ip priority in
      Some (checkQueue
              (mk (set_lane priority (waiting ++ [e]) (priorityQueues q))
                  (JS.set ip (JS.incr (JS.get (users q) ip)) (users q))
                  (running q) (processing q) (concurrency q) (handling q) (emitted q)))
  end.

(** The [.catch] callback followed by the final [.then]: the attempts test
    is [===], a retry is unshifted at once, and the caller's key is never
    deleted. [None] when no such promise is pending or the unshift raises. *)
Definition on_rejected (i : nat) (err : error) (q : t) : option t :=
  match handling q !! i with
  | None => None
  | Some job =>
      let job := count_attempt err job in
      let rest := delete i (handling q) in
      if attempts job =? max_attempts job then
        Some (checkQueue
                (mk (priorityQueues q)
                    (JS.set (ip job) (JS.decr (JS.get (users q) (ip job))) (users q))
                    (running q) (processing q - 1) (concurrency q) rest
                    (emitted q ++ [(job, err)])))
      else
        match lane (priority job) (priorityQueues q) with
        | None => None
        | Some waiting =>
            Some (checkQueue
                    (mk (set_lane (priority job) (job :: waiting) (priorityQueues q))
                        (users q) (running q) (processing q - 1) (concurrency q) rest
                        (emitted q)))
        end
  end.

End QueueLegacy.

(** ** The bot's dispatcher, [src/lib/bot.js] *)

Module Bot.

#[local] Open Scope Z_scope.

(** A field value of an item record as the game coordinator client decodes
    it. *)
Inductive prim :=
  | Undefined
  | Null
  | Number (q : Q)
  | String (s : string)
  | Boolean (b : bool).

(** JavaScript truthiness, as [x || 0] and [if (x)] test it. *)
Definition truthy (v : prim) : bool :=
  match v with
  | Undefined | Null => false
  | Number q => negb (Qeq_bool q 0)
  | String s => if decide (s = ""%string) then false else true
  | Boolean b => b
  end.

(** [o.k]: a property that is not there reads as [undefined]. *)
Definition get (k : string) (o : gmap string prim) : prim :=
  match o !! k with Some v => v | None => Undefined end.

(** The coordinator's [iteminfo] object: its scalar properties, and the
    [stickers] array of objects ([None] when the property is not set). *)
Record iteminfo := mkItem {
  props : gmap string prim;
  stickers : option (list (gmap string prim))
}.

(** What [handleInspectResponse] resolves the promise with:
    [{iteminfo, delay}]. *)
Record response := mkResponse { res_iteminfo : iteminfo; delay : Z }.

(** An entry of [requestQueue]: the link's parameters, [time] (when
    [sendFloatRequest] was called) and the promise whose [resolve] and
    [reject] it carries. *)
Record request := mkRequest { params : InspectURL.params; time : Z; promise : nat }.

Inductive settlement := Resolved (r : response) | Rejected (msg : string).

Record settings := mkSettings {
  request_delay : Z;
  request_ttl : Z;
  max_concurrent_requests : Z
}.

(** The constructor's defaults. *)
Definition default_settings : settings := mkSettings 1000 30000 5.

(** The fields of the bot that the dispatcher reads and writes, and the
    timers and promises pending on the event loop. *)
Record t := mk {
  config : settings;
  busy : bool;
  ready : bool;
  isShuttingDown : bool;
  requestQueue : list request;
  activeRequests : Z;
  lastRequestTime : Z;
  resolve : option nat;
  currentRequest : option request;
  ttlTimeout : option nat;
  (** TTL timers that were set and have neither fired nor been cleared *)
  ttl_armed : list nat;
  next_timer : nat;
  (** post-response timers that have not fired, with their delays *)
  delay_timers : list Z;
  next_promise : nat;
  (** requests passed to [csgoClient.inspectItem], oldest first *)
  sent : list request;
  (** calls of [resolve] and [reject], oldest first *)
  settled : list (nat * settlement)
}.

Definition init (cfg : settings) : t :=
  mk cfg false false false [] 0 0 None None None [] 0%nat [] 0%nat [] [].

Definition with_busy (v : bool) (b : t) : t :=
  mk (config b) v (ready b) (isShuttingDown b) (requestQueue b) (activeRequests b)
     (lastRequestTime b) (resolve b) (currentRequest b) (ttlTimeout b) (ttl_armed b)
     (next_timer b) (delay_timers b) (next_promise b) (sent b) (settled b).

Definition with_ready (v : bool) (b : t) : t :=
  mk (config b) (busy b) v (isShuttingDown b) (requestQueue b) (activeRequests b)
     (lastRequestTime b) (resolve b) (currentRequest b) (ttlTimeout b) (ttl_armed b)
     (next_timer b) (delay_timers b) (next_promise b) (sent b) (settled b).

Definition with_shutdown (v : bool) (b : t) : t :=
  mk (config b) (busy b) (ready b) v (requestQueue b) (activeRequests b)
     (lastRequestTime b) (resolve b) (currentRequest b) (ttlTimeout b) (ttl_armed b)
     (next_timer b) (delay_timers b) (next_promise b) (sent b) (settled b).

Definition with_queue (v : list request) (b : t) : t :=
  mk (config b) (busy b) (ready b) (isShuttingDown b) v (activeRequests b)
     (lastRequestTime b) (resolve b) (currentRequest b) (ttlTimeout b) (ttl_armed b)
     (next_timer b) (delay_timers b) (next_promise b) (sent b) (settled b).

Definition with_active (v : Z) (b : t) : t :=
  mk (config b) (busy b) (ready b) (isShuttingDown b) (requestQueue b) v
     (lastRequestTime b) (resolve b) (currentRequest b) (ttlTimeout b) (ttl_armed b)
     (next_timer b) (delay_timers b) (next_promise b) (sent b) (settled b).

Definition with_last (v : Z) (b : t) : t :=
  mk (config b) (busy b) (ready b) (isShuttingDown b) (requestQueue b) (activeRequests b)
     v (resolve b) (currentRequest b) (ttlTimeout b) (ttl_armed b)
     (next_timer b) (delay_timers b) (next_promise b) (sent b) (settled b).

Definition with_current (res : option nat) (cur : option request) (b : t) : t :=
  mk (config b) (busy b) (ready b) (isShuttingDown b) (requestQueue b) (activeRequests b)
     (lastRequestTime b) res cur (ttlTimeout b) (ttl_armed b)
     (next_timer b) (delay_timers b) (next_promise b) (sent b) (settled b).

Definition with_ttl (handle : option nat) (armed : list nat) (next : nat) (b : t) : t :=
  mk (config b) (busy b) (ready b) (isShuttingDown b) (requestQueue b) (activeRequests b)
     (lastRequestTime b) (resolve b) (currentRequest b) handle armed
     next (delay_timers b) (next_promise b) (sent b) (settled b).

Definition with_delay_timers (v : list Z) (b : t) : t :=
  mk (config b) (busy b) (ready b) (isShuttingDown b) (requestQueue b) (activeRequests b)
     (lastRequestTime b) (resolve b) (currentRequest b) (ttlTimeout b) (ttl_armed b)
     (next_timer b) v (next_promise b) (sent b) (settled b).

Definition with_next_promise (v : nat) (b : t) : t :=
  mk (config b) (busy b) (ready b) (isShuttingDown b) (requestQueue b) (activeRequests b)
     (lastRequestTime b) (resolve b) (currentRequest b) (ttlTimeout b) (ttl_armed b)
     (next_timer b) (delay_timers b) v (sent b) (settled b).

Definition with_sent (v : list request) (b : t) : t :=
  mk (config b) (busy b) (ready b) (isShuttingDown b) (requestQueue b) (activeRequests b)
     (lastRequestTime b) (resolve b) (currentRequest b) (ttlTimeout b) (ttl_armed b)
     (next_timer b) (delay_timers b) (next_promise b) v (settled b).

Definition with_settled (v : list (nat * settlement)) (b : t) : t :=
  mk (config b) (busy b) (ready b) (isShuttingDown b) (requestQueue b) (activeRequests b)
     (lastRequestTime b) (resolve b) (currentRequest b) (ttlTimeout b) (ttl_armed b)
     (next_timer b) (delay_timers b) (next_promise b) (sent b) v.

(** [canProcessRequest()], with [Date.now()] passed in. *)
Definition canProcessRequest (now : Z) (b : t) : bool :=
  negb (now - lastRequestTime b <? request_delay (config b)).

(** The loop over the stickers in [processItemData]:
    [sticker.stickerId = sticker.sticker_id; delete sticker.sticker_id]. *)
Definition rename_sticker (sticker : gmap string prim) : gmap string prim :=
  delete "sticker_id"%string (<["stickerId"%string := get "sticker_id" sticker]> sticker).

(** [processItemData(itemData, delay)] for the current request [req]. *)
Definition processItemData (info : iteminfo) (d : Z) (req : request) : response :=
  let p := props info in
  let p := <["s"%string := String (InspectURL.s (params req))]> p in
  let p := <["a"%string := String (InspectURL.a (params req))]> p in
  let p := <["d"%string := String (InspectURL.d (params req))]> p in
  let p := <["m"%string := String (InspectURL.m (params req))]> p in
  let p := <["paintseed"%string :=
               if truthy (get "paintseed" p) then get "paintseed" p
               else Number (inject_Z 0)]> p in
  let p := <["floatvalue"%string := get "paintwear" p]> p in
  let p := delete "paintwear"%string p in
  let st := match stickers info with
            | Some l => Some (rename_sticker <$> l)
            | None => None
            end in
  mkResponse (mkItem p st) d.

(** [if (this.ttlTimeout) { clearTimeout(this.ttlTimeout); this.ttlTimeout =
    null; }]; timer handles are non-zero numbers or objects, so a handle is
    always truthy. *)
Definition clear_ttl (b : t) : t :=
  match ttlTimeout b with
  | Some h => with_ttl None (filter (fun h' => h' <> h) (ttl_armed b)) (next_timer b) b
  | None => b
  end.

(** [handleRequestError(error)]; the [setTimeout] at its end only schedules
    a later [processRequestQueue]. *)
Definition handleRequestError (msg : string) (b : t) : t :=
  let b := clear_ttl b in
  let b := with_busy false b in
  let b := with_active (Z.max 0 (activeRequests b - 1)) b in
  match resolve b, currentRequest b with
  | Some _, Some req =>
      with_settled (settled b ++ [(promise req, Rejected msg)]) (with_current None None b)
  | _, _ => b
  end.

(** [handleInspectResponse(itemData)] with [new Date().getTime()] passed in.
    [processItemData] cannot raise on an [iteminfo] of this type, so the
    [catch] branch is never entered. *)
Definition handleInspectResponse (info : iteminfo) (now : Z) (b : t) : t :=
  match resolve b, currentRequest b with
  | Some res, Some req =>
      match props info !! "itemid"%string with
      | Some (String itemid) =>
          if decide (itemid = InspectURL.a (params req)) then
            let b := clear_ttl b in
            let offset := now - time req in
            let delay := request_delay (config b) - offset in
            let delay := if delay <? 0 then 0 else delay in
            let itemData := processItemData info delay req in
            let b := with_settled (settled b ++ [(res, Resolved itemData)]) b in
            let b := with_current None None b in
            let b := with_active (activeRequests b - 1) b in
            with_delay_timers (delay_timers b ++ [delay]) b
          else b
      | _ => b
      end
  | _, _ => b
  end.

(** [executeRequest(request)]; [gc_ok] tells whether
    [csgoClient.inspectItem] returns or raises. *)
Definition executeRequest (req : request) (gc_ok : bool) (b : t) : t :=
  let b := with_active (activeRequests b + 1) b in
  let b := with_busy true b in
  let b := with_current (Some (promise req)) (Some req) b in
  if gc_ok then
    let b := with_sent (sent b ++ [req]) b in
    with_ttl (Some (next_timer b)) (ttl_armed b ++ [next_timer b]) (S (next_timer b)) b
  else handleRequestError "inspectItem raised" b.

(** [processRequestQueue()]. When the rate check fails it only schedules
    itself again. *)
Definition processRequestQueue (now : Z) (gc_ok : bool) (b : t) : t :=
  if isShuttingDown b || busy b || negb (ready b) then b
  else match requestQueue b with
  | [] => b
  | req :: rest =>
      if max_concurrent_requests (config b) <=? activeRequests b then b
      else if negb (canProcessRequest now b) then b
      else executeRequest req gc_ok (with_last now (with_queue rest b))
  end.

(** [sendFloatRequest(link)]: the promise created is [next_promise]. *)
Definition sendFloatRequest (link : InspectURL.params) (now : Z) (b : t) : t :=
  let p := next_promise b in
  let b := with_next_promise (S p) b in
  if isShuttingDown b then
    with_settled (settled b ++ [(p, Rejected "Bot is shutting down")]) b
  else if negb (ready b) then
    with_settled (settled b ++ [(p, Rejected "Bot is not ready")]) b
  else with_queue (requestQueue b ++ [mkRequest link now p]) b.

(** [destroy()], as far as the dispatcher goes. *)
Definition destroy (b : t) : t :=
  let b := with_shutdown true b in
  let b := clear_ttl b in
  let b := with_settled
             (settled b ++ ((fun req => (promise req, Rejected "Bot destroyed")) <$> requestQueue b))
             b in
  with_queue [] b.

(** What the event loop can run next on a bot. *)
Inductive event :=
  | SendFloatRequest (link : InspectURL.params) (now : Z)
  | ProcessQueue (now : Z) (gc_ok : bool)
  | InspectItemInfo (info : iteminfo) (now : Z)
  | TtlFired (handle : nat)
  | DelayElapsed (k : nat)
  | ConnectedToGC (now : Z) (gc_ok : bool)
  | Unready
  | Destroy.

(** One callback; [None] when the timer of the event is not pending. *)
Definition fire (ev : event) (b : t) : option t :=
  match ev with
  | SendFloatRequest link now => Some (sendFloatRequest link now b)
  | ProcessQueue now gc_ok => Some (processRequestQueue now gc_ok b)
  | InspectItemInfo info now => Some (handleInspectResponse info now b)
  | TtlFired h =>
      if decide (h ∈ ttl_armed b) then
        Some (handleRequestError "Request timeout"
                (with_ttl (ttlTimeout b) (filter (fun h' => h' <> h) (ttl_armed b))
                          (next_timer b) b))
      else None
  | DelayElapsed k =>
      match delay_timers b !! k with
      | Some _ => Some (with_busy false (with_delay_timers (delete k (delay_timers b)) b))
      | None => None
      end
  | ConnectedToGC now gc_ok => Some (processRequestQueue now gc_ok (with_ready true b))
  | Unready => Some (with_ready false b)
  | Destroy => Some (destroy b)
  end.

Fixpoint run (evs : list event) (b : t) : option t :=
  match evs with
  | [] => Some b
  | ev :: evs' =>
      match fire ev b with
      | Some b' => run evs' b'
      | None => None
      end
  end.

Definition reachable (b : t) : Prop := exists cfg evs, run evs (init cfg) = Some b.

(** The inspects passed to the coordinator whose promise nobody has settled. *)
Definition outstanding (b : t) : list request :=
  filter (fun req => promise req ∉ (fst <$> settled b)) (sent b).

(** The requests of [l] that no entry of the log [st] settles. *)
Definition unsettled (st : list (nat * settlement)) (l : list request) : list request :=
  filter (fun req => promise req ∉ st.*1) l.

(** The promises still in the queue are new to the coordinator and to the
    log, and the promise counter is ahead of every promise made. *)
Definition fresh (b : t) : Prop :=
  NoDup (promise <$> requestQueue b) /\
  (forall r, r ∈ requestQueue b ->
             ((promise r ∉ (promise <$> sent b)) /\
              (promise r ∉ (settled b).*1) /\
              (promise r < next_promise b)%nat)) /\
  (forall r, r ∈ sent b -> (promise r < next_promise b)%nat) /\
  (forall p, p ∈ (settled b).*1 -> (p < next_promise b)%nat).

(** The invariant of the dispatcher between callbacks: with a current
    request the bot is busy, that request is the only inspect outstanding,
    and no delay timer is pending; without one nothing is outstanding, no
    TTL timer is armed, and the bot is busy exactly while one delay timer is
    pending. *)
Definition bot_inv (b : t) : Prop :=
  resolve b = promise <$> currentRequest b /\
  match currentRequest b with
  | Some r =>
      busy b = true /\ delay_timers b = [] /\ outstanding b = [r] /\
      ((ttl_armed b = [] /\ ttlTimeout b = None) \/
       exists h, ttl_armed b = [h] /\ ttlTimeout b = Some h)
  | None =>
      outstanding b = [] /\ ttl_armed b = [] /\
      if busy b then exists d, delay_timers b = [d] else delay_timers b = []
  end /\
  fresh b.

(** The keys [processItemData] writes or deletes. *)
Definition stamped : list string :=
  ["s"; "a"; "d"; "m"; "paintseed"; "floatvalue"; "paintwear"]%string.

(** The requests passed to the coordinator, followed by those still queued,
    are in the order in which [sendFloatRequest] created their promises. *)
Definition in_order (b : t) : Prop :=
  StronglySorted lt (promise <$> (sent b ++ requestQueue b)).

(** The counter of active requests follows the current request, no promise
    was settled twice, and the queue is served in order. *)
Definition bot_books (b : t) : Prop :=
  activeRequests b = match currentRequest b with Some _ => 1 | None => 0 end /\
  NoDup (settled b).*1 /\
  in_order b.

(** A bot that was destroyed while the inspect [r] was in flight. *)
Definition abandoned (r : request) (b : t) : Prop :=
  isShuttingDown b = true /\ requestQueue b = [] /\ ttl_armed b = [] /\
  currentRequest b = Some r /\ outstanding b = [r].

(** An inspect in flight on a bot that was not destroyed has its TTL timer
    armed, and the field [ttlTimeout] holds that timer. *)
Definition timed (b : t) : Prop :=
  isShuttingDown b = false -> is_Some (currentRequest b) ->
  exists h, ttl_armed b = [h] /\ ttlTimeout b = Some h.

(** The coordinator's answers among the events. *)
Definition is_answer (ev : event) : bool :=
  match ev with InspectItemInfo _ _ => true | _ => false end.

End Bot.

(** ** The bot's login retries, [src/lib/bot.js] lines 150-172 and the
    handlers that write [connectionAttempts] *)

Module BotLogin.

#[local] Open Scope Z_scope.

(** The fields the login path writes, and the timers of [attemptLogin] that
    have not fired, with their delays. *)
Record t := mk {
  connectionAttempts : Z;
  maxConnectionAttempts : Z;
  isLoggedIn : bool;
  isLoggingIn : bool;
  backoff : list Z
}.

(** The constructor: [connectionAttempts = 0], [maxConnectionAttempts = 5]. *)
Definition init : t := mk 0 5 false false [].

(** [Math.min(300000, 5000 * Math.pow(2, this.connectionAttempts -
    this.maxConnectionAttempts))], computed where the exponent is not
    negative. *)
Definition backoffTime (s : t) : Z :=
  Z.min 300000 (5000 * 2 ^ (connectionAttempts s - maxConnectionAttempts s)).

(** [attemptLogin()] up to its [await]: at the cap it arms a timer and
    returns; below it the attempt is counted and [logIn] starts, which sets
    [isLoggedIn = false] and [isLoggingIn = true], and [isLoggingIn = false]
    again when the TOTP code cannot be generated. *)
Definition attemptLogin (totp_ok : bool) (s : t) : t :=
  if maxConnectionAttempts s <=? connectionAttempts s then
    mk (connectionAttempts s) (maxConnectionAttempts s) (isLoggedIn s) (isLoggingIn s)
       (backoff s ++ [backoffTime s])
  else
    mk (connectionAttempts s + 1) (maxConnectionAttempts s) false totp_ok (backoff s).

(** [logIn(...)] called from outside (the bot controller logs a new bot in
    with it): the synchronous part of its promise executor. *)
Definition logIn (totp_ok : bool) (s : t) : t :=
  mk (connectionAttempts s) (maxConnectionAttempts s) false totp_ok (backoff s).

(** The timer armed at the cap:
    [this.connectionAttempts = 0; this.attemptLogin()]. *)
Definition on_backoff (i : nat) (totp_ok : bool) (s : t) : option t :=
  match backoff s !! i with
  | None => None
  | Some _ =>
      Some (attemptLogin totp_ok
              (mk 0 (maxConnectionAttempts s) (isLoggedIn s) (isLoggingIn s)
                  (delete i (backoff s))))
  end.

(** The ['loggedOn'] handlers ([onLoginSuccess] of a pending [logIn] and the
    permanent one). *)
Definition on_loggedOn (s : t) : t :=
  mk 0 (maxConnectionAttempts s) true false (backoff s).

(** The ['error'] handler of the Steam client; [eresult] is [err.eresult]
    ([None] when the error has none). Result 84, the rate limit, is one of
    the keys of [loginErrorMsgs], so the test of the handler comes to
    [err.eresult === 84]. *)
Definition on_error (eresult : option Z) (s : t) : t :=
  let ca := if decide (eresult = Some 84) then maxConnectionAttempts s
            else connectionAttempts s in
  mk ca (maxConnectionAttempts s) false false (backoff s).

(** The [catch] of [attemptLogin], and the login timeout:
    [isLoggingIn = false]. *)
Definition on_login_failed (s : t) : t :=
  mk (connectionAttempts s) (maxConnectionAttempts s) (isLoggedIn s) false (backoff s).

(** The ['disconnected'] handler writes [isLoggedIn = false]; the
    ['disconnectedFromGC'] handler also [isLoggingIn = false]. *)
Definition on_disconnected (from_gc : bool) (s : t) : t :=
  mk (connectionAttempts s) (maxConnectionAttempts s) false
     (if from_gc then false else isLoggingIn s) (backoff s).

(** What the event loop can run next. [attemptLogin] is called by the login
    poller and by the reconnect timers under guards on the two flags; the
    guards are left out here, which allows more runs than the code has. *)
Inductive event :=
  | LogIn (totp_ok : bool)
  | AttemptLogin (totp_ok : bool)
  | BackoffFired (i : nat) (totp_ok : bool)
  | LoggedOn
  | SteamError (eresult : option Z)
  | LoginFailed
  | Disconnected (from_gc : bool).

Definition fire (ev : event) (s : t) : option t :=
  match ev with
  | LogIn totp_ok => Some (logIn totp_ok s)
  | AttemptLogin totp_ok => Some (attemptLogin totp_ok s)
  | BackoffFired i totp_ok => on_backoff i totp_ok s
  | LoggedOn => Some (on_loggedOn s)
  | SteamError eresult => Some (on_error eresult s)
  | LoginFailed => Some (on_login_failed s)
  | Disconnected from_gc => Some (on_disconnected from_gc s)
  end.

Fixpoint run (evs : list event) (s : t) : option t :=
  match evs with
  | [] => Some s
  | ev :: evs' =>
      match fire ev s with
      | Some s' => run evs' s'
      | None => None
      end
  end.

Definition reachable (s : t) : Prop := exists evs, run evs init = Some s.

(** The counter stays within the cap, and every timer armed waits five
    seconds. *)
Definition capped (s : t) : Prop :=
  maxConnectionAttempts s = 5 /\ 0 <= connectionAttempts s <= 5 /\
  Forall (fun d => d = 5000) (backoff s).

End BotLogin.

(** ** JavaScript [Map]: keys in insertion order *)

Module JSMap.

Section Ops.

Context {K V : Type} `{EqDecision K}.

(** The entries in iteration order; a key occurs once. *)
Definition t := list (K * V).

Fixpoint get (k : K) (m : t) : option V :=
  match m with
  | [] => None
  | (k', v) :: m' => if decide (k' = k) then Some v else get k m'
  end.

(** [m.set(k, v)]: a key already present keeps its place; a new key goes to
    the end. *)
Fixpoint set (k : K) (v : V) (m : t) : t :=
  match m with
  | [] => [(k, v)]
  | (k', v') :: m' => if decide (k' = k) then (k, v) :: m' else (k', v') :: set k v m'
  end.

(** [m.delete(k)]. *)
Fixpoint remove (k : K) (m : t) : t :=
  match m with
  | [] => []
  | (k', v') :: m' => if decide (k' = k) then m' else (k', v') :: remove k m'
  end.

(** [m.size]. *)
Definition size (m : t) : Z := Z.of_nat (length m).

(** [m.keys()], in iteration order. *)
Definition keys (m : t) : list K := fst <$> m.

(** [m.keys().next().value]; [None] is [undefined], for the empty map. *)
Definition first_key (m : t) : option K := head (keys m).

End Ops.

Arguments t : clear implicits.

End JSMap.

(** ** The bounded result cache at the end of [src/unnamed/part_000] *)

Module BoundedCache.

#[local] Open Scope Z_scope.

Section Cache.

(** The item record stored; [asset] is [generateKey(item)], that is
    [item.a]. *)
Context {Item : Type} (asset : Item -> string).

Record cached := mkCached { item : Item; price : option Z; timestamp : Z }.

Record t := mk { cache : JSMap.t string cached; maxEntries : Z }.

(** [new MemoryCache(maxEntries = 2000)]. *)
Definition create (maxEntries : option Z) : t :=
  mk [] (match maxEntries with Some n => n | None => 2000 end).

(** [price || null]: a missing price and the price 0 are both stored as
    [null]. *)
Definition price_or_null (p : option Z) : option Z :=
  match p with Some 0 => None | _ => p end.

(** The [if (this.cache.size >= this.maxEntries)] block of
    [insertItemData]; deleting the key [undefined] of an empty map does
    nothing. *)
Definition evict (c : t) : JSMap.t string cached :=
  if maxEntries c <=? JSMap.size (cache c) then
    match JSMap.first_key (cache c) with
    | Some oldestKey => JSMap.remove oldestKey (cache c)
    | None => cache c
    end
  else cache c.

(** [insertItemData(item, price)], called when [Date.now()] is [now]. *)
Definition insertItemData (it : Item) (p : option Z) (now : Z) (c : t) : t :=
  mk (JSMap.set (asset it) (mkCached it (price_or_null p) now) (evict c)) (maxEntries c).

(** [updateItemPrice(assetId, price)]. *)
Definition updateItemPrice (assetId : string) (p : option Z) (c : t) : t :=
  match JSMap.get assetId (cache c) with
  | Some e => mk (JSMap.set assetId (mkCached (item e) p (timestamp e)) (cache c)) (maxEntries c)
  | None => c
  end.

(** [getItemData(keys)] for an array of keys: the loop pushes a copy of the
    item with its price for every key that is cached. *)
Definition getItemData (ks : list string) (c : t) : list (Item * option Z) :=
  foldl (fun result key =>
           match JSMap.get key (cache c) with
           | Some e => result ++ [(item e, price e)]
           | None => result
           end) [] ks.

(** What the lookup of one key contributes to [getItemData]: a copy of the
    item with the entry's price. *)
Definition found (c : t) (k : string) : option (Item * option Z) :=
  (fun e => (item e, price e)) <$> JSMap.get k (cache c).

(** [cleanup()]: entries older than one hour are deleted. *)
Definition cleanup (now : Z) (c : t) : t :=
  mk (filter (fun kv => negb (60 * 60 * 1000 <? now - timestamp kv.2)) (cache c))
     (maxEntries c).

(** The calls that change a cache. *)
Inductive op :=
  | Insert (it : Item) (p : option Z) (now : Z)
  | UpdatePrice (assetId : string) (p : option Z)
  | Cleanup (now : Z).

Definition apply (c : t) (o : op) : t :=
  match o with
  | Insert it p now => insertItemData it p now c
  | UpdatePrice assetId p => updateItemPrice assetId p c
  | Cleanup now => cleanup now c
  end.

(** The cache after a history of calls on a new cache. *)
Definition after (maxEntries : option Z) (ops : list op) : t :=
  foldl apply (create maxEntries) ops.

(** Inserts in a row: each is an item, its price and the time of the
    call. *)
Definition insert_all (news : list (Item * option Z * Z)) (c : t) : t :=
  foldl (fun c n => insertItemData n.1.1 n.1.2 n.2 c) c news.

(** Keys occur once and the size respects the bound. *)
Definition cache_ok (c : t) : Prop :=
  NoDup (JSMap.keys (cache c)) /\ JSMap.size (cache c) <= maxEntries c.

(** The assets of a run of inserts. *)
Definition assets (news : list (Item * option Z * Z)) : list string :=
  (fun n => asset n.1.1) <$> news.

(** The key whose entry was written longest ago, by the [timestamp] of the
    entries (the earliest in iteration order among equals). *)
Fixpoint oldest_written (m : JSMap.t string cached) : option (string * Z) :=
  match m with
  | [] => None
  | (k, e) :: m' =>
      match oldest_written m' with
      | Some (k', ts') => if ts' <? timestamp e then Some (k', ts') else Some (k, timestamp e)
      | None => Some (k, timestamp e)
      end
  end.

End Cache.

End BoundedCache.

(** ** The result cache of [src/lib/memory_cache.js] *)

Module MemoryCache.

#[local] Open Scope Z_scope.

(** One element of the [links] array, by what
    [link.getParams ? link.getParams() : link] and the field reads of
    [generateKey] do with it:
    - [LinkObject p]: an object with a [getParams] method (an [InspectURL])
      that returns an object with the fields [p];
    - [Plain p]: any other value that is neither [null] nor [undefined],
      with the fields [p];
    - [Nullish]: [null] or [undefined] (also a hole of the array); reading
      [link.getParams] raises a TypeError;
    - [Unreadable]: a value with a truthy [getParams] whose call raises or
      returns [null] or [undefined], so that the call or the field read of
      [generateKey] raises.
    A field that is absent or falsy is the empty string. *)
Inductive link :=
  | LinkObject (p : InspectURL.params)
  | Plain (p : InspectURL.params)
  | Nullish
  | Unreadable.

(** The parameters [generateKey] reads; [None] when a TypeError is raised
    before the key is built. *)
Definition params_of (l : link) : option InspectURL.params :=
  match l with
  | LinkObject p | Plain p => Some p
  | Nullish | Unreadable => None
  end.

(** The argument of [getItemData]. *)
Inductive links_arg := NotAnArray | Links (ls : list link).

(** [`${item.a || ''}_${item.d || ''}_${item.s || item.m || ''}`]; a
    non-empty string is truthy, the string "0" included. *)
Definition generateKey (p : InspectURL.params) : string :=
  (InspectURL.a p ++ "_" ++ InspectURL.d p ++ "_" ++
   (if decide (InspectURL.s p = "") then InspectURL.m p else InspectURL.s p))%string.

Section Cache.

Context {Item : Type} (fields : Item -> InspectURL.params).

Record cached := mkCached { item : Item; price : option Z; timestamp : Z }.

Definition t := JSMap.t string cached.

(** [insertItemData(item, price)]: no size check in this file. *)
Definition insertItemData (it : Item) (p : option Z) (now : Z) (c : t) : t :=
  JSMap.set (generateKey (fields it))
            (mkCached it (match p with Some 0 => None | _ => p end) now) c.

(** How a call of [getItemData] ends: it returns a promise resolved with a
    list, or a TypeError leaves the function before any promise is
    returned. The cache is not written either way. *)
Inductive outcome := Resolved (results : list Item) | Threw.

(** The [for (const link of links)] loop of [getItemData], from the links
    still to visit and the [results] pushed so far. *)
Fixpoint collect (c : t) (ls : list link) (results : list Item) : outcome :=
  match ls with
  | [] => Resolved results
  | l :: ls' =>
      match params_of l with
      | None => Threw
      | Some params =>
          collect c ls'
            (match JSMap.get (generateKey params) c with
             | Some cachedData => results ++ [item cachedData]
             | None => results
             end)
      end
  end.

(** What the lookup of one link contributes. *)
Definition hit (c : t) (l : link) : option Item :=
  match params_of l with
  | Some params => item <$> JSMap.get (generateKey params) c
  | None => None
  end.

(** [getItemData(links)]. *)
Definition getItemData (links : links_arg) (c : t) : outcome :=
  match links with
  | NotAnArray => Resolved []
  | Links ls => collect c ls []
  end.

(** [updateItemPrice(assetId, price)]: the loop over the entries sets the
    price of the first one whose item has the asset id, and breaks. *)
Fixpoint updateItemPrice (assetId : string) (p : option Z) (c : t) : t :=
  match c with
  | [] => []
  | (k, e) :: c' =>
      if decide (InspectURL.a (fields (item e)) = assetId)
      then (k, mkCached (item e) p (timestamp e)) :: c'
      else (k, e) :: updateItemPrice assetId p c'
  end.

End Cache.

End MemoryCache.

(** ** The HTTP handlers of [src/unnamed/part_000] *)

Module App.

#[local] Open Scope Z_scope.

(** The parts of [CONFIG] the handlers read. [max_simultaneous_requests]
    is the value after the default 1 was filled in; [max_queue_size] is
    [None] when the key is not set ([undefined > 0] is false). *)
Record config := mkConfig {
  api_key : option string;
  max_attempts : Z;
  max_simultaneous_requests : Z;
  max_queue_size : option Z
}.

(** What the body offers as a link: [url], or the fields [a], [d] and one of
    [s], [m]; [NoLink] when neither test of the handler holds. *)
Inductive link_input :=
  | NoLink
  | Url (url : string)
  | Fields (a d : string) (s m : option string).

(** The JSON body of [POST /inspect]. [priority] is
    [parseInt(req.body.priority)], [None] for NaN. *)
Record body := mkBody {
  apiKey : option string;
  priority : option Z;
  link : link_input
}.

(** What the handler answers at once, if anything: the literal
    [res.status(s).json({error, code})], or one of the error envelopes. *)
Inductive reply :=
  | Json (status : Z) (error : string) (code : Z)
  | Envelope (e : Errors.t).

(** A handler's effects: the reply sent before it returns, the scheduler,
    the job it created, and whether it built an [InspectURL]. *)
Record outcome := mkOutcome {
  replied : option reply;
  queue : Queue.t;
  created : option Job.t;
  parsed : bool
}.

Section Handlers.

(** [new InspectURL(x).getParams()] for the link the body offers
    ([lib/inspect_url.js] is not part of the sources); [None] when the link
    is invalid. *)
Variable getParams : link_input -> option InspectURL.params.

(** The price accepted for the link: [parseInt(req.body.price)] when
    [canSubmitPrice] holds, else [undefined]. *)
Variable submitted_price : body -> InspectURL.params -> option Z.

Variable cfg : config.

(** [!req.body.apiKey || req.body.apiKey !== CONFIG.api_key]. *)
Definition invalid_key (b : body) : bool :=
  match apiKey b with
  | None => true
  | Some k => if decide (k = ""%string) then true
              else if decide (Some k = api_key cfg) then false else true
  end.

(** [let priority = parseInt(req.body.priority) || 4; if (priority < 1 ||
    priority > 5) priority = 4]. *)
Definition parse_priority (b : body) : Z :=
  let p := match priority b with
           | Some n => if n =? 0 then 4 else n
           | None => 4
           end in
  if (p <? 1) || (5 <? p) then 4 else p.

(** The handler after the key check (lines 157-192): the link, the job, and
    the enqueue under [try]. *)
Definition inspect_link (caller : string) (b : body) (q : Queue.t) : outcome :=
  match link b with
  | NoLink => mkOutcome (Some (Envelope Errors.InvalidInspect)) q None false
  | input =>
      match getParams input with
      | None => mkOutcome (Some (Envelope Errors.InvalidInspect)) q None true
      | Some l =>
          let job := Job.add l (submitted_price b l) (Job.create caller false) in
          match Queue.addJob job (max_attempts cfg) (parse_priority b) q with
          | Queue.Returned q' => mkOutcome None q' (Some job) true
          | Queue.Threw q' => mkOutcome (Some (Envelope Errors.GenericBad)) q' (Some job) true
          end
      end
  end.

(** [app.post('/inspect', ...)] of lines 148-193 (the handler of lines
    460-505 is the same). *)
Definition post_inspect (caller : string) (b : body) (q : Queue.t) : outcome :=
  if invalid_key b then
    mkOutcome (Some (Json 403 "Invalid API key" 8)) q None false
  else inspect_link caller b q.

(** [app.post('/inspect', ...)] of lines 796-829: the body of the handler
    starts with the priority; it reads no [apiKey]. Its priority test
    ([isNaN(priority) || priority < 1 || priority > 5]) gives the same
    result as [parse_priority]. *)
Definition post_inspect_v3 (caller : string) (b : body) (q : Queue.t) : outcome :=
  inspect_link caller b q.

(** [handleJob(job)] after its cache pass, with what
    [botController.hasBotOnline()] returns: the job with its answers, and the
    scheduler. *)
Definition handleJob (hasBotOnline : bool) (job : Job.t) (q : Queue.t) : Job.t * Queue.t :=
  if negb hasBotOnline then (Job.setResponseRemaining Errors.SteamOffline job, q)
  else if (0 <? max_simultaneous_requests cfg) &&
          JS.plus_gt (Queue.getUserQueuedAmt (Job.ip job) q) (Job.remainingSize job)
            (max_simultaneous_requests cfg) then
    (Job.setResponseRemaining Errors.MaxRequests job, q)
  else if match max_queue_size cfg with
          | Some n => (0 <? n) && (n <? Queue.size q + Job.remainingSize job)
          | None => false
          end then
    (Job.setResponseRemaining Errors.MaxQueueSize job, q)
  else if 0 <? Job.remainingSize job then
    (job, Queue.state_of (Queue.addJob job (max_attempts cfg) 3 q))
  else (job, q).

End Handlers.

End App.

(** ** Concrete runs of the scheduler *)

Module Scenario.

Import Queue.

Definition link_of (asset : string) : Job.link_entry :=
  Job.mkLink (InspectURL.mkParams "76561198000000001" asset "11" "0") None.

Definition job_of (caller asset : string) : Job.t :=
  Job.mk caller false [link_of asset] [].

Definition after (evs : list event) (c : Z) : t :=
  match run evs (init c) with Some q => q | None => init c end.

(** No bot is ready; three callers enqueue at priorities 5, 3 and 1. *)
Definition three_waiting : t :=
  after [Start; AddJob (job_of "10.0.0.1" "1") 3 5;
         AddJob (job_of "10.0.0.2" "2") 3 3;
         AddJob (job_of "10.0.0.3" "3") 3 1] 0.

(** One bot is ready; one entry is enqueued and handed to the handler at
    once. *)
Definition one_in_flight : t :=
  after [Start; AddJob (job_of "9.9.9.9" "7") 3 4] 1.

Definition in_flight_entry : entry := mkEntry (link_of "7") 3 0 "9.9.9.9" 4.

(** Two bots are ready and the caller 9.9.9.9 has two entries with the
    handler. *)
Definition two_in_flight : t :=
  after [Start; AddJob (job_of "9.9.9.9" "7") 3 4; AddJob (job_of "9.9.9.9" "8") 3 4] 2.

(** One bot is ready; the only attempt allowed to an entry failed. *)
Definition one_failed : t :=
  after [Start; AddJob (job_of "9.9.9.9" "7") 1 4;
         Rejected 0 (OtherError "Request timeout")] 1.

(** One bot is ready; a caller whose address reads [toString] has one entry,
    allowed a single attempt, with the handler. *)
Definition prototype_caller_in_flight : t :=
  after [Start; AddJob (job_of "toString" "7") 1 4] 1.

(** The same scheduler after the handler rejected that entry. *)
Definition prototype_caller_failed : t :=
  after [Start; AddJob (job_of "toString" "7") 1 4;
         Rejected 0 (OtherError "Request timeout")] 1.

(** One bot is ready; two callers enqueue one entry each: the first is with
    the handler, the second waits. *)
Definition one_busy_one_waiting : t :=
  after [Start; AddJob (job_of "10.0.0.1" "1") 3 4;
         AddJob (job_of "10.0.0.2" "2") 3 4] 1.

(** A stand-in for [InspectURL]: the object form with an owner or a market
    id is accepted, a URL is not parsed. *)
Definition parse_fields (input : App.link_input) : option InspectURL.params :=
  match input with
  | App.Fields a d (Some s) _ => Some (InspectURL.mkParams s a d "0")
  | App.Fields a d None (Some m) => Some (InspectURL.mkParams "0" a d m)
  | _ => None
  end.

Definition no_price (b : App.body) (l : InspectURL.params) : option Z := None.

(** [api_key] is set, [max_simultaneous_requests] is 2, no queue limit. *)
Definition limits : App.config := App.mkConfig (Some "secret"%string) 3 2 None.

(** A well-formed request for asset 9 that carries the key. *)
Definition keyed_request : App.body :=
  App.mkBody (Some "secret"%string) None
    (App.Fields "9" "11" (Some "76561198000000001"%string) None).

(** The same request without [apiKey]. *)
Definition keyless_request : App.body :=
  App.mkBody None None (App.Fields "9" "11" (Some "76561198000000001"%string) None).

(** A bot that is connected and has sent the inspect of asset 10. *)
Definition bot_waiting : Bot.t :=
  match Bot.run [Bot.ConnectedToGC 0 true;
                 Bot.SendFloatRequest (InspectURL.mkParams "76561198000000001" "10" "11" "0") 5000;
                 Bot.ProcessQueue 5010 true]
                (Bot.init Bot.default_settings) with
  | Some b => b
  | None => Bot.init Bot.default_settings
  end.

Definition request_10 : Bot.request :=
  Bot.mkRequest (InspectURL.mkParams "76561198000000001" "10" "11" "0") 5000 0.

(** The coordinator's answer for asset 10: wear 1/4, no paint seed, one
    sticker, and its own idea of the owner. *)
Definition answer_10 : Bot.iteminfo :=
  Bot.mkItem
    (<["itemid"%string := Bot.String "10"]>
       (<["paintwear"%string := Bot.Number (1 # 4)]>
          (<["paintseed"%string := Bot.Null]>
             (<["s"%string := Bot.String "1"]> ∅))))
    (Some [<["sticker_id"%string := Bot.Number (inject_Z 55)]> ∅]).

(** An answer for another asset. *)
Definition answer_99 : Bot.iteminfo :=
  Bot.mkItem (<["itemid"%string := Bot.String "99"]> ∅) None.

(** A bot after more callbacks; the bot itself when one of them is not
    pending. *)
Definition bot_run (evs : list Bot.event) (b : Bot.t) : Bot.t :=
  match Bot.run evs b with Some b' => b' | None => b end.

(** A second request, for asset 20, accepted one millisecond later. *)
Definition request_20 : Bot.request :=
  Bot.mkRequest (InspectURL.mkParams "76561198000000001" "20" "11" "0") 5001 1.

(** A bounded cache of three entries that is full. *)
Definition full_cache : BoundedCache.t (Item := string) :=
  BoundedCache.after (fun x : string => x) (Some 3%Z)
    [BoundedCache.Insert "A"%string None 1%Z; BoundedCache.Insert "B"%string None 2%Z;
     BoundedCache.Insert "C"%string None 3%Z].

(** A connected bot that accepted the requests for assets 10 and 20 and
    sent the first. *)
Definition bot_two_requests : Bot.t :=
  bot_run [Bot.ConnectedToGC 0 true;
           Bot.SendFloatRequest (InspectURL.mkParams "76561198000000001" "10" "11" "0") 5000;
           Bot.SendFloatRequest (InspectURL.mkParams "76561198000000001" "20" "11" "0") 5001;
           Bot.ProcessQueue 5010 true]
          (Bot.init Bot.default_settings).

(** The bot of [bot_waiting] after the coordinator answered. *)
Definition bot_answered : Bot.t :=
  bot_run [Bot.InspectItemInfo answer_10 5500] bot_waiting.

End Scenario.

(** * Properties *)

(** ** Scheduler: dequeue discipline *)

Section QueueDequeue.

#[local] Open Scope Z_scope.
Import Queue.

Lemma waiting_lanes pq :
  waiting pq = lane1 pq ++ lane2 pq ++ lane3 pq ++ lane4 pq ++ lane5 pq.
Proof. unfold waiting, values. simpl. by rewrite app_nil_r. Qed.

Lemma lanes_size_waiting pq : lanes_size pq = Z.of_nat (length (waiting pq)).
Proof.
  rewrite waiting_lanes, !length_app. unfold lanes_size, values. simpl. lia.
Qed.

Lemma lane_set_lane_eq p l pq : 1 <= p <= 5 -> lane p (set_lane p l pq) = Some l.
Proof.
  intros Hp. assert (p = 1 \/ p = 2 \/ p = 3 \/ p = 4 \/ p = 5) as Hc by lia.
  destruct Hc as [-> | [-> | [-> | [-> | ->]]]]; reflexivity.
Qed.

Lemma lane_set_lane_ne p p' l pq : p <> p' -> lane p' (set_lane p l pq) = lane p' pq.
Proof.
  intros Hne. unfold set_lane.
  destruct p as [|[[|[]|]|[[]|[]|]|]|]; try reflexivity;
    destruct p' as [|[[|[]|]|[[]|[]|]|]|]; try reflexivity; congruence.
Qed.

Lemma lane_range p pq l : lane p pq = Some l -> 1 <= p <= 5.
Proof.
  destruct p as [|[[|[]|]|[[]|[]|]|]|]; simpl; intros; try discriminate; lia.
Qed.

(** What one pass of the priority scan returns. *)
Lemma pick_spec pq :
  match pick pq with
  | None => waiting pq = []
  | Some (job, pq') =>
      exists p rest,
        1 <= p <= 5 /\ lane p pq = Some (job :: rest) /\ pq' = set_lane p rest pq /\
        (forall p', 1 <= p' < p -> lane p' pq = Some []) /\
        waiting pq = job :: waiting pq'
  end.
Proof.
  rewrite waiting_lanes. destruct pq as [l1 l2 l3 l4 l5]. unfold pick, scan. simpl.
  destruct l1 as [|j1 r1]; simpl.
  2:{ exists 1, r1. rewrite waiting_lanes. simpl. repeat split; try lia; intros; lia. }
  destruct l2 as [|j2 r2]; simpl.
  2:{ exists 2, r2. rewrite waiting_lanes. simpl. repeat split; try lia.
      intros p' Hp'. by replace p' with 1 by lia. }
  destruct l3 as [|j3 r3]; simpl.
  2:{ exists 3, r3. rewrite waiting_lanes. simpl. repeat split; try lia.
      intros p' Hp'. assert (p' = 1 \/ p' = 2) as [-> | ->] by lia; done. }
  destruct l4 as [|j4 r4]; simpl.
  2:{ exists 4, r4. rewrite waiting_lanes. simpl. repeat split; try lia.
      intros p' Hp'. assert (p' = 1 \/ p' = 2 \/ p' = 3) as [-> | [-> | ->]] by lia; done. }
  destruct l5 as [|j5 r5]; simpl; [done|].
  exists 5, r5. rewrite waiting_lanes. simpl. repeat split; try lia.
  intros p' Hp'.
  assert (p' = 1 \/ p' = 2 \/ p' = 3 \/ p' = 4) as [-> | [-> | [-> | ->]]] by lia; done.
Qed.

Lemma pick_waiting pq job pq' : pick pq = Some (job, pq') -> waiting pq = job :: waiting pq'.
Proof.
  intros H. pose proof (pick_spec pq) as Hs. rewrite H in Hs.
  destruct Hs as (p & rest & _ & _ & _ & _ & Hw). exact Hw.
Qed.

Lemma pick_none pq : pick pq = None <-> waiting pq = [].
Proof.
  pose proof (pick_spec pq) as Hs. destruct (pick pq) as [[job pq']|].
  - destruct Hs as (p & rest & _ & _ & _ & _ & Hw). rewrite Hw. split; discriminate.
  - split; auto.
Qed.

(** Consecutive dequeues drain the lanes in the order lane 1, ..., lane 5,
    each lane front to back. *)
Lemma dequeue_n_take n : forall pq, dequeue_n n pq = take n (waiting pq).
Proof.
  induction n as [|n IH]; intros pq; simpl; [done|].
  destruct (pick pq) as [[job pq']|] eqn:Hp.
  - rewrite (pick_waiting _ _ _ Hp). simpl. by rewrite IH.
  - apply pick_none in Hp. by rewrite Hp.
Qed.

End QueueDequeue.

(** ** Scheduler: what [checkQueue] does to a state *)

Section QueueCheck.

#[local] Open Scope Z_scope.
Import Queue.

Lemma same_books_refl q : same_books q q.
Proof. by repeat split. Qed.

Lemma same_books_trans q1 q2 q3 : same_books q1 q2 -> same_books q2 q3 -> same_books q1 q3.
Proof.
  unfold same_books. intros (?&?&?&?&?&?&?) (?&?&?&?&?&?&?).
  repeat split; congruence.
Qed.

Lemma may_dispatch_true q :
  may_dispatch q = true ->
  running q = true /\ 0 < size q /\ activeJobsCount q < concurrency q.
Proof.
  unfold may_dispatch. rewrite !andb_true_iff, !Z.ltb_lt. tauto.
Qed.

Lemma may_dispatch_false q :
  may_dispatch q = false -> Nat.min (slots q) (length (waiting (priorityQueues q))) = 0%nat.
Proof.
  unfold may_dispatch, slots, size. rewrite lanes_size_waiting.
  rewrite !andb_false_iff, !Z.ltb_ge. intros [[Hr | Hs] | Ha].
  - by rewrite Hr.
  - destruct (waiting (priorityQueues q)); simpl in *; lia.
  - destruct (running q); lia.
Qed.

(** The loop dispatches the first [k] waiting entries, in order, where [k] is
    the smaller of the free slots and the number of waiting entries, and
    stops with its guard false; [size] iterations are enough for that. *)
Lemma checkQueue_loop_spec fuel : forall q,
  (length (waiting (priorityQueues q)) <= fuel)%nat ->
  let k := Nat.min (slots q) (length (waiting (priorityQueues q))) in
  let q' := checkQueue_loop fuel q in
  handling q' = handling q ++ take k (waiting (priorityQueues q)) /\
  waiting (priorityQueues q') = drop k (waiting (priorityQueues q)) /\
  activeJobsCount q' = activeJobsCount q + Z.of_nat k /\
  processingLock q' = processingLock q /\
  (lanes_wf (priorityQueues q) -> lanes_wf (priorityQueues q')) /\
  same_books q q' /\
  may_dispatch q' = false.
Proof.
  induction fuel as [|fuel IH]; intros q Hlen; simpl.
  - assert (waiting (priorityQueues q) = []) as Hw
      by (destruct (waiting (priorityQueues q)); simpl in *; [done | lia]).
    rewrite Hw. rewrite Nat.min_0_r. simpl. rewrite app_nil_r, Z.add_0_r.
    split_and!; try done; try apply same_books_refl.
    unfold may_dispatch, size. rewrite lanes_size_waiting, Hw. simpl.
    by rewrite andb_false_r.
  - destruct (may_dispatch q) eqn:Hm.
    + apply may_dispatch_true in Hm as (Hr & Hs & Ha).
      unfold dispatch_one.
      pose proof (pick_spec (priorityQueues q)) as Hp.
      destruct (pick (priorityQueues q)) as [[job pq']|] eqn:Hpick.
      * destruct Hp as (p & rest & Hrange & Hlane & -> & Hbefore & Hw).
        set (q1 := with_handling _ _).
        assert (waiting (priorityQueues q1) = waiting (set_lane p rest (priorityQueues q)))
          as Hw1 by reflexivity.
        specialize (IH q1). rewrite Hw1 in IH. rewrite Hw in Hlen. simpl in Hlen.
        destruct IH as (Hh & Hwq & Hact & Hlock & Hwf & Hsame & Hstop); [lia|].
        assert (slots q = S (slots q1)) as Hslots.
        { unfold slots, q1. simpl. rewrite Hr. lia. }
        rewrite Hw, Hslots. simpl.
        split_and!.
        -- rewrite Hh. unfold q1 at 1. simpl. by rewrite <- app_assoc.
        -- exact Hwq.
        -- rewrite Hact. unfold q1 at 1. simpl. lia.
        -- rewrite Hlock. reflexivity.
        -- intros Hq. apply Hwf. unfold q1. simpl.
           intros p0 l0 e0 Hl0 He0. destruct (decide (p = p0)) as [<- | Hne].
           ++ rewrite lane_set_lane_eq in Hl0 by done. injection Hl0 as <-.
              apply (Hq p (job :: rest) e0 Hlane). by right.
           ++ rewrite lane_set_lane_ne in Hl0 by done. by apply (Hq p0 l0).
        -- eapply same_books_trans; [|exact Hsame]. by repeat split.
        -- exact Hstop.
      * unfold size in Hs. rewrite lanes_size_waiting, Hp in Hs.
        simpl in Hs. lia.
    + pose proof (may_dispatch_false q Hm) as ->. simpl.
      rewrite app_nil_r, Z.add_0_r. split_and!; try done; try apply same_books_refl.
Qed.

(** [checkQueue] called with the lock free. *)
Lemma checkQueue_spec q :
  processingLock q = false ->
  let k := Nat.min (slots q) (length (waiting (priorityQueues q))) in
  let q' := checkQueue q in
  handling q' = handling q ++ take k (waiting (priorityQueues q)) /\
  waiting (priorityQueues q') = drop k (waiting (priorityQueues q)) /\
  activeJobsCount q' = activeJobsCount q + Z.of_nat k /\
  processingLock q' = false /\
  (lanes_wf (priorityQueues q) -> lanes_wf (priorityQueues q')) /\
  same_books q q' /\
  may_dispatch q' = false.
Proof.
  intros Hlock. unfold checkQueue. rewrite Hlock.
  pose proof (checkQueue_loop_spec (Z.to_nat (size q)) (with_lock true q)) as H.
  simpl in H. destruct H as (Hh & Hw & Ha & Hl & Hwf & Hsame & Hstop).
  { unfold size. rewrite lanes_size_waiting. lia. }
  split_and!; try done.
Qed.

End QueueCheck.

(** ** Scheduler: per-caller accounting *)

Section QueueAccounting.

#[local] Open Scope Z_scope.
Import Queue.

Lemma cnt_nil c : cnt c [] = 0.
Proof. reflexivity. Qed.

Lemma cnt_cons c e l : cnt c (e :: l) = (if decide (ip e = c) then 1 else 0) + cnt c l.
Proof.
  unfold cnt. rewrite filter_cons. destruct (decide (ip e = c)); simpl; lia.
Qed.

Lemma cnt_app c l1 l2 : cnt c (l1 ++ l2) = cnt c l1 + cnt c l2.
Proof. unfold cnt. rewrite filter_app, length_app. lia. Qed.

Lemma cnt_nonneg c l : 0 <= cnt c l.
Proof. unfold cnt. lia. Qed.

Lemma cnt_delete c l i e :
  l !! i = Some e -> cnt c l = (if decide (ip e = c) then 1 else 0) + cnt c (delete i l).
Proof.
  revert i. induction l as [|x l IH]; intros [|i] H; simpl in *; try discriminate.
  - injection H as ->. by rewrite cnt_cons.
  - rewrite !cnt_cons, (IH i H). lia.
Qed.

Lemma cnt_take_drop c k l : cnt c (take k l) + cnt c (drop k l) = cnt c l.
Proof. by rewrite <- cnt_app, take_drop. Qed.

Lemma owed_eq c q :
  owed c q = cnt c (waiting (priorityQueues q)) + cnt c (handling q) + cnt c (snd <$> backoff q).
Proof. unfold owed, outstanding, cnt. rewrite !filter_app, !length_app. lia. Qed.

Lemma cnt_waiting_set_lane c p l l0 pq :
  lane p pq = Some l0 ->
  cnt c (waiting (set_lane p l pq)) = cnt c (waiting pq) - cnt c l0 + cnt c l.
Proof.
  intros H. pose proof (lane_range _ _ _ H) as Hp.
  assert (p = 1 \/ p = 2 \/ p = 3 \/ p = 4 \/ p = 5) as Hc by lia.
  destruct Hc as [-> | [-> | [-> | [-> | ->]]]]; simpl in H; injection H as <-;
    rewrite !waiting_lanes; simpl; rewrite !cnt_app; lia.
Qed.

Lemma lanes_wf_set_lane p l pq :
  lanes_wf pq -> (forall e, e ∈ l -> priority e = p) -> lanes_wf (set_lane p l pq).
Proof.
  intros Hwf Hl p0 l0 e0 Hl0 He0. destruct (decide (p = p0)) as [<- | Hne].
  - pose proof (lane_range _ _ _ Hl0) as Hr.
    assert (1 <= p <= 5) as Hp.
    { destruct (decide (1 <= p <= 5)) as [|Hout]; [done|].
      destruct p as [|[[|[]|]|[[]|[]|]|]|]; simpl in *; try lia; try discriminate. }
    rewrite lane_set_lane_eq in Hl0 by done. injection Hl0 as <-. by apply Hl.
  - rewrite lane_set_lane_ne in Hl0 by done. by apply (Hwf p0 l0).
Qed.

Lemma lanes_wf_range pq e : lanes_wf pq -> e ∈ waiting pq -> 1 <= priority e <= 5.
Proof.
  intros Hwf. rewrite waiting_lanes, !elem_of_app.
  intros [H | [H | [H | [H | H]]]].
  - rewrite (Hwf 1 (lane1 pq) e); [lia | done | done].
  - rewrite (Hwf 2 (lane2 pq) e); [lia | done | done].
  - rewrite (Hwf 3 (lane3 pq) e); [lia | done | done].
  - rewrite (Hwf 4 (lane4 pq) e); [lia | done | done].
  - rewrite (Hwf 5 (lane5 pq) e); [lia | done | done].
Qed.

(** [checkQueue] moves entries from the lanes to the handler: what a caller
    is owed stays. *)
Lemma owed_checkQueue c q : processingLock q = false -> owed c (checkQueue q) = owed c q.
Proof.
  intros Hlock. pose proof (checkQueue_spec q Hlock) as H. simpl in H.
  destruct H as (Hh & Hw & _ & _ & _ & (_ & _ & _ & _ & _ & Hb & _) & _).
  rewrite !owed_eq, Hh, Hw, Hb, cnt_app.
  pose proof (cnt_take_drop c (Nat.min (slots q) (length (waiting (priorityQueues q))))
                (waiting (priorityQueues q))). lia.
Qed.

Lemma inherited_not_proto k : JS.inherited k = false -> k <> "__proto__"%string.
Proof. by intros H ->. Qed.

Lemma lookup_set_ne k k' n (u : JS.counters) : k <> k' -> JS.set k n u !! k' = u !! k'.
Proof.
  intros Hne. unfold JS.set. destruct (decide (k = "__proto__"%string)); [done|].
  by rewrite lookup_insert_ne.
Qed.

Lemma lookup_set_eq k n (u : JS.counters) :
  JS.inherited k = false -> JS.set k n u !! k = Some n.
Proof.
  intros Hk. unfold JS.set. rewrite decide_False by by apply inherited_not_proto.
  apply lookup_insert_eq.
Qed.

Lemma has_set k n (u : JS.counters) : JS.has k (JS.set k n u) = true.
Proof.
  unfold JS.has, JS.set. destruct (decide (k = "__proto__"%string)) as [-> | Hne].
  - by destruct (u !! "__proto__"%string).
  - by rewrite lookup_insert_eq.
Qed.

Lemma get_own k n (u : JS.counters) : u !! k = Some n -> JS.get u k = JS.Own n.
Proof. intros H. unfold JS.get. by rewrite H. Qed.

Lemma get_undefined k (u : JS.counters) :
  JS.inherited k = false -> u !! k = None -> JS.get u k = JS.Undefined.
Proof. intros Hk H. unfold JS.get. by rewrite H, Hk. Qed.

Lemma has_registered k (u : JS.counters) :
  JS.has k u = true -> JS.inherited k = false -> is_Some (u !! k).
Proof.
  unfold JS.has. intros H Hk. destruct (u !! k); [by eexists|]. congruence.
Qed.

Lemma inv_checkQueue q : inv q -> inv (checkQueue q).
Proof.
  intros (Hlock & Hwf & Hrange & Hacc).
  pose proof (checkQueue_spec q Hlock) as H. simpl in H.
  destruct H as (Hh & Hw & Ha & Hl & Hwf' & (Hu & Hrun & Hc & Hp & Hf & Hb & He) & Hstop).
  set (k := Nat.min (slots q) (length (waiting (priorityQueues q)))) in *.
  split_and!; [done | auto | |].
  - intros e. rewrite Hh, Hb, <- app_assoc, elem_of_app. intros [He1 | He1].
    + apply Hrange. apply elem_of_app. by left.
    + apply elem_of_app in He1 as [He1 | He1].
      * apply (lanes_wf_range (priorityQueues q)); [done|].
        by eapply subseteq_take.
      * apply Hrange. apply elem_of_app. by right.
  - intros c Hcaller. rewrite (owed_checkQueue c q Hlock), Hu. by apply Hacc.
Qed.

(** For a caller whose name no object inherits, [getUserQueuedAmt] reads the
    number of its outstanding entries. *)
Lemma amt_owed q c :
  accounted q -> JS.inherited c = false -> getUserQueuedAmt c q = JS.Amount (owed c q).
Proof.
  intros Hacc Hc. unfold getUserQueuedAmt.
  destruct (Hacc c Hc) as [H | [H ->]].
  - by rewrite (get_own _ _ _ H).
  - by rewrite (get_undefined _ _ Hc H).
Qed.

Lemma inv_enqueue_link caller m p l q waiting0 :
  inv q -> JS.has caller (users q) = true -> lane p (priorityQueues q) = Some waiting0 ->
  exists q', enqueue_link caller m p l q = Returned q' /\ inv q' /\
    JS.has caller (users q') = true /\
    forall c, owed c q' = owed c q + (if decide (caller = c) then 1 else 0).
Proof.
  intros (Hlock & Hwf & Hrange & Hacc) Hsome Hlane. unfold enqueue_link. rewrite Hlane.
  set (e := mkEntry l m 0 caller p).
  set (q2 := with_users _ _).
  assert (forall c, owed c q2 = owed c q + (if decide (caller = c) then 1 else 0)) as Ho.
  { intros c. rewrite !owed_eq. unfold q2. simpl.
    rewrite (cnt_waiting_set_lane c p _ waiting0) by done.
    rewrite cnt_app, cnt_cons, cnt_nil. simpl. lia. }
  assert (inv q2) as Hinv2.
  { split_and!; [done | | done |].
    - unfold q2. simpl. apply lanes_wf_set_lane; [done|].
      intros e0. rewrite elem_of_app, list_elem_of_singleton. intros [He0 | ->].
      + by apply (Hwf p waiting0).
      + reflexivity.
    - intros c Hc. rewrite Ho. unfold q2. simpl.
      destruct (decide (caller = c)) as [<- | Hne].
      + rewrite lookup_set_eq by done. left.
        destruct (Hacc caller Hc) as [H | [Hnone _]].
        * by rewrite (get_own _ _ _ H).
        * destruct (has_registered _ _ Hsome Hc) as [v Hv]. congruence.
      + rewrite lookup_set_ne by done. rewrite Z.add_0_r. by apply Hacc. }
  exists (checkQueue q2). split; [done|].
  pose proof (inv_checkQueue q2 Hinv2) as Hinv'.
  destruct (checkQueue_spec q2) as (_ & _ & _ & _ & _ & (Hu & _) & _); [apply Hinv2|].
  split_and!; [done | |].
  - rewrite Hu. unfold q2. simpl. apply has_set.
  - intros c. rewrite <- Ho. apply owed_checkQueue, Hinv2.
Qed.

Lemma inv_addJob_loop caller m p links : forall q waiting0,
  inv q -> JS.has caller (users q) = true -> lane p (priorityQueues q) = Some waiting0 ->
  exists q', addJob_loop caller m p links q = Returned q' /\ inv q' /\
    forall c, owed c q' = owed c q +
                (if decide (caller = c) then Z.of_nat (length links) else 0).
Proof.
  induction links as [|l links IH]; intros q waiting0 Hinv Hsome Hlane.
  - exists q. split_and!; [done | done |]. intros c. simpl. destruct (decide _); lia.
  - destruct (inv_enqueue_link caller m p l q waiting0 Hinv Hsome Hlane)
      as (q1 & Heq & Hinv1 & Hsome1 & Ho1).
    simpl. rewrite Heq.
    assert (exists w1, lane p (priorityQueues q1) = Some w1) as [w1 Hlane1].
    { pose proof (lane_range _ _ _ Hlane) as Hp.
      assert (p = 1 \/ p = 2 \/ p = 3 \/ p = 4 \/ p = 5) as Hc by lia.
      destruct Hc as [-> | [-> | [-> | [-> | ->]]]]; by eexists. }
    destruct (IH q1 w1 Hinv1 Hsome1 Hlane1) as (q' & Heq' & Hinv' & Ho').
    exists q'. split_and!; [done | done |].
    intros c. rewrite Ho', Ho1. destruct (decide _); lia.
Qed.

(** The first statement of [addJob] keeps the books right. *)
Lemma inv_register caller q :
  inv q ->
  let q0 := if JS.has caller (users q) then q
            else with_users (JS.set caller (JS.Num 0) (users q)) q in
  inv q0 /\ JS.has caller (users q0) = true /\ priorityQueues q0 = priorityQueues q /\
  forall c, owed c q0 = owed c q.
Proof.
  intros Hinv. destruct (JS.has caller (users q)) eqn:Hu; simpl.
  - done.
  - destruct Hinv as (Hlock & Hwf & Hrange & Hacc).
    split_and!; [split_and!; try done | | done | done].
    + intros c Hc. change (owed c (with_users _ q)) with (owed c q). simpl.
      destruct (decide (caller = c)) as [<- | Hne].
      * rewrite lookup_set_eq by done. left.
        destruct (Hacc caller Hc) as [H | [_ ->]]; [|done].
        unfold JS.has in Hu. rewrite H in Hu. discriminate.
      * rewrite lookup_set_ne by done. by apply Hacc.
    + simpl. apply has_set.
Qed.

Lemma inv_addJob job m p q :
  inv q -> inv (state_of (addJob job m p q)).
Proof.
  intros Hinv. unfold addJob.
  destruct (inv_register (Job.ip job) q Hinv) as (Hinv0 & Hsome0 & Hpq & _).
  set (q0 := if JS.has (Job.ip job) (users q) then q else _) in *.
  destruct (lane p (priorityQueues q0)) as [w|] eqn:Hlane.
  - destruct (inv_addJob_loop (Job.ip job) m p (Job.getRemainingLinks job) q0 w)
      as (q' & -> & Hinv' & _); done.
  - destruct (Job.getRemainingLinks job) as [|l links]; simpl; [done|].
    unfold enqueue_link. by rewrite Hlane.
Qed.

(** Enqueueing with a priority from 1 to 5 returns, and the number of the
    caller's outstanding entries grew by the number of links. *)
Lemma addJob_owed job m p q :
  inv q -> 1 <= p <= 5 ->
  exists q', addJob job m p q = Returned q' /\
    forall c, owed c q' = owed c q +
                (if decide (Job.ip job = c) then Job.remainingSize job else 0).
Proof.
  intros Hinv Hp. unfold addJob.
  destruct (inv_register (Job.ip job) q Hinv) as (Hinv0 & Hsome0 & Hpq & Ho0).
  set (q0 := if JS.has (Job.ip job) (users q) then q else _) in *.
  assert (exists w, lane p (priorityQueues q0) = Some w) as [w Hlane].
  { assert (p = 1 \/ p = 2 \/ p = 3 \/ p = 4 \/ p = 5) as Hc by lia.
    destruct Hc as [-> | [-> | [-> | [-> | ->]]]]; by eexists. }
  destruct (inv_addJob_loop (Job.ip job) m p (Job.getRemainingLinks job) q0 w)
    as (q' & Heq & Hinv' & Ho'); [done..|].
  exists q'. split; [done|]. intros c. rewrite Ho', Ho0. reflexivity.
Qed.

(** The release touches the caller's own key only. *)
Lemma release_user_other caller c (u : JS.counters) :
  c <> caller -> release_user caller u !! c = u !! c.
Proof.
  intros Hc. unfold release_user. destruct (JS.is_zero _).
  - by rewrite lookup_delete_ne, lookup_set_ne.
  - by rewrite lookup_set_ne.
Qed.

Lemma release_user_lookup caller n (u : JS.counters) :
  JS.inherited caller = false ->
  u !! caller = Some (JS.Num n) ->
  (n = 1 -> release_user caller u !! caller = None) /\
  (n <> 1 -> release_user caller u !! caller = Some (JS.Num (n - 1))).
Proof.
  intros Hc Hu. unfold release_user. rewrite (get_own _ _ _ Hu).
  rewrite (get_own caller (JS.decr (JS.Own (JS.Num n)))) by by apply lookup_set_eq.
  simpl. destruct (n - 1) as [|k|k] eqn:Hk; simpl.
  - split; [|lia]. intros _. apply lookup_delete_eq.
  - split; [lia|]. intros _. by apply lookup_set_eq.
  - split; [lia|]. intros _. by apply lookup_set_eq.
Qed.

(** Releasing one outstanding entry of a caller keeps the books right, and
    removes the caller's key with its last entry. *)
Lemma accounted_release q q' job :
  accounted q -> 1 <= owed (ip job) q ->
  users q' = release_user (ip job) (users q) ->
  (forall c, owed c q' = owed c q - mine c job) ->
  accounted q' /\
  (JS.inherited (ip job) = false -> owed (ip job) q' = 0 -> users q' !! ip job = None).
Proof.
  intros Hacc Hone Hu Ho.
  assert (JS.inherited (ip job) = false ->
          users q !! ip job = Some (JS.Num (owed (ip job) q))) as Hmine.
  { intros Hc. destruct (Hacc (ip job) Hc) as [H | [_ H]]; [done | lia]. }
  assert (owed (ip job) q' = owed (ip job) q - 1) as Ho1.
  { rewrite Ho. unfold mine. by rewrite decide_True. }
  split.
  - intros c Hc. rewrite Hu. destruct (decide (c = ip job)) as [-> | Hne].
    + destruct (release_user_lookup _ _ _ Hc (Hmine Hc)) as (Hlast & Hmore).
      destruct (decide (owed (ip job) q = 1)) as [H1 | H1].
      * right. rewrite Hlast by done. split; [done | lia].
      * left. rewrite Hmore by done. by rewrite Ho1.
    + rewrite release_user_other by done. rewrite Ho. unfold mine.
      rewrite decide_False by done. rewrite Z.sub_0_r. by apply Hacc.
  - intros Hc Hz. rewrite Hu.
    destruct (release_user_lookup _ _ _ Hc (Hmine Hc)) as (Hlast & _). apply Hlast. lia.
Qed.

Lemma owed_handling c q i job :
  handling q !! i = Some job ->
  owed c (with_handling (delete i (handling q)) q) = owed c q - mine c job.
Proof.
  intros Hi. rewrite !owed_eq. simpl. rewrite (cnt_delete c (handling q) i job Hi).
  unfold mine. lia.
Qed.

Lemma owed_handling_pos q i job : handling q !! i = Some job -> 1 <= owed (ip job) q.
Proof.
  intros Hi. rewrite owed_eq, (cnt_delete (ip job) (handling q) i job Hi).
  rewrite decide_True by done.
  pose proof (cnt_nonneg (ip job) (waiting (priorityQueues q))).
  pose proof (cnt_nonneg (ip job) (delete i (handling q))).
  pose proof (cnt_nonneg (ip job) (snd <$> backoff q)). lia.
Qed.

Lemma inv_resolved i delay q q' :
  inv q -> on_resolved i delay q = Some q' ->
  exists job, handling q !! i = Some job /\ inv q' /\
    (forall c, owed c q' = owed c q - mine c job) /\
    users q' = release_user (ip job) (users q) /\
    (JS.inherited (ip job) = false -> owed (ip job) q' = 0 -> users q' !! ip job = None).
Proof.
  intros (Hlock & Hwf & Hrange & Hacc). unfold on_resolved.
  destruct (handling q !! i) as [job|] eqn:Hi; [|discriminate].
  intros [= <-]. exists job. split; [done|].
  set (q' := with_pacing _ _).
  assert (forall c, owed c q' = owed c q - mine c job) as Ho.
  { intros c. rewrite <- (owed_handling c q i job Hi). reflexivity. }
  destruct (accounted_release q q' job Hacc (owed_handling_pos q i job Hi) eq_refl Ho)
    as (Hacc' & Hgone).
  split_and!; try done.
  split_and!; try done.
  intros e He. apply Hrange. simpl in He.
  apply elem_of_app in He as [He | He]; apply elem_of_app; [left | by right].
  by eapply list_elem_of_delete_inv.
Qed.

Lemma count_attempt_ip err job : ip (count_attempt err job) = ip job.
Proof. unfold count_attempt. by destruct (is_NoBotsAvailable err). Qed.

Lemma count_attempt_priority err job : priority (count_attempt err job) = priority job.
Proof. unfold count_attempt. by destruct (is_NoBotsAvailable err). Qed.

Lemma inv_rejected i err q q' :
  inv q -> on_rejected i err q = Some q' ->
  exists job, handling q !! i = Some job /\ inv q' /\
    let job' := count_attempt err job in
    if max_attempts job' <=? attempts job' then
      (forall c, owed c q' = owed c q - mine c job) /\
      users q' = release_user (ip job) (users q) /\
      (JS.inherited (ip job) = false -> owed (ip job) q' = 0 -> users q' !! ip job = None)
    else
      users q' = users q /\ forall c, owed c q' = owed c q.
Proof.
  intros (Hlock & Hwf & Hrange & Hacc). unfold on_rejected.
  destruct (handling q !! i) as [job|] eqn:Hi; [|discriminate].
  set (job' := count_attempt err job).
  assert (forall e, e ∈ delete i (handling q) ++ (snd <$> backoff q) ->
                    1 <= priority e <= 5) as Hrange'.
  { intros e He. apply Hrange.
    apply elem_of_app in He as [He | He]; apply elem_of_app; [left | by right].
    by eapply list_elem_of_delete_inv. }
  assert (mine_eq : forall c, mine c job' = mine c job).
  { intros c. unfold mine, job'. by rewrite count_attempt_ip. }
  destruct (max_attempts job' <=? attempts job') eqn:Hmax; intros [= <-];
    exists job; (split; [done|]); simpl; fold job'; rewrite Hmax.
  - set (q' := with_users _ _).
    assert (forall c, owed c q' = owed c q - mine c job) as Ho.
    { intros c. rewrite <- (owed_handling c q i job Hi). reflexivity. }
    assert (users q' = release_user (ip job) (users q)) as Hu.
    { unfold q', job'. simpl. by rewrite count_attempt_ip. }
    destruct (accounted_release q q' job Hacc (owed_handling_pos q i job Hi) Hu Ho)
      as (Hacc' & Hgone).
    split_and!; try done.
  - set (q' := with_backoff _ _).
    assert (forall c, owed c q' = owed c q) as Ho.
    { intros c. rewrite !owed_eq. unfold q'. simpl.
      rewrite fmap_app, cnt_app. simpl. rewrite cnt_cons, cnt_nil.
      rewrite (cnt_delete c (handling q) i job Hi).
      fold (mine c job'). rewrite mine_eq. unfold mine. lia. }
    split_and!; try done.
    split_and!; try done.
    + intros e. unfold q'. simpl. rewrite fmap_app, app_assoc, elem_of_app. simpl.
      intros [He | He]; [by apply Hrange'|].
      apply list_elem_of_singleton in He as ->. unfold job'.
      rewrite count_attempt_priority. apply Hrange.
      apply elem_of_app. left. by eapply list_elem_of_lookup_2.
    + intros c Hc. rewrite Ho. by apply Hacc.
Qed.

(** Steps that only call [checkQueue] leave the counters alone. *)
Lemma checkQueue_books q :
  inv q -> inv (checkQueue q) /\ users (checkQueue q) = users q /\
           forall c, owed c (checkQueue q) = owed c q.
Proof.
  intros Hinv. pose proof (inv_checkQueue q Hinv) as Hinv'.
  destruct (checkQueue_spec q) as (_ & _ & _ & _ & _ & (Hu & _) & _); [apply Hinv|].
  split_and!; [done | done |]. intros c. apply owed_checkQueue, Hinv.
Qed.

Lemma finally_books q :
  inv q -> inv (finally_ q) /\ users (finally_ q) = users q /\
           forall c, owed c (finally_ q) = owed c q.
Proof.
  intros Hinv. unfold finally_. set (q1 := with_active _ q).
  assert (inv q1) as Hinv1 by exact Hinv.
  destruct (running q1 && (0 <? size q1)); [|done].
  apply (checkQueue_books q1 Hinv1).
Qed.

Lemma inv_paced i q q' :
  inv q -> on_paced i q = Some q' ->
  inv q' /\ users q' = users q /\ forall c, owed c q' = owed c q.
Proof.
  intros Hinv. unfold on_paced. destruct (pacing q !! i); [|discriminate].
  intros [= <-]. apply (finally_books (with_pacing _ q)). exact Hinv.
Qed.

Lemma inv_finish q q' :
  inv q -> on_finish q = Some q' ->
  inv q' /\ users q' = users q /\ forall c, owed c q' = owed c q.
Proof.
  intros Hinv. unfold on_finish. destruct (finishing q); [discriminate|].
  intros [= <-]. apply (finally_books (with_finishing _ q)). exact Hinv.
Qed.

Lemma inv_backoff i q q' :
  inv q -> on_backoff i q = Some q' ->
  inv q' /\ users q' = users q /\ forall c, owed c q' = owed c q.
Proof.
  intros (Hlock & Hwf & Hrange & Hacc). unfold on_backoff.
  destruct (backoff q !! i) as [[delay job]|] eqn:Hi; [|discriminate].
  destruct (lane (priority job) (priorityQueues q)) as [w|] eqn:Hlane; [|discriminate].
  intros [= <-]. set (q1 := with_lanes _ _).
  assert ((snd <$> backoff q) !! i = Some job) as Hi'.
  { by rewrite list_lookup_fmap, Hi. }
  assert (forall c, owed c q1 = owed c q) as Ho.
  { intros c. rewrite !owed_eq. unfold q1. simpl.
    rewrite (cnt_waiting_set_lane c _ _ w) by done. rewrite cnt_cons.
    rewrite (cnt_delete c (snd <$> backoff q) i job Hi').
    rewrite <- list_fmap_delete. lia. }
  assert (inv q1) as Hinv1.
  { split_and!; [done | | |].
    - unfold q1. simpl. apply lanes_wf_set_lane; [done|].
      intros e. rewrite elem_of_cons. intros [-> | He]; [done|].
      by apply (Hwf _ w).
    - intros e He. apply Hrange. unfold q1 in He. simpl in He.
      apply elem_of_app in He as [He | He]; apply elem_of_app; [by left | right].
      rewrite list_fmap_delete in He. by eapply list_elem_of_delete_inv.
    - intros c Hc. rewrite Ho. by apply Hacc. }
  destruct (checkQueue_books q1 Hinv1) as (Hinv' & Hu & Ho').
  split_and!; [done | by rewrite Hu |]. intros c. by rewrite Ho', Ho.
Qed.

Lemma iter_checkQueue_books n q :
  inv q -> inv (Nat.iter n checkQueue q) /\ users (Nat.iter n checkQueue q) = users q /\
           forall c, owed c (Nat.iter n checkQueue q) = owed c q.
Proof.
  intros Hinv. induction n as [|n (IH1 & IH2 & IH3)]; simpl; [done|].
  destruct (checkQueue_books _ IH1) as (H1 & H2 & H3).
  split_and!; [done | congruence |]. intros c. by rewrite H3, IH3.
Qed.

Lemma inv_tick ready q :
  inv q -> inv (on_tick ready q) /\ users (on_tick ready q) = users q /\
           forall c, owed c (on_tick ready q) = owed c q.
Proof.
  intros Hinv. unfold on_tick. destruct (concurrency q <? ready); [|done].
  apply (iter_checkQueue_books _ (with_concurrency ready q)). exact Hinv.
Qed.

Lemma inv_start q :
  inv q -> inv (start q) /\ users (start q) = users q /\ forall c, owed c (start q) = owed c q.
Proof.
  intros Hinv. unfold start. destruct (running q); [done|].
  apply (checkQueue_books (with_running true q)). exact Hinv.
Qed.

Lemma inv_pause q :
  inv q -> inv (pause q) /\ users (pause q) = users q /\ forall c, owed c (pause q) = owed c q.
Proof. intros Hinv. unfold pause. by destruct (running q). Qed.

Lemma inv_init c : inv (init c).
Proof.
  split_and!; try done.
  - intros p l e Hl He.
    destruct p as [|[[|[]|]|[[]|[]|]|]|]; simpl in Hl; try discriminate;
      injection Hl as <-; by apply elem_of_nil in He.
  - intros e He. by apply elem_of_nil in He.
  - intros caller _. right. split; [apply lookup_empty | reflexivity].
Qed.

Lemma inv_fire ev q q' : inv q -> fire ev q = Some q' -> inv q'.
Proof.
  intros Hinv. destruct ev as [job m p | i delay | i err | i | | i | ready | |]; simpl.
  - intros [= <-]. by apply inv_addJob.
  - intros H. by destruct (inv_resolved i delay q q' Hinv H) as (job & _ & ? & _).
  - intros H. by destruct (inv_rejected i err q q' Hinv H) as (job & _ & ? & _).
  - intros H. by destruct (inv_paced i q q' Hinv H).
  - intros H. by destruct (inv_finish q q' Hinv H).
  - intros H. by destruct (inv_backoff i q q' Hinv H).
  - intros [= <-]. by destruct (inv_tick ready q Hinv).
  - intros [= <-]. by destruct (inv_start q Hinv).
  - intros [= <-]. by destruct (inv_pause q Hinv).
Qed.

Lemma inv_run evs : forall q q', inv q -> run evs q = Some q' -> inv q'.
Proof.
  induction evs as [|ev evs IH]; intros q q' Hinv; simpl.
  - by intros [= <-].
  - destruct (fire ev q) as [q1|] eqn:Hf; [|discriminate].
    apply IH. by eapply inv_fire.
Qed.

(** The invariant holds in every state the scheduler reaches. *)
Lemma reachable_inv q : reachable q -> inv q.
Proof. intros (c & evs & Hrun). eapply inv_run; [apply inv_init | exact Hrun]. Qed.

End QueueAccounting.

(** ** Scheduler: the claims *)

Section QueueClaims.

#[local] Open Scope Z_scope.
Import Queue.

Lemma waiting_elem pq e :
  e ∈ waiting pq -> exists p l, lane p pq = Some l /\ e ∈ l.
Proof.
  rewrite waiting_lanes, !elem_of_app. intros [H | [H | [H | [H | H]]]].
  - by exists 1, (lane1 pq).
  - by exists 2, (lane2 pq).
  - by exists 3, (lane3 pq).
  - by exists 4, (lane4 pq).
  - by exists 5, (lane5 pq).
Qed.

(** C1. In every scheduler state with a non-empty lane, the dequeue of
    [checkQueue] scans the priorities 1 to 5 and shifts the head of the first
    non-empty lane: every lane of a smaller number is empty when an entry is
    taken. Repeated dequeues therefore hand out lane 1 front to back, then
    lane 2, and so on (strict priority across lanes, first-in first-out
    inside a lane), and that is the order in which [checkQueue] passes
    entries to the handler. In a reachable state the entry taken carries the
    number of its lane, which no waiting entry undercuts. *)
Theorem C1_dequeue_strict_priority_fifo (q : Queue.t) :
  0 < Queue.size q ->
  exists p job rest,
    Queue.pick (priorityQueues q) = Some (job, set_lane p rest (priorityQueues q)) /\
    1 <= p <= 5 /\
    lane p (priorityQueues q) = Some (job :: rest) /\
    (forall p', 1 <= p' < p -> lane p' (priorityQueues q) = Some []) /\
    (forall n, dequeue_n n (priorityQueues q) =
               take n (lane1 (priorityQueues q) ++ lane2 (priorityQueues q) ++
                       lane3 (priorityQueues q) ++ lane4 (priorityQueues q) ++
                       lane5 (priorityQueues q))) /\
    (processingLock q = false ->
     exists k, handling (checkQueue q) = handling q ++ dequeue_n k (priorityQueues q) /\
               k = Nat.min (slots q) (length (waiting (priorityQueues q)))) /\
    (reachable q ->
     priority job = p /\
     forall e, e ∈ waiting (priorityQueues q) -> priority job <= priority e).
Proof.
  intros Hsize. pose proof (pick_spec (priorityQueues q)) as Hp.
  destruct (pick (priorityQueues q)) as [[job pq']|] eqn:Hpick.
  - destruct Hp as (p & rest & Hrange & Hlane & -> & Hbefore & Hw).
    exists p, job, rest. split_and!; try done; try lia.
    + intros n. by rewrite dequeue_n_take, waiting_lanes.
    + intros Hlock. eexists. split; [|reflexivity].
      rewrite dequeue_n_take. by apply checkQueue_spec.
    + intros Hreach. apply reachable_inv in Hreach as (_ & Hwf & _).
      assert (priority job = p) as Hjob by (apply (Hwf p (job :: rest)); [done | by left]).
      split; [done|]. intros e He.
      destruct (waiting_elem _ _ He) as (p' & l & Hl & Hin).
      rewrite Hjob, (Hwf p' l e Hl Hin).
      destruct (decide (p <= p')) as [|Hlt]; [done|].
      pose proof (lane_range _ _ _ Hl).
      rewrite Hbefore in Hl by lia. injection Hl as <-. by apply elem_of_nil in Hin.
  - unfold size in Hsize. rewrite lanes_size_waiting, Hp in Hsize. simpl in Hsize. lia.
Qed.

Lemma count_attempt_eq err job :
  count_attempt err job =
  mkEntry (data job) (max_attempts job)
          (if is_NoBotsAvailable err then attempts job else attempts job + 1)
          (ip job) (priority job).
Proof. unfold count_attempt. destruct (is_NoBotsAvailable err); by destruct job. Qed.

(** From the first counted attempt on, the backoff is a whole number of
    milliseconds. *)
Lemma backoffDelay_integer n :
  1 <= n -> (backoffDelay n == inject_Z (1000 * 2 ^ (n - 1)))%Q.
Proof.
  intros Hn. unfold backoffDelay. rewrite inject_Z_mult.
  rewrite Zpower_Qpower by lia. reflexivity.
Qed.

(** When the handler's promise of an entry rejects: the attempts counter
    stays as it is for [NoBotsAvailable] and grows by one for any other
    error. If it has then reached [max_attempts], ['job failed'] is emitted
    with the entry and the error, the caller's counter is released
    ([users[ip]--] and the delete at zero; in a reachable state, and for a
    caller whose ip is not the name of a member of [Object.prototype], the
    count [getUserQueuedAmt] reads was at least one and is lowered by one),
    and the entry is in no lane and behind no timer. Otherwise nothing is
    emitted or released, and one timer of 1000 * 2^(attempts - 1) ms is
    armed whose callback puts the entry at the head of the lane of the
    entry's priority before [checkQueue] runs; in a reachable state that
    lane exists. *)
Theorem rejection_retry_policy (q : Queue.t) (i : nat) (job : entry) (err : error) :
  handling q !! i = Some job ->
  let attempts' := if is_NoBotsAvailable err then attempts job else attempts job + 1 in
  let job' := mkEntry (data job) (max_attempts job) attempts' (ip job) (priority job) in
  exists q',
    on_rejected i err q = Some q' /\
    handling q' = delete i (handling q) /\
    priorityQueues q' = priorityQueues q /\
    (max_attempts job <= attempts' ->
       emitted q' = emitted q ++ [(job', err)] /\
       users q' = release_user (ip job) (users q) /\
       backoff q' = backoff q /\
       (reachable q -> JS.inherited (ip job) = false ->
        exists n, 1 <= n /\
          getUserQueuedAmt (ip job) q = JS.Amount n /\
          getUserQueuedAmt (ip job) q' = JS.Amount (n - 1))) /\
    (attempts' < max_attempts job ->
       emitted q' = emitted q /\
       users q' = users q /\
       exists delay,
         backoff q' = backoff q ++ [(delay, job')] /\
         (delay == inject_Z 1000 * inject_Z 2 ^ (attempts' - 1))%Q /\
         (1 <= attempts' -> (delay == inject_Z (1000 * 2 ^ (attempts' - 1)))%Q) /\
         (reachable q -> 1 <= priority job <= 5) /\
         forall q2 k waiting0,
           backoff q2 !! k = Some (delay, job') ->
           lane (priority job) (priorityQueues q2) = Some waiting0 ->
           exists q3,
             on_backoff k q2 = Some (checkQueue q3) /\
             lane (priority job) (priorityQueues q3) = Some (job' :: waiting0) /\
             (forall p, p <> priority job ->
                        lane p (priorityQueues q3) = lane p (priorityQueues q2)) /\
             backoff q3 = delete k (backoff q2)).
Proof.
  intros Hi attempts' job'.
  assert (count_attempt err job = job') as Hjob by apply count_attempt_eq.
  destruct (on_rejected i err q) as [q'|] eqn:Hrej.
  2:{ unfold on_rejected in Hrej. rewrite Hi in Hrej.
      by destruct (max_attempts _ <=? attempts _). }
  exists q'. split; [reflexivity|].
  assert (Hcase := fun Hinv => inv_rejected i err q q' Hinv Hrej).
  unfold on_rejected in Hrej. rewrite Hi, Hjob in Hrej.
  change (max_attempts job') with (max_attempts job) in Hrej.
  change (attempts job') with attempts' in Hrej. change (ip job') with (ip job) in Hrej.
  destruct (max_attempts job <=? attempts') eqn:Hmax; injection Hrej as <-; simpl.
  - apply Z.leb_le in Hmax. split_and!; try done; try lia.
    intros _. split_and!; try done.
    intros Hreach Hplain. apply reachable_inv in Hreach as Hinv.
    destruct (Hcase Hinv) as (job0 & Hi0 & Hinv' & Hc).
    rewrite Hi in Hi0. injection Hi0 as <-. simpl in Hc. rewrite Hjob in Hc.
    change (max_attempts job') with (max_attempts job) in Hc.
    change (attempts job') with attempts' in Hc.
    apply Z.leb_le in Hmax. rewrite Hmax in Hc. destruct Hc as (Ho & _).
    exists (owed (ip job) q). split_and!.
    + by eapply owed_handling_pos.
    + apply amt_owed; [apply Hinv | done].
    + rewrite amt_owed; [| apply Hinv' | done].
      rewrite Ho. unfold mine. by rewrite decide_True.
  - apply Z.leb_gt in Hmax. split_and!; try done; try lia.
    intros _. split_and!; try done.
    exists (backoffDelay attempts'). split_and!; try done.
    + apply backoffDelay_integer.
    + intros Hreach. apply reachable_inv in Hreach as (_ & _ & Hrange & _).
      apply Hrange. apply elem_of_app. left. by eapply list_elem_of_lookup_2.
    + intros q2 k waiting0 Hk Hlane. unfold on_backoff. rewrite Hk.
      change (priority job') with (priority job). rewrite Hlane.
      eexists. split; [reflexivity|]. simpl.
      pose proof (lane_range _ _ _ Hlane) as Hp.
      split_and!; [by apply lane_set_lane_eq | | done].
      intros p Hne. by apply lane_set_lane_ne.
Qed.

(** In every reachable state, and for every caller whose ip is not the name
    of a member of [Object.prototype], [users[ip]] as [getUserQueuedAmt]
    reads it is the number of the caller's outstanding entries: waiting,
    with the handler, or behind a backoff timer. [addJob] raises it by one
    per link enqueued; the handler's success and the rejection that reaches
    [max_attempts] lower it by one and delete the caller's key when the
    count arrives at zero; a rejection that is retried, the retry timer, and
    every other callback leave [users] as it is. *)
Theorem user_count_once_per_entry (q : Queue.t) :
  reachable q ->
  (forall caller, JS.inherited caller = false ->
     getUserQueuedAmt caller q = JS.Amount (owed caller q)) /\
  forall ev q', fire ev q = Some q' ->
    match ev with
    | AddJob job _ p =>
        1 <= p <= 5 ->
        forall caller, JS.inherited caller = false ->
          getUserQueuedAmt caller q' =
          JS.Amount (owed caller q +
                     (if decide (Job.ip job = caller) then Job.remainingSize job else 0))
    | Resolved i _ =>
        exists job, handling q !! i = Some job /\
          users q' = release_user (ip job) (users q) /\
          (forall caller, JS.inherited caller = false ->
             getUserQueuedAmt caller q' =
             JS.Amount (owed caller q - (if decide (ip job = caller) then 1 else 0))) /\
          (JS.inherited (ip job) = false ->
           getUserQueuedAmt (ip job) q' = JS.Amount 0 -> users q' !! ip job = None)
    | Rejected i err =>
        exists job, handling q !! i = Some job /\
          let attempts' := if is_NoBotsAvailable err then attempts job
                           else attempts job + 1 in
          if max_attempts job <=? attempts' then
            users q' = release_user (ip job) (users q) /\
            (forall caller, JS.inherited caller = false ->
               getUserQueuedAmt caller q' =
               JS.Amount (owed caller q - (if decide (ip job = caller) then 1 else 0))) /\
            (JS.inherited (ip job) = false ->
             getUserQueuedAmt (ip job) q' = JS.Amount 0 -> users q' !! ip job = None)
          else users q' = users q
    | Paced _ | Finish | BackoffFired _ | Tick _ | Start | Pause => users q' = users q
    end.
Proof.
  intros Hreach. pose proof (reachable_inv q Hreach) as Hinv.
  assert (Hamt : forall caller, JS.inherited caller = false ->
                   getUserQueuedAmt caller q = JS.Amount (owed caller q)).
  { intros c Hc. apply amt_owed; [apply Hinv | done]. }
  split; [exact Hamt|]. intros ev q' Hfire.
  pose proof (inv_fire ev q q' Hinv Hfire) as Hinv'.
  assert (Hamt' : forall caller, JS.inherited caller = false ->
                    getUserQueuedAmt caller q' = JS.Amount (owed caller q')).
  { intros c Hc. apply amt_owed; [apply Hinv' | done]. }
  destruct ev as [job m p | i delay | i err | i | | i | ready | |]; simpl in Hfire.
  - intros Hp caller Hc. destruct (addJob_owed job m p q Hinv Hp) as (q1 & Heq & Ho).
    rewrite Heq in Hfire. injection Hfire as <-. by rewrite Hamt', Ho.
  - destruct (inv_resolved i delay q q' Hinv Hfire) as (job & Hi & _ & Ho & Hu & Hgone).
    exists job. split_and!; [done | done | |].
    + intros caller Hc. by rewrite Hamt', Ho.
    + intros Hc. rewrite Hamt' by done. intros [= Hz]. by apply Hgone.
  - destruct (inv_rejected i err q q' Hinv Hfire) as (job & Hi & _ & Hcase).
    exists job. split; [done|]. simpl in Hcase. rewrite count_attempt_eq in Hcase.
    simpl in *.
    destruct (max_attempts job <=? _).
    + destruct Hcase as (Ho & Hu & Hgone). split_and!; [done | |].
      * intros caller Hc. by rewrite Hamt', Ho.
      * intros Hc. rewrite Hamt' by done. intros [= Hz]. by apply Hgone.
    + apply Hcase.
  - by destruct (inv_paced i q q' Hinv Hfire) as (_ & ? & _).
  - by destruct (inv_finish q q' Hinv Hfire) as (_ & ? & _).
  - by destruct (inv_backoff i q q' Hinv Hfire) as (_ & ? & _).
  - injection Hfire as <-. by destruct (inv_tick ready q Hinv) as (_ & ? & _).
  - injection Hfire as <-. by destruct (inv_start q Hinv) as (_ & ? & _).
  - injection Hfire as <-. by destruct (inv_pause q Hinv) as (_ & ? & _).
Qed.

(** C2, the caller's count at the give-up. A caller whose address reads
    [toString] has one entry, allowed a single attempt, with the handler.
    [addJob] found ['toString' in this.users] true, so the counter was
    never set to 0 and [users[ip]++] stored NaN. The handler rejects:
    ['job failed'] is emitted, the entry is gone, and [users[ip]--] leaves
    NaN, so [getUserQueuedAmt] reads 0 before the give-up and 0 after it:
    the count was not lowered. *)
Example C2_give_up_leaves_the_count_of_a_prototype_named_caller :
  run [Start; AddJob (Scenario.job_of "toString" "7") 1 4] (init 1)
  = Some Scenario.prototype_caller_in_flight /\
  handling Scenario.prototype_caller_in_flight
  = [mkEntry (Scenario.link_of "7") 1 0 "toString" 4] /\
  on_rejected 0 (OtherError "Request timeout") Scenario.prototype_caller_in_flight
  = Some Scenario.prototype_caller_failed /\
  emitted Scenario.prototype_caller_failed
  = [(mkEntry (Scenario.link_of "7") 1 1 "toString" 4, OtherError "Request timeout")] /\
  outstanding Scenario.prototype_caller_failed = [] /\
  users Scenario.prototype_caller_in_flight !! "toString"%string = Some JS.NaN /\
  users Scenario.prototype_caller_failed !! "toString"%string = Some JS.NaN /\
  getUserQueuedAmt "toString" Scenario.prototype_caller_in_flight = JS.Amount 0 /\
  getUserQueuedAmt "toString" Scenario.prototype_caller_failed = JS.Amount 0.
Proof. split_and!; by vm_compute. Qed.

(** C3, the counter of a caller whose address reads [toString]. Before the
    caller ever enqueued, [getUserQueuedAmt] returns the inherited method,
    not 0. [addJob] skips the initialisation, the increment stores NaN, and
    with one entry outstanding the count reads 0. When the handler resolves
    the entry, the decrement stores NaN again, which is not [=== 0]: the key
    stays in [users] for good. *)
Example C3_prototype_named_caller_is_not_counted :
  getUserQueuedAmt "toString" (init 1) = JS.PrototypeMember /\
  JS.has "toString" (users (init 1)) = true /\
  run [Start; AddJob (Scenario.job_of "toString" "7") 1 4] (init 1)
  = Some Scenario.prototype_caller_in_flight /\
  owed "toString" Scenario.prototype_caller_in_flight = 1 /\
  users Scenario.prototype_caller_in_flight !! "toString"%string = Some JS.NaN /\
  getUserQueuedAmt "toString" Scenario.prototype_caller_in_flight = JS.Amount 0 /\
  exists q',
    on_resolved 0 None Scenario.prototype_caller_in_flight = Some q' /\
    owed "toString" q' = 0 /\
    users q' !! "toString"%string = Some JS.NaN.
Proof.
  split_and!; try by vm_compute.
  eexists. split_and!; [reflexivity | by vm_compute | by vm_compute].
Qed.

(** The three waiting entries leave in the order of their lanes once a bot
    is ready: asset 3 (priority 1), asset 2 (priority 3), asset 1
    (priority 5). *)
Example three_waiting_order :
  InspectURL.a ∘ Job.link ∘ data <$> dequeue_n 3 (priorityQueues Scenario.three_waiting)
  = ["3"; "2"; "1"]%string.
Proof. reflexivity. Qed.

Lemma C1_dequeue_strict_priority_fifo_witness :
  0 < Queue.size Scenario.three_waiting /\
  exists p job rest,
    Queue.pick (priorityQueues Scenario.three_waiting)
    = Some (job, set_lane p rest (priorityQueues Scenario.three_waiting)) /\
    1 <= p <= 5 /\
    lane p (priorityQueues Scenario.three_waiting) = Some (job :: rest).
Proof.
  split; [reflexivity|].
  destruct (C1_dequeue_strict_priority_fifo Scenario.three_waiting eq_refl)
    as (p & job & rest & H1 & H2 & H3 & _).
  exists p, job, rest. auto.
Defined.

Lemma rejection_retry_policy_witness :
  handling Scenario.one_in_flight !! 0%nat = Some Scenario.in_flight_entry /\
  exists q',
    on_rejected 0 (OtherError "Request timeout") Scenario.one_in_flight = Some q' /\
    handling q' = [] /\
    priorityQueues q' = priorityQueues Scenario.one_in_flight.
Proof.
  split; [reflexivity|].
  destruct (rejection_retry_policy Scenario.one_in_flight 0
              Scenario.in_flight_entry (OtherError "Request timeout") eq_refl)
    as (q' & H1 & H2 & H3 & _).
  exists q'. auto.
Defined.

Lemma user_count_once_per_entry_witness :
  reachable Scenario.one_in_flight /\
  getUserQueuedAmt "9.9.9.9" Scenario.one_in_flight
  = JS.Amount (owed "9.9.9.9" Scenario.one_in_flight).
Proof.
  assert (reachable Scenario.one_in_flight) as Hreach.
  { exists 1, [Start; AddJob (Scenario.job_of "9.9.9.9" "7") 3 4]. reflexivity. }
  split; [exact Hreach|].
  by apply (user_count_once_per_entry Scenario.one_in_flight Hreach).
Defined.

End QueueClaims.

(** ** Insertion-ordered maps *)

Section JSMapFacts.

Context {K V : Type} `{EqDecision K}.

Implicit Types (m : JSMap.t K V) (k : K) (v : V).

Lemma jsmap_keys_set k v m :
  JSMap.keys (JSMap.set k v m) =
  if decide (k ∈ JSMap.keys m) then JSMap.keys m else JSMap.keys m ++ [k].
Proof.
  induction m as [|[k' v'] m IH].
  - rewrite decide_False by apply not_elem_of_nil. reflexivity.
  - change (JSMap.set k v ((k', v') :: m))
      with (if decide (k' = k) then (k, v) :: m else (k', v') :: JSMap.set k v m).
    change (JSMap.keys ((k', v') :: m)) with (k' :: JSMap.keys m).
    destruct (decide (k' = k)) as [-> | Hne].
    + rewrite decide_True by left. reflexivity.
    + change (JSMap.keys ((k', v') :: JSMap.set k v m))
        with (k' :: JSMap.keys (JSMap.set k v m)).
      rewrite IH. destruct (decide (k ∈ JSMap.keys m)) as [Hin | Hnin].
      * rewrite decide_True by by right. reflexivity.
      * rewrite decide_False; [done|].
        intros Hin. apply elem_of_cons in Hin as [-> | Hin]; done.
Qed.

Lemma jsmap_get_set_eq k v m : JSMap.get k (JSMap.set k v m) = Some v.
Proof.
  induction m as [|[k' v'] m IH]; simpl.
  - by rewrite decide_True.
  - destruct (decide (k' = k)) as [-> | Hne]; simpl.
    + by rewrite decide_True.
    + by rewrite decide_False.
Qed.

Lemma jsmap_get_set_ne k k' v m :
  k <> k' -> JSMap.get k' (JSMap.set k v m) = JSMap.get k' m.
Proof.
  intros Hne. induction m as [|[k0 v0] m IH]; simpl.
  - by rewrite decide_False.
  - destruct (decide (k0 = k)) as [-> | Hne0]; simpl.
    + by rewrite !decide_False.
    + by rewrite IH.
Qed.

Lemma jsmap_get_none k m : JSMap.get k m = None <-> k ∉ JSMap.keys m.
Proof.
  induction m as [|[k' v'] m IH]; simpl.
  - split; [intros _; apply not_elem_of_nil | done].
  - destruct (decide (k' = k)) as [-> | Hne].
    + split; [done|]. intros Hnin. exfalso. apply Hnin. left.
    + rewrite IH. unfold JSMap.keys. simpl. rewrite not_elem_of_cons.
      split; [intros Hk; split; [congruence | exact Hk] | intros [_ Hk]; exact Hk].
Qed.

Lemma jsmap_remove_first k v m : JSMap.remove k ((k, v) :: m) = m.
Proof. simpl. by rewrite decide_True. Qed.

Lemma jsmap_nodup_set k v m : NoDup (JSMap.keys m) -> NoDup (JSMap.keys (JSMap.set k v m)).
Proof.
  intros Hnd. rewrite jsmap_keys_set. destruct (decide (k ∈ JSMap.keys m)); [done|].
  apply NoDup_app. split_and!; [done | | apply NoDup_singleton].
  intros k' Hin Hk. apply list_elem_of_singleton in Hk as ->. done.
Qed.

Lemma jsmap_size_set k v m :
  JSMap.size (JSMap.set k v m) =
  (if decide (k ∈ JSMap.keys m) then JSMap.size m else JSMap.size m + 1)%Z.
Proof.
  unfold JSMap.size.
  assert (forall m', length m' = length (JSMap.keys m')) as Hlen
    by (intros m'; unfold JSMap.keys; by rewrite length_fmap).
  rewrite (Hlen (JSMap.set k v m)), (Hlen m), jsmap_keys_set.
  destruct (decide (k ∈ JSMap.keys m)); [done|]. rewrite length_app. simpl. lia.
Qed.

End JSMapFacts.

(** ** The bounded cache *)

Section BoundedCacheFacts.

#[local] Open Scope Z_scope.
Import BoundedCache.

Context {Item : Type} (asset : Item -> string).

Implicit Types (c : BoundedCache.t (Item := Item)).

Lemma evict_below c : JSMap.size (cache c) < maxEntries c -> evict c = cache c.
Proof.
  intros Hlt. unfold evict.
  destruct (maxEntries c <=? JSMap.size (cache c)) eqn:Hle; [|done].
  apply Z.leb_le in Hle. lia.
Qed.

Lemma evict_full c :
  1 <= maxEntries c -> maxEntries c <= JSMap.size (cache c) ->
  exists oldest e rest, cache c = (oldest, e) :: rest /\ evict c = rest.
Proof.
  intros Hone Hfull. unfold evict.
  apply Z.leb_le in Hfull as Hle. rewrite Hle.
  destruct (cache c) as [|[oldest e] rest] eqn:Hc.
  - unfold JSMap.size in Hfull. simpl in Hfull. lia.
  - exists oldest, e, rest. split; [done|].
    unfold JSMap.first_key. simpl. by rewrite decide_True.
Qed.

Lemma cache_ok_insert it p now c :
  1 <= maxEntries c -> cache_ok c -> cache_ok (insertItemData asset it p now c).
Proof.
  intros Hone [Hnd Hsize]. unfold cache_ok, insertItemData. simpl.
  destruct (decide (JSMap.size (cache c) < maxEntries c)) as [Hlt | Hge].
  - rewrite (evict_below c Hlt). split; [by apply jsmap_nodup_set|].
    rewrite jsmap_size_set. destruct (decide _); lia.
  - destruct (evict_full c Hone) as (oldest & e & rest & Hc & ->); [lia|].
    rewrite Hc in Hnd, Hsize. unfold JSMap.keys in Hnd. simpl in Hnd.
    apply NoDup_cons in Hnd as [_ Hnd].
    split; [by apply jsmap_nodup_set|].
    rewrite jsmap_size_set. unfold JSMap.size in *. simpl in Hsize.
    destruct (decide _); lia.
Qed.

Lemma jsmap_set_present (k : string) (v : cached (Item := Item))
    (m : JSMap.t string cached) :
  k ∈ JSMap.keys m -> JSMap.keys (JSMap.set k v m) = JSMap.keys m.
Proof. intros Hin. rewrite jsmap_keys_set. by rewrite decide_True. Qed.

Lemma cache_ok_update assetId p c : cache_ok c -> cache_ok (updateItemPrice assetId p c).
Proof.
  intros [Hnd Hsize]. unfold updateItemPrice.
  destruct (JSMap.get assetId (cache c)) as [e|] eqn:Hget; [|done].
  assert (assetId ∈ JSMap.keys (cache c)) as Hin.
  { destruct (decide (assetId ∈ JSMap.keys (cache c))) as [|Hnin]; [done|].
    apply jsmap_get_none in Hnin. congruence. }
  unfold cache_ok. simpl. split.
  - by rewrite jsmap_set_present.
  - rewrite jsmap_size_set. by rewrite decide_True.
Qed.

Lemma cache_ok_cleanup now c : cache_ok c -> cache_ok (cleanup now c).
Proof.
  intros [Hnd Hsize]. unfold cache_ok, cleanup. simpl. split.
  - unfold JSMap.keys in *. eapply sublist_NoDup; [exact Hnd|].
    apply fmap_sublist, sublist_filter.
  - unfold JSMap.size in *.
    etrans; [|exact Hsize]. apply Nat2Z.inj_le, length_filter.
Qed.

Lemma cache_ok_after mx ops :
  1 <= maxEntries (after asset mx ops) -> cache_ok (after asset mx ops).
Proof.
  unfold after. induction ops as [|o ops IH] using rev_ind; intros Hone.
  - split; [apply NoDup_nil_2|]. unfold JSMap.size. simpl in *. lia.
  - rewrite foldl_app in *. simpl in *.
    assert (maxEntries (apply asset (foldl (apply asset) (create mx) ops) o)
            = maxEntries (foldl (apply asset) (create mx) ops)) as Hmax.
    { destruct o; simpl; try done. unfold updateItemPrice.
      by destruct (JSMap.get _ _). }
    rewrite Hmax in Hone. specialize (IH Hone).
    destruct o as [it p now | assetId p | now]; simpl.
    + by apply cache_ok_insert.
    + by apply cache_ok_update.
    + by apply cache_ok_cleanup.
Qed.

Lemma insert_full it p now c :
  cache_ok c -> 1 <= maxEntries c -> JSMap.size (cache c) = maxEntries c ->
  exists oldest rest,
    JSMap.keys (cache c) = oldest :: rest /\
    JSMap.keys (cache (insertItemData asset it p now c))
    = (if decide (asset it ∈ rest) then rest else rest ++ [asset it]) /\
    (oldest <> asset it -> JSMap.get oldest (cache (insertItemData asset it p now c)) = None).
Proof.
  intros [Hnd Hsize] Hone Hfull.
  destruct (evict_full c Hone) as (oldest & e & rest & Hc & Hev); [lia|].
  exists oldest, (JSMap.keys rest). unfold insertItemData. simpl. rewrite Hev.
  rewrite Hc in Hnd. unfold JSMap.keys in Hnd. simpl in Hnd.
  apply NoDup_cons in Hnd as [Hnin Hnd].
  split_and!.
  - by rewrite Hc.
  - apply jsmap_keys_set.
  - intros Hne. rewrite jsmap_get_set_ne by done. by apply jsmap_get_none.
Qed.

(** A run of inserts of new assets into a full cache pushes out the keys at
    the front, one per insert. *)
Lemma insert_all_fresh news : forall c,
  cache_ok c -> 1 <= maxEntries c -> JSMap.size (cache c) = maxEntries c ->
  NoDup (assets asset news) ->
  (forall k, k ∈ assets asset news -> k ∉ JSMap.keys (cache c)) ->
  JSMap.keys (cache (insert_all asset news c))
  = drop (length news) (JSMap.keys (cache c) ++ assets asset news).
Proof.
  induction news as [|[[it p] now] news IH]; intros c Hok Hone Hfull Hnd Hfresh.
  - simpl. by rewrite app_nil_r.
  - unfold assets in Hnd. simpl in Hnd. apply NoDup_cons in Hnd as [Hnin Hnd].
    destruct (insert_full it p now c Hok Hone Hfull) as (oldest & rest & Hk & Hk' & _).
    assert (asset it ∉ rest) as Hfresh_it.
    { intros Hin. apply (Hfresh (asset it)); [left|]. rewrite Hk. by right. }
    rewrite decide_False in Hk' by done.
    set (c1 := insertItemData asset it p now c) in *.
    assert (cache_ok c1) as Hok1 by by apply cache_ok_insert.
    assert (maxEntries c1 = maxEntries c) as Hmax1 by reflexivity.
    assert (JSMap.size (cache c1) = maxEntries c1) as Hfull1.
    { rewrite Hmax1, <- Hfull. unfold JSMap.size.
      assert (forall m : JSMap.t string (cached (Item := Item)),
                 length m = length (JSMap.keys m)) as Hlen
        by (intros m'; unfold JSMap.keys; by rewrite length_fmap).
      rewrite !Hlen, Hk', Hk, length_app. simpl. lia. }
    change (insert_all asset ((it, p, now) :: news) c) with (insert_all asset news c1).
    rewrite (IH c1 Hok1); [| lia | done | done |].
    + rewrite Hk', Hk. simpl. by rewrite <- app_assoc.
    + intros k Hin. rewrite Hk', not_elem_of_app. split.
      * intros Hrest. apply (Hfresh k); [by right|]. rewrite Hk. by right.
      * intros Hk1. apply list_elem_of_singleton in Hk1 as ->. done.
Qed.

End BoundedCacheFacts.

(** C4 (as amended). With [maxEntries] at least 1 (2000 when the constructor
    gets no argument), the cache holds at most [maxEntries] entries after
    every [insertItemData] of any history of calls. An insert into a cache
    that holds [maxEntries] entries first deletes the key at the front of the
    map's iteration order, then writes: the written key keeps its place if
    it is still there and goes to the end otherwise. So a run of N inserts of
    assets that are new to a full cache removes its front keys in order, one
    per insert. *)
Theorem C4_bounded_cache_evicts_front_key {Item : Type} (asset : Item -> string)
    (mx : option Z) (ops : list (BoundedCache.op (Item := Item)))
    (it : Item) (p : option Z) (now : Z) :
  let c := BoundedCache.after asset mx ops in
  let c' := BoundedCache.insertItemData asset it p now c in
  (1 <= BoundedCache.maxEntries c)%Z ->
  BoundedCache.maxEntries (BoundedCache.create (Item := Item) None) = 2000%Z /\
  (JSMap.size (BoundedCache.cache c') <= BoundedCache.maxEntries c')%Z /\
  (JSMap.size (BoundedCache.cache c) = BoundedCache.maxEntries c ->
   (exists oldest rest,
      JSMap.keys (BoundedCache.cache c) = oldest :: rest /\
      JSMap.keys (BoundedCache.cache c')
      = (if decide (asset it ∈ rest) then rest else rest ++ [asset it]) /\
      (oldest <> asset it -> JSMap.get oldest (BoundedCache.cache c') = None)) /\
   forall news : list (Item * option Z * Z),
     NoDup (BoundedCache.assets asset news) ->
     (forall k, k ∈ BoundedCache.assets asset news -> k ∉ JSMap.keys (BoundedCache.cache c)) ->
     JSMap.keys (BoundedCache.cache (BoundedCache.insert_all asset news c))
     = drop (length news) (JSMap.keys (BoundedCache.cache c) ++ BoundedCache.assets asset news)).
Proof.
  intros c c' Hone.
  pose proof (cache_ok_after asset mx ops Hone) as Hok. fold c in Hok.
  split_and!.
  - reflexivity.
  - apply (cache_ok_insert asset it p now c Hone Hok).
  - intros Hfull. split.
    + by apply insert_full.
    + intros news Hnd Hfresh. by apply insert_all_fresh.
Qed.

Lemma C4_bounded_cache_evicts_front_key_witness :
  (1 <= BoundedCache.maxEntries
          (BoundedCache.after (fun x : string => x) (Some 3%Z)
             [BoundedCache.Insert "A" None 1; BoundedCache.Insert "B" None 2;
              BoundedCache.Insert "C" None 3]%Z))%Z /\
  (JSMap.size
     (BoundedCache.cache
        (BoundedCache.insertItemData (fun x : string => x) "D"%string None 4%Z
           (BoundedCache.after (fun x : string => x) (Some 3%Z)
              [BoundedCache.Insert "A" None 1; BoundedCache.Insert "B" None 2;
               BoundedCache.Insert "C" None 3]%Z)))
   <= 3)%Z.
Proof.
  split; [by vm_compute|].
  apply (C4_bounded_cache_evicts_front_key (fun x : string => x) (Some 3%Z)
           [BoundedCache.Insert "A"%string None 1%Z; BoundedCache.Insert "B"%string None 2%Z;
            BoundedCache.Insert "C"%string None 3%Z] "D"%string None 4%Z).
  by vm_compute.
Defined.

(** Against C4 as stated. With [maxEntries] 3, the asset A is inserted at
    time 1, B at 2, A again at 3 and C at 4; the entry written longest ago is
    then B's. Inserting D at time 5 evicts A, written at 3, and keeps B. And
    with [maxEntries] 0 one insert leaves one entry. *)
Lemma C4_eviction_is_not_by_insertion_time :
  let c := BoundedCache.after (fun x : string => x) (Some 3%Z)
             [BoundedCache.Insert "A" None 1; BoundedCache.Insert "B" None 2;
              BoundedCache.Insert "A" None 3; BoundedCache.Insert "C" None 4]%Z in
  let c' := BoundedCache.insertItemData (fun x : string => x) "D"%string None 5%Z c in
  JSMap.size (BoundedCache.cache c) = BoundedCache.maxEntries c /\
  BoundedCache.oldest_written (BoundedCache.cache c) = Some ("B"%string, 2%Z) /\
  BoundedCache.timestamp <$> JSMap.get "A"%string (BoundedCache.cache c) = Some 3%Z /\
  JSMap.keys (BoundedCache.cache c') = ["B"; "C"; "D"]%string /\
  JSMap.size
    (BoundedCache.cache
       (BoundedCache.insertItemData (fun x : string => x) "A"%string None 1%Z
          (BoundedCache.create (Some 0%Z)))) = 1%Z.
Proof. vm_compute. repeat split. Qed.

(** ** The result cache of [lib/memory_cache.js] *)

Section MemoryCacheFacts.

Import MemoryCache.

Context {Item : Type}.

Implicit Types (c : MemoryCache.t (Item := Item)).

(** With every link readable the loop runs to its end. *)
Lemma collect_readable c ls : forall acc,
  (forall l, l ∈ ls -> is_Some (params_of l)) ->
  collect c ls acc = Resolved (acc ++ omap (hit c) ls).
Proof.
  induction ls as [|l ls IH]; intros acc Hall; simpl.
  - by rewrite app_nil_r.
  - destruct (Hall l) as [p Hp]; [by left|].
    unfold hit at 1. rewrite Hp. simpl.
    rewrite IH by (intros l' Hl'; apply Hall; by right).
    destruct (JSMap.get (generateKey p) c); simpl; [|done].
    by rewrite <- app_assoc.
Qed.

(** One link that cannot be read ends the call, whatever was found before
    it. *)
Lemma collect_unreadable c ls : forall acc,
  (exists l, l ∈ ls /\ params_of l = None) -> collect c ls acc = Threw.
Proof.
  induction ls as [|l0 ls IH]; intros acc (l & Hl & Hnone).
  - by apply elem_of_nil in Hl.
  - simpl. destruct (params_of l0) as [p|] eqn:Hp; [|done].
    apply IH. exists l. split; [|done].
    apply elem_of_cons in Hl as [-> | Hl]; [congruence | done].
Qed.

(** The loop reads the items of the cache only. *)
Lemma collect_ext (c1 c2 : MemoryCache.t (Item := Item)) ls :
  (forall k, item <$> JSMap.get k c1 = item <$> JSMap.get k c2) ->
  forall acc, collect c1 ls acc = collect c2 ls acc.
Proof.
  intros Heq. induction ls as [|l ls IH]; intros acc; simpl; [done|].
  destruct (params_of l) as [p|]; [|done].
  specialize (Heq (generateKey p)).
  destruct (JSMap.get (generateKey p) c1), (JSMap.get (generateKey p) c2);
    simpl in Heq; try discriminate; [|done].
  injection Heq as ->. apply IH.
Qed.

Lemma omap_length {A B} (f : A -> option B) (l : list A) :
  (length (omap f l) <= length l)%nat.
Proof.
  induction l as [|x l IH]; [done|].
  change (omap f (x :: l)) with (match f x with Some y => y :: omap f l | None => omap f l end).
  destruct (f x); simpl; lia.
Qed.

End MemoryCacheFacts.

(** C10, against the lookup never failing: an array that holds [null]
    makes [getItemData] raise, also when a link before it was found in the
    cache. *)
Lemma C10_getItemData_throws_on_a_null_link :
  MemoryCache.getItemData (MemoryCache.Links [MemoryCache.Nullish])
    ([] : MemoryCache.t (Item := string))
  = MemoryCache.Threw /\
  MemoryCache.getItemData
    (MemoryCache.Links [MemoryCache.Plain (InspectURL.mkParams "1" "10" "11" "0");
                        MemoryCache.Nullish])
    (MemoryCache.insertItemData (fun _ : string => InspectURL.mkParams "1" "10" "11" "0")
       "item 10"%string None 0%Z [])
  = MemoryCache.Threw.
Proof. split; reflexivity. Qed.

(** C10 (as amended). For an argument that is not an array [getItemData]
    resolves to the empty list. For an array whose elements can all be read
    it resolves to a list that holds, in the order of the links, the cached
    item of every link whose key is in the cache and nothing for a link
    whose key is not: no entry stands for an absent key, the list is never
    longer than the array, and it is empty when no key is cached. For an
    array that holds an element that cannot be read ([null], [undefined],
    or a link whose [getParams] raises or returns [null] or [undefined]) it
    raises a TypeError, and no promise is returned. *)
Theorem C10_getItemData_skips_absent_keys {Item : Type}
    (c : MemoryCache.t (Item := Item)) :
  MemoryCache.getItemData MemoryCache.NotAnArray c = MemoryCache.Resolved [] /\
  forall ls : list MemoryCache.link,
    ((forall l, l ∈ ls -> is_Some (MemoryCache.params_of l)) ->
     MemoryCache.getItemData (MemoryCache.Links ls) c
     = MemoryCache.Resolved (omap (MemoryCache.hit c) ls) /\
     (length (omap (MemoryCache.hit c) ls) <= length ls)%nat /\
     (forall x, x ∈ omap (MemoryCache.hit c) ls <->
                exists l p e, l ∈ ls /\ MemoryCache.params_of l = Some p /\
                  JSMap.get (MemoryCache.generateKey p) c = Some e /\
                  x = MemoryCache.item e)) /\
    ((exists l, l ∈ ls /\ MemoryCache.params_of l = None) ->
     MemoryCache.getItemData (MemoryCache.Links ls) c = MemoryCache.Threw).
Proof.
  split; [reflexivity|]. intros ls. split.
  - intros Hall. split_and!.
    + unfold MemoryCache.getItemData. by rewrite collect_readable.
    + apply omap_length.
    + intros x. rewrite list_elem_of_omap. unfold MemoryCache.hit. split.
      * intros (l & Hl & Hx). destruct (MemoryCache.params_of l) as [p|] eqn:Hp; [|done].
        destruct (JSMap.get _ c) as [e|] eqn:He; [|discriminate].
        injection Hx as <-. by exists l, p, e.
      * intros (l & p & e & Hl & Hp & He & ->). exists l. by rewrite Hp, He.
  - intros Hbad. unfold MemoryCache.getItemData. by apply collect_unreadable.
Qed.

(** A cache that holds asset 10 is asked for asset 10 as a plain object, for
    asset 20, and for asset 10 as an [InspectURL]. *)
Lemma C10_getItemData_skips_absent_keys_witness :
  MemoryCache.getItemData
    (MemoryCache.Links [MemoryCache.Plain (InspectURL.mkParams "1" "10" "11" "0");
                        MemoryCache.Plain (InspectURL.mkParams "1" "20" "11" "0");
                        MemoryCache.LinkObject (InspectURL.mkParams "1" "10" "11" "0")])
    (MemoryCache.insertItemData (fun _ : string => InspectURL.mkParams "1" "10" "11" "0")
       "item 10"%string None 0%Z [])
  = MemoryCache.Resolved ["item 10"; "item 10"]%string.
Proof.
  destruct (C10_getItemData_skips_absent_keys
              (MemoryCache.insertItemData
                 (fun _ : string => InspectURL.mkParams "1" "10" "11" "0")
                 "item 10"%string None 0%Z [])) as (_ & H).
  destruct (H [MemoryCache.Plain (InspectURL.mkParams "1" "10" "11" "0");
               MemoryCache.Plain (InspectURL.mkParams "1" "20" "11" "0");
               MemoryCache.LinkObject (InspectURL.mkParams "1" "10" "11" "0")])
    as (Hok & _).
  destruct Hok as (Heq & _).
  - intros l Hl. repeat (apply elem_of_cons in Hl as [-> | Hl]; [by eexists|]).
    by apply elem_of_nil in Hl.
  - exact Heq.
Defined.

(** ** The bot's dispatcher: one inspect at a time *)

Section BotFacts.

#[local] Open Scope Z_scope.
Import Bot.

Lemma outstanding_unsettled b : outstanding b = unsettled (settled b) (sent b).
Proof. reflexivity. Qed.

Lemma unsettled_more st new l :
  unsettled (st ++ new) l = filter (fun req => promise req ∉ new.*1) (unsettled st l).
Proof.
  unfold unsettled. induction l as [|r l IH]; [done|].
  rewrite !filter_cons, IH.
  destruct (decide (promise r ∉ (st ++ new).*1)) as [Hn | Hy].
  - rewrite fmap_app, not_elem_of_app in Hn. destruct Hn as [Hst Hnew].
    rewrite decide_True by done. rewrite filter_cons. by rewrite decide_True.
  - destruct (decide (promise r ∉ st.*1)) as [Hst | Hst]; [|done].
    rewrite filter_cons. rewrite decide_False; [done|].
    intros Hnew. apply Hy. rewrite fmap_app, not_elem_of_app. done.
Qed.

Lemma unsettled_others st new l :
  (forall r, r ∈ l -> promise r ∉ new.*1) -> unsettled (st ++ new) l = unsettled st l.
Proof.
  intros Hall. rewrite unsettled_more.
  assert (forall r, r ∈ unsettled st l -> promise r ∉ new.*1) as Hsub.
  { intros r Hr. apply Hall. unfold unsettled in Hr.
    by apply list_elem_of_filter in Hr as [_ Hr]. }
  induction (unsettled st l) as [|r u IH]; [done|].
  rewrite filter_cons, decide_True by (apply Hsub; left).
  f_equal. apply IH. intros r' Hr'. apply Hsub. by right.
Qed.

Lemma unsettled_settle st l r x :
  unsettled st l = [r] -> unsettled (st ++ [(promise r, x)]) l = [].
Proof.
  intros Hone. rewrite unsettled_more, Hone, filter_cons.
  rewrite decide_False; [done|]. intros Hn. apply Hn. simpl. left.
Qed.

Lemma unsettled_snoc st l r :
  unsettled st (l ++ [r]) = unsettled st l ++ (if decide (promise r ∉ st.*1) then [r] else []).
Proof.
  unfold unsettled. rewrite filter_app, filter_cons.
  by destruct (decide (promise r ∉ st.*1)).
Qed.

Lemma bot_inv_init cfg : bot_inv (init cfg).
Proof.
  unfold bot_inv, fresh, init. simpl.
  repeat split; try done; try apply NoDup_nil_2;
    try (intros r0 Hr0; by apply elem_of_nil in Hr0);
    exfalso; by eapply elem_of_nil.
Qed.

(** [clear_ttl] leaves everything but the TTL timer alone, and no armed
    timer behind when the armed one is the one the field holds. *)
Lemma clear_ttl_fields b :
  let b' := clear_ttl b in
  config b' = config b /\ busy b' = busy b /\ ready b' = ready b /\
  isShuttingDown b' = isShuttingDown b /\ requestQueue b' = requestQueue b /\
  activeRequests b' = activeRequests b /\ lastRequestTime b' = lastRequestTime b /\
  resolve b' = resolve b /\ currentRequest b' = currentRequest b /\
  delay_timers b' = delay_timers b /\ next_promise b' = next_promise b /\
  sent b' = sent b /\ settled b' = settled b.
Proof. unfold clear_ttl. destruct (ttlTimeout b); simpl; by split_and!. Qed.

Lemma clear_ttl_armed b :
  ((ttl_armed b = [] \/ exists h, ttl_armed b = [h] /\ ttlTimeout b = Some h)) ->
  ttl_armed (clear_ttl b) = [] /\
  (ttlTimeout (clear_ttl b) = None \/ ttl_armed b = []).
Proof.
  unfold clear_ttl. intros [Hnil | (h & Hh & Ht)].
  - destruct (ttlTimeout b); simpl; rewrite Hnil; auto.
  - rewrite Ht. simpl. rewrite Hh, filter_cons. rewrite decide_False by (intros Hne; by apply Hne).
    auto.
Qed.

Lemma bot_inv_ready v b : bot_inv b -> bot_inv (with_ready v b).
Proof. intros Hinv. exact Hinv. Qed.

Lemma not_elem_of_lt (p : nat) (l : list nat) :
  (forall x, x ∈ l -> (x < p)%nat) -> p ∉ l.
Proof. intros Hall Hin. specialize (Hall p Hin). lia. Qed.

Lemma bot_inv_reject_new msg b :
  bot_inv b ->
  bot_inv (with_settled (settled b ++ [(next_promise b, Rejected msg)])
             (with_next_promise (S (next_promise b)) b)).
Proof.
  intros (Hres & Hcur & Hnd & Hq & Hs & Hst).
  assert (unsettled (settled b ++ [(next_promise b, Rejected msg)]) (sent b)
          = unsettled (settled b) (sent b)) as Hout.
  { apply unsettled_others. intros r Hr. simpl. rewrite list_elem_of_singleton.
    specialize (Hs r Hr). lia. }
  unfold bot_inv, fresh. split_and!; [done | | done | | |].
  - destruct (currentRequest b) as [r|] eqn:Hc; simpl; rewrite Hc.
    + destruct Hcur as (? & ? & ? & ?). split_and!; try done.
      rewrite outstanding_unsettled. simpl. by rewrite Hout.
    + destruct Hcur as (? & ? & ?). split_and!; try done.
      rewrite outstanding_unsettled. simpl. by rewrite Hout.
  - intros r Hr. destruct (Hq r Hr) as (H1 & H2 & H3). simpl. split_and!; [done | | lia].
    rewrite fmap_app, not_elem_of_app. split; [done|]. simpl.
    rewrite list_elem_of_singleton. lia.
  - intros r Hr. specialize (Hs r Hr). simpl. lia.
  - intros p. simpl. rewrite fmap_app, elem_of_app. simpl.
    rewrite list_elem_of_singleton. intros [Hp | ->]; [|lia]. specialize (Hst p Hp). lia.
Qed.

Lemma bot_inv_send link now b : bot_inv b -> bot_inv (sendFloatRequest link now b).
Proof.
  intros Hinv. unfold sendFloatRequest. simpl.
  destruct (isShuttingDown b); [by apply bot_inv_reject_new|].
  destruct (ready b); simpl; [|by apply bot_inv_reject_new].
  destruct Hinv as (Hres & Hcur & Hnd & Hq & Hs & Hst).
  unfold bot_inv, fresh. split_and!; [done | done | | | |]; simpl.
  - rewrite fmap_app. apply NoDup_app. split_and!; [done | | apply NoDup_singleton].
    intros p Hp Hp'. simpl in Hp'. apply list_elem_of_singleton in Hp' as ->.
    apply list_elem_of_fmap in Hp as (r & Hr & Hin).
    destruct (Hq r Hin) as (_ & _ & Hlt). lia.
  - intros r. rewrite elem_of_app, list_elem_of_singleton. intros [Hr | ->].
    + destruct (Hq r Hr) as (H1 & H2 & H3). split_and!; [done | done | lia].
    + simpl. split_and!; [| | lia].
      * apply not_elem_of_lt. intros x Hx.
        apply list_elem_of_fmap in Hx as (r & -> & Hin). by apply Hs.
      * by apply not_elem_of_lt.
  - intros r Hr. specialize (Hs r Hr). lia.
  - intros p Hp. specialize (Hst p Hp). lia.
Qed.

Lemma bot_inv_delay k b b' :
  bot_inv b -> fire (DelayElapsed k) b = Some b' ->
  bot_inv b' /\ currentRequest b = None /\ outstanding b = [] /\ busy b = true /\
  k = 0%nat /\ busy b' = false.
Proof.
  intros (Hres & Hcur & Hfresh). simpl.
  destruct (delay_timers b !! k) as [d|] eqn:Hk; [|discriminate]. intros [= <-].
  destruct (currentRequest b) as [r|] eqn:Hc.
  { destruct Hcur as (_ & Hd & _). rewrite Hd in Hk. discriminate. }
  destruct Hcur as (Hout & Harmed & Hbusy).
  destruct (busy b) eqn:Hb; [|rewrite Hbusy in Hk; discriminate].
  destruct Hbusy as [d0 Hd0]. rewrite Hd0 in Hk.
  destruct k as [|k]; [|destruct k; discriminate].
  split_and!; try done.
  unfold bot_inv. simpl. rewrite Hc, Hd0. by split_and!.
Qed.

Lemma outstanding_in_sent b r : outstanding b = [r] -> r ∈ sent b.
Proof.
  intros Hout. assert (r ∈ outstanding b) as Hin by (rewrite Hout; left).
  unfold outstanding in Hin. by apply list_elem_of_filter in Hin as [_ Hin].
Qed.

(** Settling the current request, by the response or by an error, leaves
    nothing outstanding. *)
Lemma settle_current b b' r x :
  fresh b -> outstanding b = [r] ->
  requestQueue b' = requestQueue b -> sent b' = sent b ->
  next_promise b' = next_promise b ->
  settled b' = settled b ++ [(promise r, x)] ->
  fresh b' /\ outstanding b' = [].
Proof.
  intros (Hnd & Hq & Hs & Hst) Hout Hqueue Hsent Hnext Hsettled.
  pose proof (outstanding_in_sent b r Hout) as Hr.
  split.
  - unfold fresh. rewrite Hqueue, Hsent, Hnext, Hsettled. split_and!; [done | | done |].
    + intros r' Hr'. destruct (Hq r' Hr') as (H1 & H2 & H3). split_and!; [done | | done].
      rewrite fmap_app, not_elem_of_app. split; [done|]. simpl.
      rewrite list_elem_of_singleton. intros Heq. apply H1.
      apply list_elem_of_fmap. exists r. done.
    + intros p. rewrite fmap_app, elem_of_app. simpl. rewrite list_elem_of_singleton.
      intros [Hp | ->]; [by apply Hst | by apply Hs].
  - rewrite outstanding_unsettled, Hsent, Hsettled. by apply unsettled_settle.
Qed.

Lemma handleRequestError_current msg b r :
  resolve b = Some (promise r) -> currentRequest b = Some r ->
  handleRequestError msg b
  = with_settled (settled b ++ [(promise r, Rejected msg)])
      (with_current None None
         (with_active (Z.max 0 (activeRequests b - 1)) (with_busy false (clear_ttl b)))).
Proof.
  intros Hres Hcur. unfold handleRequestError. simpl.
  destruct (clear_ttl_fields b) as (_ & _ & _ & _ & _ & Ha & _ & Hr & Hc & _ & _ & _ & Hst).
  simpl in *. by rewrite Hr, Hc, Hres, Hcur, Ha, Hst.
Qed.

(** The TTL timer of the current request fires. *)
Lemma bot_inv_ttl h b b' :
  bot_inv b -> fire (TtlFired h) b = Some b' ->
  bot_inv b' /\ busy b' = false /\
  exists r, currentRequest b = Some r /\
            settled b' = settled b ++ [(promise r, Rejected "Request timeout")] /\
            sent b' = sent b.
Proof.
  intros (Hres & Hcur & Hfresh). simpl.
  destruct (decide (h ∈ ttl_armed b)) as [Hh|]; [|discriminate]. intros [= <-].
  destruct (currentRequest b) as [r|] eqn:Hc.
  2:{ destruct Hcur as (_ & Harmed & _). rewrite Harmed in Hh. by apply elem_of_nil in Hh. }
  destruct Hcur as (Hbusy & Hd & Hout & [[Harmed _] | (h' & Harmed & Hh')]).
  { rewrite Harmed in Hh. by apply elem_of_nil in Hh. }
  rewrite Harmed in Hh. apply list_elem_of_singleton in Hh as ->.
  set (b1 := with_ttl _ _ _ b).
  rewrite (handleRequestError_current "Request timeout" b1 r);
    [| exact Hres | exact Hc].
  change (settled b1) with (settled b). change (activeRequests b1) with (activeRequests b).
  destruct (clear_ttl_fields b1)
    as (_ & _ & _ & _ & Hq1 & _ & _ & _ & _ & Hd1 & Hn1 & Hs1 & _).
  destruct (clear_ttl_armed b1) as (Ha1 & _).
  { left. unfold b1. simpl. rewrite Harmed, filter_cons.
    by rewrite decide_False by (intros Hne; by apply Hne). }
  simpl in *.
  destruct (settle_current b
              (with_settled (settled b ++ [(promise r, Rejected "Request timeout")])
                 (with_current None None
                    (with_active (Z.max 0 (activeRequests b - 1))
                       (with_busy false (clear_ttl b1))))) r
              (Rejected "Request timeout") Hfresh Hout)
    as (Hfresh' & Hout'); simpl; try done.
  split_and!; [| done | exists r; by split_and!].
  unfold bot_inv. simpl. split_and!; [done | done | done | | done].
  by rewrite Hd1, Hd.
Qed.

(** A response that matches the current request. *)
Lemma bot_inv_matched info now b res req :
  bot_inv b -> resolve b = Some res -> currentRequest b = Some req ->
  props info !! "itemid"%string = Some (String (InspectURL.a (params req))) ->
  let delay := Z.max 0 (request_delay (config b) - (now - time req)) in
  let b' := handleInspectResponse info now b in
  bot_inv b' /\ res = promise req /\
  settled b' = settled b ++ [(res, Resolved (processItemData info delay req))] /\
  sent b' = sent b /\ busy b' = true /\ delay_timers b' = [delay] /\
  currentRequest b' = None /\ outstanding b' = [].
Proof.
  intros (Hres & Hcur & Hfresh) Hr Hc Hid delay.
  rewrite Hc in Hres, Hcur. simpl in Hres. rewrite Hr in Hres. injection Hres as ->.
  destruct Hcur as (Hbusy & Hd & Hout & Httl).
  unfold handleInspectResponse. rewrite Hr, Hc, Hid. rewrite decide_True by done.
  destruct (clear_ttl_fields b)
    as (Hcfg & Hb1 & _ & _ & Hq1 & Hact1 & _ & _ & _ & Hd1 & Hn1 & Hs1 & Hst1).
  destruct (clear_ttl_armed b) as (Ha1 & _).
  { destruct Httl as [[-> _] | ?]; [by left | by right]. }
  simpl in *. rewrite Hcfg.
  assert ((if request_delay (config b) - (now - time req) <? 0 then 0
           else request_delay (config b) - (now - time req)) = delay) as Hdelay.
  { unfold delay. destruct (_ <? 0) eqn:Hlt;
      [apply Z.ltb_lt in Hlt | apply Z.ltb_ge in Hlt]; lia. }
  rewrite Hdelay. set (b' := with_delay_timers _ _).
  destruct (settle_current b b' req (Resolved (processItemData info delay req)) Hfresh Hout)
    as (Hfresh' & Hout'); try (unfold b'; simpl; congruence).
  split_and!; try done; try (unfold b'; simpl; congruence).
  - unfold bot_inv, b'. simpl. split_and!; [done | done | done | | done].
    rewrite Hb1, Hbusy, Hd1, Hd. by eexists.
  - unfold b'. simpl. by rewrite Hd1, Hd.
Qed.

(** A response that matches nothing is dropped. *)
Lemma handleInspectResponse_dropped info now b :
  (resolve b = None \/ currentRequest b = None \/
   exists req, currentRequest b = Some req /\
               props info !! "itemid"%string <> Some (String (InspectURL.a (params req)))) ->
  handleInspectResponse info now b = b.
Proof.
  unfold handleInspectResponse. intros [-> | [-> | (req & -> & Hne)]]; [done | |].
  - by destruct (resolve b).
  - destruct (resolve b); [|done].
    destruct (props info !! "itemid"%string) as [[| | |itemid|]|]; try done.
    destruct (decide (itemid = InspectURL.a (params req))) as [-> | ?]; done.
Qed.

Lemma bot_inv_response info now b : bot_inv b -> bot_inv (handleInspectResponse info now b).
Proof.
  intros Hinv.
  destruct (resolve b) as [res|] eqn:Hr.
  2:{ rewrite handleInspectResponse_dropped; auto. }
  destruct (currentRequest b) as [req|] eqn:Hc.
  2:{ rewrite handleInspectResponse_dropped; auto. }
  destruct (props info !! "itemid"%string) as [[| | |itemid|]|] eqn:Hid;
    try (rewrite handleInspectResponse_dropped; [done|]; right; right; exists req;
         by rewrite Hid).
  destruct (decide (itemid = InspectURL.a (params req))) as [-> | Hne].
  - by destruct (bot_inv_matched info now b res req Hinv Hr Hc Hid) as (? & _).
  - rewrite handleInspectResponse_dropped; [done|]. right. right. exists req.
    rewrite Hid. split; [done|]. congruence.
Qed.

Lemma processRequestQueue_busy now gc_ok b :
  busy b = true -> processRequestQueue now gc_ok b = b.
Proof.
  intros Hb. unfold processRequestQueue. rewrite Hb.
  by destruct (isShuttingDown b).
Qed.

(** [processRequestQueue] either does nothing or starts the request at the
    head of the queue, and it starts one only from the idle state. *)
Lemma bot_inv_process now gc_ok b :
  bot_inv b ->
  let b' := processRequestQueue now gc_ok b in
  bot_inv b' /\
  (b' = b \/
   (busy b = false /\ currentRequest b = None /\ outstanding b = [] /\
    delay_timers b = [] /\
    exists req rest, requestQueue b = req :: rest /\
      if gc_ok then sent b' = sent b ++ [req] /\ busy b' = true /\
                    currentRequest b' = Some req
      else sent b' = sent b /\ busy b' = false /\ currentRequest b' = None)).
Proof.
  intros Hinv. unfold processRequestQueue.
  destruct (isShuttingDown b || busy b || negb (ready b)) eqn:Hguard; [by split; [|left]|].
  apply orb_false_iff in Hguard as [Hguard _]. apply orb_false_iff in Hguard as [_ Hbusy].
  destruct (requestQueue b) as [|req rest] eqn:Hqueue; [by split; [|left]|].
  destruct (max_concurrent_requests (config b) <=? activeRequests b); [by split; [|left]|].
  destruct (negb (canProcessRequest now b)); [by split; [|left]|].
  destruct Hinv as (Hres & Hcur & Hnd & Hq & Hs & Hst).
  destruct (currentRequest b) as [r|] eqn:Hc.
  { destruct Hcur as (Hb & _). congruence. }
  destruct Hcur as (Hout & Harmed & Hd). rewrite Hbusy in Hd.
  rewrite Hqueue in Hnd, Hq. simpl in Hnd. apply NoDup_cons in Hnd as [Hnin Hnd].
  destruct (Hq req) as (Hreq1 & Hreq2 & Hreq3); [left|].
  assert (forall r', r' ∈ rest -> promise r' <> promise req) as Hother.
  { intros r' Hr' Heq. apply Hnin. rewrite <- Heq. apply list_elem_of_fmap. by exists r'. }
  unfold executeRequest. destruct gc_ok.
  - split.
    + unfold bot_inv, fresh. simpl. rewrite Harmed, Hd. split_and!; try done.
      * rewrite outstanding_unsettled. simpl. rewrite unsettled_snoc.
        rewrite decide_True by done.
        rewrite outstanding_unsettled in Hout. by rewrite Hout.
      * right. by eexists.
      * intros r' Hr'. destruct (Hq r') as (H1 & H2 & H3); [by right|].
        split_and!; [| done | done].
        rewrite fmap_app, not_elem_of_app. split; [done|]. simpl.
        rewrite list_elem_of_singleton. by apply Hother.
      * intros r'. rewrite elem_of_app, list_elem_of_singleton.
        intros [Hr' | ->]; [by apply Hs | done].
    + right. split_and!; try done. exists req, rest. by split_and!.
  - set (b1 := with_current _ _ _).
    rewrite (handleRequestError_current "inspectItem raised" b1 req); [|done..].
    destruct (clear_ttl_fields b1)
      as (_ & _ & _ & _ & Hq1 & _ & _ & _ & _ & Hd1 & Hn1 & Hs1 & Hst1).
    destruct (clear_ttl_armed b1) as (Ha1 & _); [by left|].
    set (b' := with_settled _ _).
    assert (outstanding b' = []) as Hout'.
    { rewrite outstanding_unsettled. unfold b'. simpl. rewrite Hs1. simpl.
      rewrite unsettled_more. rewrite outstanding_unsettled in Hout. by rewrite Hout. }
    split.
    + unfold bot_inv, fresh, b'. simpl. rewrite Hq1, Hs1, Hn1, Hd1. simpl.
      fold b'. rewrite Hd. split_and!; try done.
      * intros r' Hr'. destruct (Hq r') as (H1 & H2 & H3); [by right|].
        split_and!; [done | | done].
        rewrite fmap_app, not_elem_of_app. split; [done|]. simpl.
        rewrite list_elem_of_singleton. by apply Hother.
      * intros p. rewrite fmap_app, elem_of_app. simpl. rewrite list_elem_of_singleton.
        intros [Hp | ->]; [by apply Hst | done].
    + right. split_and!; try done. exists req, rest. split; [done|].
      unfold b'. simpl. by rewrite Hs1.
Qed.

Lemma bot_inv_destroy b : bot_inv b -> bot_inv (destroy b).
Proof.
  intros (Hres & Hcur & Hnd & Hq & Hs & Hst). unfold destroy.
  set (b1 := with_shutdown true b).
  destruct (clear_ttl_fields b1)
    as (_ & Hb1 & _ & _ & Hq1 & _ & _ & Hr1 & Hc1 & Hd1 & Hn1 & Hs1 & Hst1).
  simpl in *.
  assert (unsettled
            (settled (clear_ttl b1) ++
             ((fun req => (promise req, Rejected "Bot destroyed")) <$> requestQueue (clear_ttl b1)))
            (sent b) = unsettled (settled b) (sent b)) as Hout.
  { rewrite Hst1, Hq1. apply unsettled_others. intros r Hr Hin.
    rewrite <- list_fmap_compose in Hin.
    apply list_elem_of_fmap in Hin as (r' & Heq & Hr'). simpl in Heq.
    destruct (Hq r' Hr') as (H1 & _). apply H1. rewrite <- Heq.
    apply list_elem_of_fmap. by exists r. }
  unfold bot_inv, fresh. simpl. rewrite Hr1, Hc1, Hb1, Hd1, Hn1, Hs1.
  split_and!; [done | | apply NoDup_nil_2 | | done |].
  - destruct (currentRequest b) as [r|] eqn:Hc.
    + destruct Hcur as (Hbusy & Hd & Hout0 & Httl). split_and!; [done | done | |].
      * rewrite outstanding_unsettled. simpl. rewrite Hs1. simpl. by rewrite Hout.
      * destruct (clear_ttl_armed b1) as (Ha1 & Ht1).
        { unfold b1. simpl. destruct Httl as [[Ha _] | ?]; [by left | by right]. }
        destruct Httl as [[Ha Ht] | (h & Ha & Ht)].
        -- left. split; [done|]. unfold clear_ttl. simpl. by rewrite Ht.
        -- left. split; [done|]. unfold clear_ttl. simpl. by rewrite Ht.
    + destruct Hcur as (Hout0 & Harmed & Hd). split_and!; [| | done].
      * rewrite outstanding_unsettled. simpl. rewrite Hs1. simpl. by rewrite Hout.
      * by destruct (clear_ttl_armed b1) as (Ha1 & _); [left; exact Harmed|].
  - intros r Hr. by apply elem_of_nil in Hr.
  - intros p. rewrite fmap_app, elem_of_app, Hst1, Hq1. intros [Hp | Hp]; [by apply Hst|].
    rewrite <- list_fmap_compose in Hp. apply list_elem_of_fmap in Hp as (r & -> & Hr).
    simpl. by destruct (Hq r Hr) as (_ & _ & ?).
Qed.

Lemma bot_inv_fire ev b b' : bot_inv b -> fire ev b = Some b' -> bot_inv b'.
Proof.
  intros Hinv.
  destruct ev as [link now | now gc_ok | info now | h | k | now gc_ok | |]; simpl.
  - intros [= <-]. by apply bot_inv_send.
  - intros [= <-]. by destruct (bot_inv_process now gc_ok b Hinv).
  - intros [= <-]. by apply bot_inv_response.
  - intros Hf. by destruct (bot_inv_ttl h b b' Hinv Hf).
  - intros Hf. by destruct (bot_inv_delay k b b' Hinv Hf).
  - intros [= <-].
    by destruct (bot_inv_process now gc_ok (with_ready true b) (bot_inv_ready true b Hinv)).
  - intros [= <-]. by apply bot_inv_ready.
  - intros [= <-]. by apply bot_inv_destroy.
Qed.

Lemma bot_inv_run evs : forall b b', bot_inv b -> run evs b = Some b' -> bot_inv b'.
Proof.
  induction evs as [|ev evs IH]; intros b b' Hinv; simpl.
  - by intros [= <-].
  - destruct (fire ev b) as [b1|] eqn:Hf; [|discriminate].
    apply IH. by eapply bot_inv_fire.
Qed.

Lemma bot_reachable_inv b : reachable b -> bot_inv b.
Proof. intros (cfg & evs & Hrun). eapply bot_inv_run; [apply bot_inv_init | exact Hrun]. Qed.

(** What [handleInspectResponse] does with a matching response, in any
    state. *)
Lemma handleInspectResponse_matched_fields info now b res req :
  resolve b = Some res -> currentRequest b = Some req ->
  props info !! "itemid"%string = Some (String (InspectURL.a (params req))) ->
  let delay := Z.max 0 (request_delay (config b) - (now - time req)) in
  let b' := handleInspectResponse info now b in
  settled b' = settled b ++ [(res, Resolved (processItemData info delay req))] /\
  currentRequest b' = None /\ resolve b' = None /\ busy b' = busy b /\
  delay_timers b' = delay_timers b ++ [delay] /\ sent b' = sent b.
Proof.
  intros Hr Hc Hid delay b'. unfold b', handleInspectResponse.
  rewrite Hr, Hc, Hid, decide_True by done.
  destruct (clear_ttl_fields b)
    as (Hcfg & Hb & _ & _ & _ & _ & _ & _ & _ & Hd & _ & Hs & Hst).
  simpl in *. rewrite Hcfg.
  assert ((if request_delay (config b) - (now - time req) <? 0 then 0
           else request_delay (config b) - (now - time req)) = delay) as ->.
  { unfold delay. destruct (_ <? 0) eqn:Hlt;
      [apply Z.ltb_lt in Hlt | apply Z.ltb_ge in Hlt]; lia. }
  split_and!; congruence.
Qed.

(** A response changes the state only when it matches the current
    request. *)
Lemma handleInspectResponse_changed info now b :
  handleInspectResponse info now b <> b ->
  exists res req,
    resolve b = Some res /\ currentRequest b = Some req /\
    props info !! "itemid"%string = Some (String (InspectURL.a (params req))).
Proof.
  intros Hne.
  destruct (resolve b) as [res|] eqn:Hr.
  2:{ exfalso. apply Hne. apply handleInspectResponse_dropped. auto. }
  destruct (currentRequest b) as [req|] eqn:Hc.
  2:{ exfalso. apply Hne. apply handleInspectResponse_dropped. auto. }
  exists res, req. split_and!; [done | done |].
  destruct (props info !! "itemid"%string) as [[| | |itemid|]|] eqn:Hid;
    try (exfalso; apply Hne; apply handleInspectResponse_dropped; right; right;
         exists req; by rewrite Hid).
  destruct (decide (itemid = InspectURL.a (params req))) as [-> | Hneq]; [done|].
  exfalso. apply Hne. apply handleInspectResponse_dropped. right. right. exists req.
  rewrite Hid. split; [done|]. congruence.
Qed.

Lemma destroy_fields b : sent (destroy b) = sent b /\ busy (destroy b) = busy b.
Proof.
  unfold destroy.
  destruct (clear_ttl_fields (with_shutdown true b))
    as (_ & Hb & _ & _ & _ & _ & _ & _ & _ & _ & _ & Hs & _).
  simpl in *. by rewrite Hs, Hb.
Qed.

Lemma sendFloatRequest_fields link now b :
  sent (sendFloatRequest link now b) = sent b /\
  busy (sendFloatRequest link now b) = busy b.
Proof.
  unfold sendFloatRequest. simpl. destruct (isShuttingDown b); [done|].
  by destruct (ready b).
Qed.

End BotFacts.

(** ** The bot's dispatcher: the claims *)

Section BotClaims.

#[local] Open Scope Z_scope.
Import Bot.

Lemma rename_sticker_spec (st : gmap string prim) :
  rename_sticker st !! "stickerId"%string = Some (get "sticker_id" st) /\
  rename_sticker st !! "sticker_id"%string = None /\
  forall k : string, k <> "stickerId"%string -> k <> "sticker_id"%string ->
                     rename_sticker st !! k = st !! k.
Proof.
  unfold rename_sticker. split_and!.
  - rewrite lookup_delete_ne by done. apply lookup_insert_eq.
  - apply lookup_delete_eq.
  - intros k H1 H2. rewrite lookup_delete_ne by done. by rewrite lookup_insert_ne.
Qed.

Lemma get_insert_ne (k k' : string) (v : prim) (o : gmap string prim) :
  k <> k' -> get k (<[k' := v]> o) = get k o.
Proof. intros Hne. unfold get. by rewrite lookup_insert_ne. Qed.

(** C6. When the response matches the current request, the promise is
    resolved with a record whose [delay] is max(0, request_delay - (now -
    request.time)) and whose item has: [floatvalue] equal to the
    coordinator's [paintwear] and no [paintwear]; [paintseed] kept when
    truthy and 0 otherwise, so 0 for [null] and never [null]; [a], [d], [s],
    [m] of the request, whatever the coordinator sent under these keys; every
    other property as the coordinator sent it; and every sticker with
    [stickerId] holding what [sticker_id] held, no [sticker_id], and its
    other properties unchanged. *)
Theorem C6_response_record (b : Bot.t) (info : iteminfo) (now : Z)
    (res : nat) (req : request) :
  resolve b = Some res ->
  currentRequest b = Some req ->
  props info !! "itemid"%string = Some (String (InspectURL.a (params req))) ->
  exists r,
    settled (handleInspectResponse info now b) = settled b ++ [(res, Resolved r)] /\
    delay r = Z.max 0 (request_delay (config b) - (now - time req)) /\
    props (res_iteminfo r) !! "floatvalue"%string = Some (get "paintwear" (props info)) /\
    props (res_iteminfo r) !! "paintwear"%string = None /\
    props (res_iteminfo r) !! "paintseed"%string
    = Some (if truthy (get "paintseed" (props info)) then get "paintseed" (props info)
            else Number (inject_Z 0)) /\
    (get "paintseed" (props info) = Null ->
     props (res_iteminfo r) !! "paintseed"%string = Some (Number (inject_Z 0))) /\
    props (res_iteminfo r) !! "paintseed"%string <> Some Null /\
    props (res_iteminfo r) !! "a"%string = Some (String (InspectURL.a (params req))) /\
    props (res_iteminfo r) !! "d"%string = Some (String (InspectURL.d (params req))) /\
    props (res_iteminfo r) !! "s"%string = Some (String (InspectURL.s (params req))) /\
    props (res_iteminfo r) !! "m"%string = Some (String (InspectURL.m (params req))) /\
    (forall k : string, k ∉ stamped -> props (res_iteminfo r) !! k = props info !! k) /\
    match stickers info with
    | None => stickers (res_iteminfo r) = None
    | Some l =>
        exists l', stickers (res_iteminfo r) = Some l' /\ length l' = length l /\
          forall (i : nat) st, l !! i = Some st ->
            exists st', l' !! i = Some st' /\
              st' !! "stickerId"%string = Some (get "sticker_id" st) /\
              st' !! "sticker_id"%string = None /\
              forall k : string, k <> "stickerId"%string -> k <> "sticker_id"%string ->
                                 st' !! k = st !! k
    end.
Proof.
  intros Hr Hc Hid.
  destruct (handleInspectResponse_matched_fields info now b res req Hr Hc Hid)
    as (Hst & _).
  rewrite Hst. eexists. split; [reflexivity|].
  cbn [delay res_iteminfo props stickers processItemData].
  rewrite !get_insert_ne by done.
  split_and!.
  - reflexivity.
  - rewrite lookup_delete_ne by done. apply lookup_insert_eq.
  - apply lookup_delete_eq.
  - rewrite lookup_delete_ne, lookup_insert_ne by done. apply lookup_insert_eq.
  - intros Hnull. rewrite lookup_delete_ne, lookup_insert_ne by done.
    rewrite lookup_insert_eq. by rewrite Hnull.
  - rewrite lookup_delete_ne, lookup_insert_ne by done. rewrite lookup_insert_eq.
    destruct (get "paintseed" (props info)) eqn:Hseed; simpl; try done.
    + by destruct (negb _).
    + by destruct (decide _).
    + by destruct b0.
  - rewrite lookup_delete_ne by done. rewrite !lookup_insert_ne by done.
    apply lookup_insert_eq.
  - rewrite lookup_delete_ne by done. rewrite !lookup_insert_ne by done.
    apply lookup_insert_eq.
  - rewrite lookup_delete_ne by done. rewrite !lookup_insert_ne by done.
    apply lookup_insert_eq.
  - rewrite lookup_delete_ne by done. rewrite !lookup_insert_ne by done.
    apply lookup_insert_eq.
  - intros k Hk. unfold stamped in Hk. rewrite !not_elem_of_cons in Hk.
    destruct Hk as (H1 & H2 & H3 & H4 & H5 & H6 & H7 & _).
    rewrite lookup_delete_ne by done. by rewrite !lookup_insert_ne by done.
  - destruct (stickers info) as [l|]; [|done].
    eexists. split; [reflexivity|]. split; [by rewrite length_fmap|].
    intros i st Hi. exists (rename_sticker st). split.
    + by rewrite list_lookup_fmap, Hi.
    + apply rename_sticker_spec.
Qed.

(** C7. An [inspectItemInfo] event that arrives when the bot has no promise
    to resolve or no current request, or whose [itemid] is not the current
    request's [a], leaves the whole state as it was: nothing is resolved or
    rejected and no timer changes. An event that changes anything carries
    the [itemid] of the current request, and what it does is resolve that
    request's promise. *)
Theorem C7_mismatched_response_dropped (b : Bot.t) (info : iteminfo) (now : Z) :
  ((resolve b = None \/ currentRequest b = None \/
    exists req, currentRequest b = Some req /\
                props info !! "itemid"%string <> Some (String (InspectURL.a (params req)))) ->
   handleInspectResponse info now b = b) /\
  (handleInspectResponse info now b <> b ->
   exists res req r,
     resolve b = Some res /\ currentRequest b = Some req /\
     props info !! "itemid"%string = Some (String (InspectURL.a (params req))) /\
     settled (handleInspectResponse info now b) = settled b ++ [(res, Resolved r)] /\
     currentRequest (handleInspectResponse info now b) = None).
Proof.
  split; [apply handleInspectResponse_dropped|].
  intros Hne. destruct (handleInspectResponse_changed info now b Hne)
    as (res & req & Hr & Hc & Hid).
  destruct (handleInspectResponse_matched_fields info now b res req Hr Hc Hid)
    as (Hst & Hcur & _).
  exists res, req. eexists. by split_and!.
Qed.

(** C8. In every reachable state of a bot at most one inspect sent to the
    coordinator is unsettled. While [busy] is set [processRequestQueue] does
    nothing, and while it is clear there is no current request, nothing
    outstanding and no post-response timer pending. A callback sends an
    inspect only from that idle state, and the inspect it sends is then the
    only one outstanding. A set [busy] flag is cleared by two callbacks only:
    the post-response timer, armed by the accepted response with the delay it
    computed, which fires when there is no current request and nothing
    outstanding; and the TTL timer, which rejects the current request. An
    accepted response leaves [busy] set and exactly that timer pending. *)
Theorem C8_one_inspect_in_flight (b : Bot.t) :
  reachable b ->
  (length (outstanding b) <= 1)%nat /\
  (busy b = true -> forall now gc_ok, processRequestQueue now gc_ok b = b) /\
  (busy b = false ->
   currentRequest b = None /\ outstanding b = [] /\ delay_timers b = []) /\
  forall ev b', fire ev b = Some b' ->
    (sent b' = sent b \/
     exists req, sent b' = sent b ++ [req] /\ busy b = false /\ outstanding b = [] /\
                 delay_timers b = [] /\ outstanding b' = [req]) /\
    (busy b = true -> busy b' = false ->
     (exists k d, ev = DelayElapsed k /\ delay_timers b !! k = Some d /\
                  currentRequest b = None /\ outstanding b = []) \/
     (exists h req, ev = TtlFired h /\ currentRequest b = Some req /\
                    settled b' = settled b ++ [(promise req, Rejected "Request timeout")])) /\
    (forall info now, ev = InspectItemInfo info now -> b' <> b ->
     exists req, currentRequest b = Some req /\ busy b' = true /\
       delay_timers b' = [Z.max 0 (request_delay (config b) - (now - time req))] /\
       outstanding b' = []).
Proof.
  intros Hreach. pose proof (bot_reachable_inv b Hreach) as Hinv.
  assert (Hstate := Hinv). destruct Hstate as (Hres & Hcur & Hfresh).
  split_and!.
  - destruct (currentRequest b).
    + destruct Hcur as (_ & _ & Ho & _). rewrite Ho. simpl. lia.
    + destruct Hcur as (Ho & _). rewrite Ho. simpl. lia.
  - intros Hb now gc_ok. by apply processRequestQueue_busy.
  - intros Hb. destruct (currentRequest b).
    + destruct Hcur as (Hb' & _). congruence.
    + destruct Hcur as (Hout & _ & Hd). rewrite Hb in Hd. done.
  - intros ev b' Hfire.
    pose proof (bot_inv_fire ev b b' Hinv Hfire) as Hinv'.
    destruct ev as [link now | now gc_ok | info now | h | k | now gc_ok | |];
      simpl in Hfire.
    + injection Hfire as <-. destruct (sendFloatRequest_fields link now b) as (Hs & Hb).
      split_and!; [by left | congruence | discriminate].
    + injection Hfire as <-.
      destruct (bot_inv_process now gc_ok b Hinv) as (_ & [Heq | Hd]).
      * rewrite Heq. split_and!; [by left | congruence | discriminate].
      * destruct Hd as (Hb & Hc & Hout & Hdt & req & rest & Hq & Hcase).
        split_and!; [| congruence | discriminate].
        destruct gc_ok.
        -- destruct Hcase as (Hs & Hb' & Hc'). right. exists req. split_and!; try done.
           destruct Hinv' as (_ & Hcur' & _). rewrite Hc' in Hcur'.
           by destruct Hcur' as (_ & _ & ? & _).
        -- left. apply Hcase.
    + injection Hfire as <-. split_and!.
      * destruct (resolve b) as [res|] eqn:Hr;
          [|left; rewrite handleInspectResponse_dropped; auto].
        destruct (currentRequest b) as [req|] eqn:Hc;
          [|left; rewrite handleInspectResponse_dropped; auto].
        destruct (props info !! "itemid"%string) as [[| | |itemid|]|] eqn:Hid;
          try (left; rewrite handleInspectResponse_dropped; [done|]; right; right;
               exists req; by rewrite Hid).
        destruct (decide (itemid = InspectURL.a (params req))) as [-> | Hne].
        -- left. by destruct (bot_inv_matched info now b res req Hinv Hr Hc Hid)
             as (_ & _ & _ & ? & _).
        -- left. rewrite handleInspectResponse_dropped; [done|]. right. right.
           exists req. rewrite Hid. split; [done|]. congruence.
      * intros Hb Hb'. exfalso.
        destruct (resolve b) as [res|] eqn:Hr;
          [|rewrite handleInspectResponse_dropped in Hb'; auto; congruence].
        destruct (currentRequest b) as [req|] eqn:Hc;
          [|rewrite handleInspectResponse_dropped in Hb'; auto; congruence].
        destruct (props info !! "itemid"%string) as [[| | |itemid|]|] eqn:Hid;
          try (rewrite handleInspectResponse_dropped in Hb';
               [congruence | right; right; exists req; by rewrite Hid]).
        destruct (decide (itemid = InspectURL.a (params req))) as [-> | Hne].
        -- destruct (bot_inv_matched info now b res req Hinv Hr Hc Hid)
             as (_ & _ & _ & _ & ? & _). congruence.
        -- rewrite handleInspectResponse_dropped in Hb'; [congruence|]. right. right.
           exists req. rewrite Hid. split; [done|]. congruence.
      * intros info0 now0 [= <- <-] Hne.
        destruct (handleInspectResponse_changed info now b Hne)
          as (res & req & Hr & Hc & Hid).
        destruct (bot_inv_matched info now b res req Hinv Hr Hc Hid)
          as (_ & _ & _ & _ & Hb' & Hd' & _ & Hout').
        exists req. rewrite Hc in *. by split_and!.
    + destruct (bot_inv_ttl h b b' Hinv Hfire) as (_ & Hb' & r & Hc & Hst & Hs).
      split_and!; [by left | | discriminate].
      intros _ _. right. exists h, r. by split_and!.
    + destruct (bot_inv_delay k b b' Hinv Hfire) as (_ & Hc & Hout & Hb & -> & Hb').
      destruct (delay_timers b !! 0%nat) as [d|] eqn:Hk; [|discriminate].
      injection Hfire as <-. split_and!; [by left | | discriminate].
      intros _ _. left. exists 0%nat, d. by split_and!.
    + injection Hfire as <-.
      destruct (bot_inv_process now gc_ok (with_ready true b) (bot_inv_ready true b Hinv))
        as (_ & [Heq | Hd]).
      * rewrite Heq. split_and!; [by left | | discriminate]. simpl. congruence.
      * destruct Hd as (Hb & Hc & Hout & Hdt & req & rest & Hq & Hcase).
        split_and!; [| intros Hb1; simpl in Hb; congruence | discriminate].
        destruct gc_ok.
        -- destruct Hcase as (Hs & Hb' & Hc'). right. exists req. split_and!; try done.
           destruct Hinv' as (_ & Hcur' & _). rewrite Hc' in Hcur'.
           by destruct Hcur' as (_ & _ & ? & _).
        -- left. apply Hcase.
    + injection Hfire as <-. split_and!; [by left | simpl; congruence | discriminate].
    + injection Hfire as <-. destruct (destroy_fields b) as (Hs & Hb).
      split_and!; [by left | congruence | discriminate].
Qed.

Lemma C6_response_record_witness :
  resolve Scenario.bot_waiting = Some 0%nat /\
  currentRequest Scenario.bot_waiting = Some Scenario.request_10 /\
  props Scenario.answer_10 !! "itemid"%string = Some (String "10") /\
  exists r,
    settled (handleInspectResponse Scenario.answer_10 5600 Scenario.bot_waiting)
    = settled Scenario.bot_waiting ++ [(0%nat, Resolved r)] /\
    delay r = Z.max 0 (request_delay (config Scenario.bot_waiting) - (5600 - 5000)).
Proof.
  split_and!; [reflexivity | reflexivity | reflexivity |].
  destruct (C6_response_record Scenario.bot_waiting Scenario.answer_10 5600 0%nat
              Scenario.request_10 eq_refl eq_refl eq_refl) as (r & H1 & H2 & _).
  exists r. split; [exact H1 | exact H2].
Defined.

(** The answer for asset 10 as the caller of asset 10 gets it: the wear
    under [floatvalue], seed 0, the owner of the request, the sticker id
    renamed, and 400 ms left of the request delay. *)
Example answer_10_decorated :
  let r := processItemData Scenario.answer_10 400 Scenario.request_10 in
  props (res_iteminfo r) !! "floatvalue"%string = Some (Number (1 # 4)) /\
  props (res_iteminfo r) !! "paintwear"%string = None /\
  props (res_iteminfo r) !! "paintseed"%string = Some (Number (inject_Z 0)) /\
  props (res_iteminfo r) !! "s"%string = Some (String "76561198000000001") /\
  (fun st => st !! "stickerId"%string) <$> default [] (stickers (res_iteminfo r))
  = [Some (Number (inject_Z 55))] /\
  settled (handleInspectResponse Scenario.answer_10 5600 Scenario.bot_waiting)
  = [(0%nat, Resolved r)].
Proof. split_and!; reflexivity. Qed.

(** An answer for asset 99 while asset 10 is current changes nothing; the
    answer for asset 10 that follows resolves the request. *)
Example wire_mismatch :
  handleInspectResponse Scenario.answer_99 5500 Scenario.bot_waiting = Scenario.bot_waiting /\
  fst <$> settled (handleInspectResponse Scenario.answer_10 5600
                     (handleInspectResponse Scenario.answer_99 5500 Scenario.bot_waiting))
  = [0%nat].
Proof.
  assert (handleInspectResponse Scenario.answer_99 5500 Scenario.bot_waiting
          = Scenario.bot_waiting) as Hdrop.
  { apply handleInspectResponse_dropped. right. right. exists Scenario.request_10.
    split; [reflexivity|]. by vm_compute. }
  split; [exact Hdrop|]. rewrite Hdrop. by vm_compute.
Qed.

Lemma C8_one_inspect_in_flight_witness :
  reachable Scenario.bot_waiting /\
  (length (outstanding Scenario.bot_waiting) <= 1)%nat.
Proof.
  assert (reachable Scenario.bot_waiting) as Hreach.
  { exists default_settings,
      [ConnectedToGC 0 true;
       SendFloatRequest (InspectURL.mkParams "76561198000000001" "10" "11" "0") 5000;
       ProcessQueue 5010 true].
    reflexivity. }
  split; [exact Hreach|].
  apply (C8_one_inspect_in_flight Scenario.bot_waiting Hreach).
Defined.

End BotClaims.

(** ** The HTTP handlers *)

Section AppFacts.

#[local] Open Scope Z_scope.
Import App.

Variable getParams : link_input -> option InspectURL.params.
Variable submitted_price : body -> InspectURL.params -> option Z.
Variable cfg : config.

(** C9. A [POST /inspect] whose body has no [apiKey], or one that differs
    from the configured [api_key], is answered with status 403 and the body
    [{error: "Invalid API key", code: 8}]; the handler returns there: no
    [InspectURL] is built, no job is created and the scheduler is left as it
    was. (The handler of lines 148-193 and 460-505.) *)
Theorem C9_invalid_api_key_rejected (caller : string) (b : body) (q : Queue.t) :
  apiKey b = None \/ apiKey b <> api_key cfg ->
  post_inspect getParams submitted_price cfg caller b q
  = mkOutcome (Some (Json 403 "Invalid API key" 8)) q None false.
Proof.
  intros Hkey. unfold post_inspect, invalid_key.
  destruct (apiKey b) as [k|] eqn:Hk; [|done].
  destruct (decide (k = ""%string)); [done|].
  destruct (decide (Some k = api_key cfg)) as [Heq | Hne]; [|done].
  destruct Hkey as [Hnone | Hdiff]; [discriminate | by destruct Hdiff].
Qed.

(** [handleJob] does refuse a caller over the limit: with a bot online and a
    positive [max_simultaneous_requests], a job that would take the caller's
    outstanding count over it is answered [MaxRequests] on every pending
    link, and the scheduler is left as it was. *)
Lemma handleJob_refuses_over_limit (job : Job.t) (q : Queue.t) (amt : Z) :
  0 < max_simultaneous_requests cfg ->
  Queue.getUserQueuedAmt (Job.ip job) q = JS.Amount amt ->
  max_simultaneous_requests cfg < amt + Job.remainingSize job ->
  handleJob cfg true job q = (Job.setResponseRemaining Errors.MaxRequests job, q).
Proof.
  intros Hpos Hamt Hover. unfold handleJob. cbn [negb]. rewrite Hamt.
  unfold JS.plus_gt. apply Z.ltb_lt in Hpos, Hover. by rewrite Hpos, Hover.
Qed.

(** Likewise for the queue limit, when the caller's own limit is not hit. *)
Lemma handleJob_refuses_full_queue (job : Job.t) (q : Queue.t) (n : Z) :
  max_queue_size cfg = Some n -> 0 < n ->
  JS.plus_gt (Queue.getUserQueuedAmt (Job.ip job) q) (Job.remainingSize job)
    (max_simultaneous_requests cfg) = false ->
  n < Queue.size q + Job.remainingSize job ->
  handleJob cfg true job q = (Job.setResponseRemaining Errors.MaxQueueSize job, q).
Proof.
  intros Hn Hpos Hunder Hover. unfold handleJob. cbn [negb]. rewrite Hn, Hunder.
  generalize dependent (Queue.size q). generalize dependent (Job.remainingSize job).
  intros r _ sz Hover.
  apply Z.ltb_lt in Hpos, Hover. by rewrite Hpos, Hover, andb_false_r.
Qed.

End AppFacts.

Lemma C9_invalid_api_key_rejected_witness :
  (App.apiKey Scenario.keyless_request = None \/
   App.apiKey Scenario.keyless_request <> App.api_key Scenario.limits) /\
  App.post_inspect Scenario.parse_fields Scenario.no_price Scenario.limits
    "9.9.9.9" Scenario.keyless_request Scenario.two_in_flight
  = App.mkOutcome (Some (App.Json 403 "Invalid API key" 8)) Scenario.two_in_flight
      None false.
Proof.
  split; [by left|].
  apply (C9_invalid_api_key_rejected Scenario.parse_fields Scenario.no_price
           Scenario.limits "9.9.9.9" Scenario.keyless_request Scenario.two_in_flight).
  by left.
Defined.

(** The handler of lines 796-829 answers the same request without a key by
    enqueueing it. *)
Example post_inspect_v3_reads_no_key :
  let out := App.post_inspect_v3 Scenario.parse_fields Scenario.no_price Scenario.limits
               "10.0.0.9" Scenario.keyless_request (Queue.init 0) in
  App.replied out = None /\
  App.parsed out = true /\
  Job.remainingSize <$> App.created out = Some 1%Z /\
  Queue.size (App.queue out) = 1%Z.
Proof. vm_compute. by repeat split. Qed.

(** [POST /inspect] against C5: the caller 9.9.9.9 has two entries
    outstanding and [max_simultaneous_requests] is 2; a third request with
    the key gets no [MaxRequests] reply, the job is created, its entry waits
    in lane 4, and the caller's count is 3. [handleJob] on the same job and
    scheduler answers [MaxRequests] and enqueues nothing. *)
Example post_inspect_skips_admission :
  let out := App.post_inspect Scenario.parse_fields Scenario.no_price Scenario.limits
               "9.9.9.9" Scenario.keyed_request Scenario.two_in_flight in
  Queue.getUserQueuedAmt "9.9.9.9" Scenario.two_in_flight = JS.Amount 2 /\
  App.replied out = None /\
  Queue.getUserQueuedAmt "9.9.9.9" (App.queue out) = JS.Amount 3 /\
  length (Queue.lane4 (Queue.priorityQueues (App.queue out))) = 1%nat /\
  (exists job, App.created out = Some job /\
     App.handleJob Scenario.limits true job Scenario.two_in_flight
     = (Job.setResponseRemaining Errors.MaxRequests job, Scenario.two_in_flight)).
Proof.
  split_and!.
  - by vm_compute.
  - by vm_compute.
  - by vm_compute.
  - by vm_compute.
  - eexists. split; [reflexivity|]. by vm_compute.
Qed.

(** ** The other snapshots of the scheduler and of the cache *)

(** The earlier [checkQueue] kept in [src/lib/bot.js] never takes an entry
    from lane 4 or 5. *)
Lemma legacy_pick_skips_lanes_4_and_5 (l4 l5 : list Queue.entry) :
  QueueLegacy.pick (Queue.mkLanes [] [] [] l4 l5) = None /\
  forall u c n h e,
    QueueLegacy.checkQueue
      (QueueLegacy.mk (Queue.mkLanes [] [] [] l4 l5) u true n c h e)
    = QueueLegacy.mk (Queue.mkLanes [] [] [] l4 l5) u true n c h e.
Proof.
  split; [reflexivity|]. intros u c n h e. unfold QueueLegacy.checkQueue. simpl.
  destruct (_ && _); reflexivity.
Qed.

(** In the earlier scheduler a rejected entry whose attempts differ from
    [max_attempts] is back at the head of its lane as soon as the [.catch]
    callback ran: there is no backoff timer, and an entry whose attempts
    are already past [max_attempts] is retried again. *)
Lemma legacy_retry_is_immediate (q : QueueLegacy.t) (i : nat) (job : Queue.entry)
    (err : Queue.error) (waiting0 : list Queue.entry) :
  QueueLegacy.handling q !! i = Some job ->
  Queue.attempts (Queue.count_attempt err job) <> Queue.max_attempts job ->
  Queue.lane (Queue.priority job) (QueueLegacy.priorityQueues q) = Some waiting0 ->
  exists q1,
    QueueLegacy.on_rejected i err q = Some (QueueLegacy.checkQueue q1) /\
    Queue.lane (Queue.priority job) (QueueLegacy.priorityQueues q1)
    = Some (Queue.count_attempt err job :: waiting0) /\
    QueueLegacy.emitted q1 = QueueLegacy.emitted q /\
    QueueLegacy.users q1 = QueueLegacy.users q.
Proof.
  intros Hi Hne Hlane. unfold QueueLegacy.on_rejected. rewrite Hi.
  assert (Queue.max_attempts (Queue.count_attempt err job) = Queue.max_attempts job) as Hm
    by (rewrite count_attempt_eq; reflexivity).
  rewrite Hm. apply Z.eqb_neq in Hne. rewrite Hne.
  rewrite count_attempt_priority, Hlane.
  eexists. split; [reflexivity|]. simpl.
  pose proof (lane_range _ _ _ Hlane). split_and!; [| done | done].
  by apply lane_set_lane_eq.
Qed.

Lemma legacy_retry_is_immediate_witness :
  exists q1,
    QueueLegacy.on_rejected 0
      (Queue.OtherError "Request timeout")
      (QueueLegacy.mk Queue.no_lanes ∅ true 1 1 [Scenario.in_flight_entry] [])
    = Some (QueueLegacy.checkQueue q1) /\
    Queue.lane 4 (QueueLegacy.priorityQueues q1)
    = Some [Queue.count_attempt (Queue.OtherError "Request timeout")
              Scenario.in_flight_entry].
Proof.
  destruct (legacy_retry_is_immediate
              (QueueLegacy.mk Queue.no_lanes ∅ true 1 1 [Scenario.in_flight_entry] [])
              0 Scenario.in_flight_entry (Queue.OtherError "Request timeout") [])
    as (q1 & H1 & H2 & _); [reflexivity | by vm_compute | reflexivity |].
  exists q1. split; [exact H1 | exact H2].
Defined.

(** [insertItemData] of [src/lib/memory_cache.js] never removes a key: the
    keys before the insert are all there after it, in their order. *)
Lemma memory_cache_never_evicts {Item : Type} (fields : Item -> InspectURL.params)
    (it : Item) (p : option Z) (now : Z) (c : MemoryCache.t (Item := Item)) :
  JSMap.keys (MemoryCache.insertItemData fields it p now c)
  = (if decide (MemoryCache.generateKey (fields it) ∈ JSMap.keys c) then JSMap.keys c
     else JSMap.keys c ++ [MemoryCache.generateKey (fields it)]) /\
  (JSMap.size c <= JSMap.size (MemoryCache.insertItemData fields it p now c))%Z.
Proof.
  unfold MemoryCache.insertItemData. split; [apply jsmap_keys_set|].
  rewrite jsmap_size_set. destruct (decide _); lia.
Qed.

(** * Further properties *)

(** ** Scheduler: counters between callbacks *)

Section QueueSteady.

#[local] Open Scope Z_scope.
Import Queue.

Lemma elem_of_waiting_set_lane e p l pq :
  e ∈ waiting (set_lane p l pq) -> e ∈ l \/ e ∈ waiting pq.
Proof.
  rewrite !waiting_lanes. unfold set_lane.
  destruct p as [|[[|[]|]|[[]|[]|]|]|]; simpl; rewrite !elem_of_app; tauto.
Qed.

Lemma counted_checkQueue q :
  processingLock q = false -> counted q -> steady (checkQueue q).
Proof.
  intros Hlock (Hact & Hatt & Hem).
  destruct (checkQueue_spec q Hlock) as (Hh & Hw & Ha & _ & _ & Hsame & Hstop).
  destruct Hsame as (_ & _ & _ & Hp & Hf & Hb & He).
  set (k := Nat.min (slots q) (length (waiting (priorityQueues q)))) in *.
  split; [|exact Hstop]. split_and!.
  - rewrite Ha, Hact. unfold in_progress. rewrite Hh, Hp, Hf, length_app, length_take.
    unfold k. lia.
  - intros e. unfold outstanding. rewrite Hh, Hw, Hb. rewrite !elem_of_app.
    intros He'. apply Hatt. unfold outstanding. rewrite !elem_of_app.
    destruct He' as [H | [[H | H] | H]]; auto.
    + left. by eapply subseteq_drop.
    + left. by eapply subseteq_take.
  - by rewrite He.
Qed.


Lemma lane_waiting p pq l e : lane p pq = Some l -> e ∈ l -> e ∈ waiting pq.
Proof.
  rewrite waiting_lanes, !elem_of_app.
  destruct p as [|[[|[]|]|[[]|[]|]|]|]; simpl; intros [= <-]; tauto.
Qed.

Lemma attempts_ok_count err job :
  attempts_ok job ->
  let job' := count_attempt err job in
  if max_attempts job' <=? attempts job' then failed_ok (job', err) else attempts_ok job'.
Proof.
  intros Hok. unfold count_attempt, attempts_ok, failed_ok in *. destruct err as [|msg]; simpl.
  - destruct (max_attempts job <=? attempts job) eqn:Hm; [|done].
    apply Z.leb_le in Hm. intros Hone. exfalso. lia.
  - destruct (max_attempts job <=? attempts job + 1) eqn:Hm.
    + apply Z.leb_le in Hm. intros Hone. split; [lia | done].
    + apply Z.leb_gt in Hm. right. lia.
Qed.

Lemma steady_resolved i delay q q' :
  steady q -> on_resolved i delay q = Some q' -> steady q'.
Proof.
  intros ((Hact & Hatt & Hem) & Hstop). unfold on_resolved.
  destruct (handling q !! i) as [job|] eqn:Hi; [|discriminate].
  pose proof (lookup_lt_Some _ _ _ Hi) as Hlt.
  intros [= <-]. split; [|exact Hstop]. split_and!.
  - simpl. rewrite Hact. unfold in_progress. simpl.
    rewrite length_app, length_delete by eauto. simpl. lia.
  - intros e He. apply Hatt. unfold outstanding in *. simpl in He.
    rewrite !elem_of_app in *. destruct He as [H | [H | H]]; auto.
    right; left. by eapply list_elem_of_delete_inv.
  - exact Hem.
Qed.

Lemma steady_rejected i err q q' :
  steady q -> on_rejected i err q = Some q' -> steady q'.
Proof.
  intros ((Hact & Hatt & Hem) & Hstop). unfold on_rejected.
  destruct (handling q !! i) as [job|] eqn:Hi; [|discriminate].
  assert (attempts_ok job) as Hok.
  { apply Hatt. unfold outstanding. rewrite !elem_of_app. right; left.
    by eapply list_elem_of_lookup_2. }
  pose proof (attempts_ok_count err job Hok) as Hc. simpl in Hc.
  pose proof (lookup_lt_Some _ _ _ Hi) as Hlt.
  assert (forall e, e ∈ waiting (priorityQueues q) ++ delete i (handling q) ++
                        (snd <$> backoff q) -> attempts_ok e) as Hrest.
  { intros e He. apply Hatt. unfold outstanding. rewrite !elem_of_app in *.
    destruct He as [H | [H | H]]; auto. right; left. by eapply list_elem_of_delete_inv. }
  destruct (max_attempts (count_attempt err job) <=? attempts (count_attempt err job));
    intros [= <-]; (split; [|exact Hstop]); split_and!.
  - simpl. rewrite Hact. unfold in_progress. simpl. rewrite length_delete by eauto. lia.
  - exact Hrest.
  - intros x. simpl. rewrite elem_of_app, list_elem_of_singleton. intros [H | ->]; auto.
  - simpl. rewrite Hact. unfold in_progress. simpl. rewrite length_delete by eauto. lia.
  - intros e. unfold outstanding. simpl. rewrite fmap_app, !app_assoc, elem_of_app. simpl.
    intros [He | He].
    + apply Hrest. by rewrite !app_assoc.
    + by apply list_elem_of_singleton in He as ->.
  - exact Hem.
Qed.

Lemma steady_finally q :
  processingLock q = false ->
  activeJobsCount q - 1 = in_progress q ->
  (forall e, e ∈ outstanding q -> attempts_ok e) ->
  (forall x, x ∈ emitted q -> failed_ok x) ->
  steady (finally_ q).
Proof.
  intros Hlock Hact Hatt Hem. unfold finally_. set (q1 := with_active _ q).
  assert (counted q1) as Hc by (split_and!; done).
  destruct (running q1 && (0 <? size q1)) eqn:Hg.
  - by apply counted_checkQueue.
  - split; [done|]. unfold may_dispatch. by rewrite Hg.
Qed.

Lemma steady_paced i q q' :
  inv q -> steady q -> on_paced i q = Some q' -> steady q'.
Proof.
  intros (Hlock & _) ((Hact & Hatt & Hem) & _). unfold on_paced.
  destruct (pacing q !! i) as [d|] eqn:Hi; [|discriminate].
  pose proof (lookup_lt_Some _ _ _ Hi) as Hlt.
  intros [= <-]. apply steady_finally; try done.
  simpl. rewrite Hact. unfold in_progress. simpl. rewrite length_delete by eauto. lia.
Qed.

Lemma steady_finish q q' :
  inv q -> steady q -> on_finish q = Some q' -> steady q'.
Proof.
  intros (Hlock & _) ((Hact & Hatt & Hem) & _). unfold on_finish.
  destruct (finishing q) as [|n] eqn:Hn; [discriminate|].
  intros [= <-]. apply steady_finally; try done.
  simpl. rewrite Hact. unfold in_progress. simpl. rewrite Hn. lia.
Qed.

Lemma steady_backoff i q q' :
  inv q -> steady q -> on_backoff i q = Some q' -> steady q'.
Proof.
  intros (Hlock & _) ((Hact & Hatt & Hem) & _). unfold on_backoff.
  destruct (backoff q !! i) as [[delay job]|] eqn:Hi; [|discriminate].
  destruct (lane (priority job) (priorityQueues q)) as [w|] eqn:Hlane; [|discriminate].
  intros [= <-]. apply counted_checkQueue; [done|]. split_and!; [done | | done].
  intros e. unfold outstanding. simpl. rewrite !elem_of_app.
  intros He. apply Hatt. unfold outstanding. rewrite !elem_of_app.
  destruct He as [H | [H | H]]; auto.
  - apply elem_of_waiting_set_lane in H as [H | H]; [|by left].
    apply elem_of_cons in H as [-> | H].
    + right; right. apply list_elem_of_fmap. exists (delay, job).
      split; [done|]. by eapply list_elem_of_lookup_2.
    + left. by eapply lane_waiting.
  - right; right. rewrite list_fmap_delete in H. by eapply list_elem_of_delete_inv.
Qed.

Lemma counted_iter n q :
  processingLock q = false -> counted q ->
  processingLock (Nat.iter n checkQueue q) = false /\
  counted (Nat.iter n checkQueue q) /\
  ((0 < n)%nat -> may_dispatch (Nat.iter n checkQueue q) = false).
Proof.
  intros Hlock Hc. induction n as [|n (IH1 & IH2 & IH3)]; simpl.
  - split_and!; [done | done | lia].
  - destruct (counted_checkQueue _ IH1 IH2) as (Hc' & Hstop).
    destruct (checkQueue_spec _ IH1) as (_ & _ & _ & Hl & _).
    by split_and!.
Qed.

Lemma steady_tick ready q : inv q -> steady q -> steady (on_tick ready q).
Proof.
  intros (Hlock & _) (Hc & Hstop). unfold on_tick.
  destruct (concurrency q <? ready) eqn:Hg.
  - apply Z.ltb_lt in Hg.
    destruct (counted_iter (Z.to_nat (ready - concurrency q)) (with_concurrency ready q))
      as (_ & Hc' & Hstop'); [done | exact Hc |].
    split; [done|]. apply Hstop'. lia.
  - apply Z.ltb_ge in Hg. split; [exact Hc|].
    change (may_dispatch (with_concurrency ready q))
      with (running q && (0 <? size q) && (activeJobsCount q <? ready)).
    unfold may_dispatch in Hstop.
    destruct (running q); [|done]. destruct (0 <? size q); [|done]. simpl in *.
    apply Z.ltb_ge in Hstop. apply Z.ltb_ge. lia.
Qed.

Lemma steady_start q : inv q -> steady q -> steady (start q).
Proof.
  intros (Hlock & _) (Hc & Hstop). unfold start. destruct (running q); [done|].
  by apply counted_checkQueue.
Qed.

Lemma steady_pause q : steady q -> steady (pause q).
Proof.
  intros (Hc & Hstop). unfold pause. destruct (running q) eqn:Hr; [|done].
  split; [exact Hc | done].
Qed.

Lemma steady_enqueue_link caller m p l q q' :
  inv q -> steady q -> enqueue_link caller m p l q = Returned q' -> steady q'.
Proof.
  intros (Hlock & _) ((Hact & Hatt & Hem) & _). unfold enqueue_link.
  destruct (lane p (priorityQueues q)) as [w|] eqn:Hlane; [|discriminate].
  intros [= <-]. apply counted_checkQueue; [done|]. split_and!; [done | | done].
  intros e. unfold outstanding. simpl. rewrite !elem_of_app. intros He.
  destruct He as [H | H].
  - apply elem_of_waiting_set_lane in H as [H | H].
    + apply elem_of_app in H as [H | H].
      * apply Hatt. unfold outstanding. rewrite !elem_of_app. left. by eapply lane_waiting.
      * apply list_elem_of_singleton in H as ->. by left.
    + apply Hatt. unfold outstanding. rewrite !elem_of_app. by left.
  - apply Hatt. unfold outstanding. rewrite !elem_of_app. by right.
Qed.

Lemma lane_some p pq : 1 <= p <= 5 -> exists w, lane p pq = Some w.
Proof.
  intros Hp. assert (p = 1 \/ p = 2 \/ p = 3 \/ p = 4 \/ p = 5) as Hc by lia.
  destruct Hc as [-> | [-> | [-> | [-> | ->]]]]; by eexists.
Qed.

Lemma steady_addJob_loop caller m p links : forall q w,
  inv q -> JS.has caller (users q) = true -> lane p (priorityQueues q) = Some w ->
  steady q -> steady (state_of (addJob_loop caller m p links q)).
Proof.
  induction links as [|l links IH]; intros q w Hinv Hsome Hlane Hst; [done|].
  destruct (inv_enqueue_link caller m p l q w Hinv Hsome Hlane)
    as (q1 & Heq & Hinv1 & Hsome1 & _).
  simpl. rewrite Heq.
  destruct (lane_some p (priorityQueues q1)) as [w1 Hlane1]; [by eapply lane_range|].
  apply (IH q1 w1); try done.
  exact (steady_enqueue_link caller m p l q q1 Hinv Hst Heq).
Qed.

Lemma steady_addJob job m p q :
  inv q -> steady q -> steady (state_of (addJob job m p q)).
Proof.
  intros Hinv Hst. unfold addJob.
  destruct (inv_register (Job.ip job) q Hinv) as (Hinv0 & Hsome0 & Hpq & _).
  set (q0 := if JS.has (Job.ip job) (users q) then q else _) in *.
  assert (steady q0) as Hst0 by (unfold q0; by destruct (JS.has (Job.ip job) (users q))).
  destruct (lane p (priorityQueues q0)) as [w|] eqn:Hlane.
  - by eapply steady_addJob_loop.
  - destruct (Job.getRemainingLinks job) as [|l links]; simpl; [done|].
    unfold enqueue_link. by rewrite Hlane.
Qed.

Lemma steady_init c : steady (init c).
Proof.
  split; [split_and!|].
  - reflexivity.
  - intros e He. by apply elem_of_nil in He.
  - intros x Hx. by apply elem_of_nil in Hx.
  - reflexivity.
Qed.

Lemma steady_fire ev q q' : inv q -> steady q -> fire ev q = Some q' -> steady q'.
Proof.
  intros Hinv Hst. destruct ev as [job m p | i delay | i err | i | | i | ready | |]; simpl.
  - intros [= <-]. by apply steady_addJob.
  - by apply steady_resolved.
  - by apply steady_rejected.
  - by apply steady_paced.
  - by apply steady_finish.
  - by apply steady_backoff.
  - intros [= <-]. by apply steady_tick.
  - intros [= <-]. by apply steady_start.
  - intros [= <-]. by apply steady_pause.
Qed.

Lemma steady_run evs : forall q q', inv q -> steady q -> run evs q = Some q' -> steady q'.
Proof.
  induction evs as [|ev evs IH]; intros q q' Hinv Hst; simpl.
  - by intros [= <-].
  - destruct (fire ev q) as [q1|] eqn:Hf; [|discriminate].
    apply IH; [by eapply inv_fire | by eapply steady_fire].
Qed.

Lemma reachable_steady q : reachable q -> steady q.
Proof.
  intros (c & evs & Hrun). eapply steady_run; [apply inv_init | apply steady_init | exact Hrun].
Qed.

End QueueSteady.

(** ** Scheduler: what a callback may dispatch *)

Section QueueDispatch.

#[local] Open Scope Z_scope.
Import Queue.

Lemma within_refl q : within q q.
Proof. unfold within. split_and!; try done. lia. Qed.

Lemma within_trans q1 q2 q3 : within q1 q2 -> within q2 q3 -> within q1 q3.
Proof.
  intros (Hr & Hc & Ha & Hp) (Hr' & Hc' & Ha' & Hp'). split_and!; try congruence.
  - rewrite Hc in Ha'. lia.
  - intros Hoff. destruct (Hp Hoff) as (H1 & H2). rewrite Hr in Hp'.
    destruct (Hp' Hoff) as (H3 & H4). split; congruence.
Qed.

Lemma checkQueue_within q : processingLock q = false -> within q (checkQueue q).
Proof.
  intros Hlock. destruct (checkQueue_spec q Hlock) as (Hh & Hw & Ha & _ & _ & Hsame & _).
  destruct Hsame as (_ & Hr & Hc & _).
  split_and!; try done.
  - rewrite Ha. unfold slots. destruct (running q); lia.
  - intros Hoff. unfold slots in *. rewrite Hoff in *. simpl in *.
    rewrite Hh, Ha, app_nil_r. split; [done | lia].
Qed.

(** With no slot free, or paused, [checkQueue] returns the state it was
    given. *)
Lemma checkQueue_idle q :
  processingLock q = false -> may_dispatch q = false -> checkQueue q = q.
Proof.
  intros Hlock Hstop. unfold checkQueue. rewrite Hlock.
  assert (may_dispatch (with_lock true q) = false) as Hstop' by exact Hstop.
  destruct (Z.to_nat (size q)); simpl; rewrite ?Hstop';
    destruct q; simpl in *; by subst.
Qed.

Lemma iter_within n q :
  processingLock q = false ->
  processingLock (Nat.iter n checkQueue q) = false /\ within q (Nat.iter n checkQueue q).
Proof.
  intros Hlock. induction n as [|n (IH1 & IH2)]; simpl.
  - split; [done | apply within_refl].
  - destruct (checkQueue_spec _ IH1) as (_ & _ & _ & Hl & _).
    split; [done|]. eapply within_trans; [exact IH2|]. by apply checkQueue_within.
Qed.

Lemma addJob_loop_within caller m p links : forall q w,
  inv q -> JS.has caller (users q) = true -> lane p (priorityQueues q) = Some w ->
  within q (state_of (addJob_loop caller m p links q)).
Proof.
  induction links as [|l links IH]; intros q w Hinv Hsome Hlane; [apply within_refl|].
  destruct (inv_enqueue_link caller m p l q w Hinv Hsome Hlane)
    as (q1 & Heq & Hinv1 & Hsome1 & _).
  simpl. rewrite Heq.
  destruct (lane_some p (priorityQueues q1)) as [w1 Hlane1]; [by eapply lane_range|].
  eapply within_trans; [|by apply (IH q1 w1)].
  unfold enqueue_link in Heq. rewrite Hlane in Heq. injection Heq as <-.
  destruct Hinv as (Hlock & _).
  exact (checkQueue_within (with_users _ (with_lanes _ q)) Hlock).
Qed.

Lemma addJob_within job m p q : inv q -> within q (state_of (addJob job m p q)).
Proof.
  intros Hinv. unfold addJob.
  destruct (inv_register (Job.ip job) q Hinv) as (Hinv0 & Hsome0 & Hpq & _).
  set (q0 := if JS.has (Job.ip job) (users q) then q else _) in *.
  assert (within q q0) as H0.
  { unfold q0. destruct (JS.has (Job.ip job) (users q)); exact (within_refl q). }
  eapply within_trans; [exact H0|].
  destruct (lane p (priorityQueues q0)) as [w|] eqn:Hlane.
  - by eapply addJob_loop_within.
  - destruct (Job.getRemainingLinks job) as [|l links]; simpl; [apply within_refl|].
    unfold enqueue_link. rewrite Hlane. apply within_refl.
Qed.

Lemma finally_within q :
  processingLock q = false ->
  running (finally_ q) = running q /\ concurrency (finally_ q) = concurrency q /\
  activeJobsCount (finally_ q) <= Z.max (activeJobsCount q) (concurrency q) /\
  (running q = false ->
   handling (finally_ q) = handling q /\ activeJobsCount (finally_ q) <= activeJobsCount q).
Proof.
  intros Hlock. unfold finally_. set (q1 := with_active _ q).
  assert (activeJobsCount q1 = activeJobsCount q - 1) as Hq1 by reflexivity.
  assert (concurrency q1 = concurrency q) as Hq2 by reflexivity.
  destruct (running q1 && (0 <? size q1)).
  - destruct (checkQueue_within q1 Hlock) as (Hr & Hc & Ha & Hp).
    split_and!; [done | done | lia |].
    intros Hoff. destruct (Hp Hoff) as (H1 & H2). split; [done | lia].
  - split_and!; [done | done | lia |]. intros _. split; [done | lia].
Qed.

(** What one callback does to the dispatch state. *)
Lemma fire_dispatch ev q q' :
  inv q -> fire ev q = Some q' ->
  activeJobsCount q' <= Z.max (activeJobsCount q) (concurrency q') /\
  (running q = false -> ev <> Start ->
   running q' = false /\ sublist (handling q') (handling q) /\
   activeJobsCount q' <= activeJobsCount q).
Proof.
  intros Hinv. pose proof Hinv as (Hlock & _).
  destruct ev as [job m p | i delay | i err | i | | i | ready | |]; simpl.
  - intros [= <-]. destruct (addJob_within job m p q Hinv) as (Hr & Hc & Ha & Hp).
    split; [by rewrite Hc|]. intros Hoff _. destruct (Hp Hoff) as (H1 & H2).
    split_and!; [congruence | by rewrite H1 | lia].
  - unfold on_resolved. destruct (handling q !! i); [|discriminate]. intros [= <-]. simpl.
    split; [lia|]. intros Hoff _. split_and!; [done | apply sublist_delete | lia].
  - unfold on_rejected. destruct (handling q !! i) as [job|]; [|discriminate].
    destruct (max_attempts (count_attempt err job) <=? attempts (count_attempt err job));
      intros [= <-]; simpl; (split; [lia|]); intros Hoff _;
      split_and!; first [done | apply sublist_delete | lia].
  - unfold on_paced. destruct (pacing q !! i); [|discriminate]. intros [= <-].
    destruct (finally_within (with_pacing (delete i (pacing q)) q) Hlock)
      as (Hr & Hc & Ha & Hp). simpl in *.
    split; [by rewrite Hc|]. intros Hoff _. destruct (Hp Hoff) as (H1 & H2).
    split_and!; [congruence | by rewrite H1 | done].
  - unfold on_finish. destruct (finishing q) as [|n]; [discriminate|]. intros [= <-].
    destruct (finally_within (with_finishing n q) Hlock) as (Hr & Hc & Ha & Hp).
    simpl in *. split; [by rewrite Hc|]. intros Hoff _. destruct (Hp Hoff) as (H1 & H2).
    split_and!; [congruence | by rewrite H1 | done].
  - unfold on_backoff. destruct (backoff q !! i) as [[delay job]|]; [|discriminate].
    destruct (lane (priority job) (priorityQueues q)) as [w|]; [|discriminate].
    intros [= <-].
    destruct (checkQueue_within
                (with_lanes (set_lane (priority job) (job :: w) (priorityQueues q))
                   (with_backoff (delete i (backoff q)) q)) Hlock) as (Hr & Hc & Ha & Hp).
    simpl in *. split; [by rewrite Hc|]. intros Hoff _. destruct (Hp Hoff) as (H1 & H2).
    split_and!; [congruence | by rewrite H1 | lia].
  - intros [= <-]. unfold on_tick. destruct (concurrency q <? ready).
    + destruct (iter_within (Z.to_nat (ready - concurrency q)) (with_concurrency ready q) Hlock)
        as (_ & Hr & Hc & Ha & Hp). simpl in *.
      split; [by rewrite Hc|]. intros Hoff _. destruct (Hp Hoff) as (H1 & H2).
      split_and!; [congruence | by rewrite H1 | lia].
    + simpl. split; [lia|]. intros Hoff _. split_and!; [done | done | lia].
  - intros [= <-]. split; [|done]. unfold start. destruct (running q); [lia|].
    destruct (checkQueue_within (with_running true q) Hlock) as (Hr & Hc & Ha & Hp).
    simpl in *. by rewrite Hc.
  - intros [= <-]. unfold pause. destruct (running q) eqn:Hr; simpl.
    + split; [lia|]. intros Hoff. discriminate.
    + split; [lia|]. intros _ _. split_and!; [done | done | lia].
Qed.

End QueueDispatch.

(** ** Scheduler: counters, pause and retries *)

Section QueueExtras.

#[local] Open Scope Z_scope.
Import Queue.

Lemma addJob_loop_no_slot caller m p links : forall q w,
  processingLock q = false ->
  running q = false \/ concurrency q <= activeJobsCount q ->
  lane p (priorityQueues q) = Some w ->
  exists q', addJob_loop caller m p links q = Returned q' /\
    lane p (priorityQueues q') = Some (w ++ entries_of caller m p links) /\
    (forall p', p' <> p -> lane p' (priorityQueues q') = lane p' (priorityQueues q)) /\
    handling q' = handling q /\ size q' = size q + Z.of_nat (length links).
Proof.
  induction links as [|l links IH]; intros q w Hlock Hno Hlane; simpl.
  - exists q. rewrite app_nil_r. split_and!; try done. lia.
  - pose proof (lane_range _ _ _ Hlane) as Hp.
    unfold enqueue_link. rewrite Hlane.
    set (e := mkEntry l m 0 caller p).
    set (q2 := with_users _ _).
    assert (may_dispatch q2 = false) as Hstop.
    { unfold may_dispatch, q2. simpl. destruct Hno as [-> | Hfull]; [done|].
      apply andb_false_intro2. by apply Z.ltb_ge. }
    rewrite (checkQueue_idle q2 Hlock Hstop).
    destruct (IH q2 (w ++ [e])) as (q' & Heq & Hl & Hother & Hh & Hs);
      [done | exact Hno | by apply lane_set_lane_eq |].
    exists q'. split_and!; [done | | | done |].
    + rewrite Hl. by rewrite <- app_assoc.
    + intros p' Hne. rewrite Hother by done. by apply lane_set_lane_ne.
    + rewrite Hs. unfold size, q2. simpl. rewrite !lanes_size_waiting.
      assert (length (waiting (set_lane p (w ++ [e]) (priorityQueues q)))
              = S (length (waiting (priorityQueues q)))) as ->; [|lia].
      assert (p = 1 \/ p = 2 \/ p = 3 \/ p = 4 \/ p = 5) as Hc by lia.
      destruct Hc as [-> | [-> | [-> | [-> | ->]]]]; simpl in Hlane; injection Hlane as <-;
        rewrite !waiting_lanes; simpl; rewrite !length_app; simpl; lia.
Qed.

(** In every reachable state [getProcessingCount()] is the number of promise
    chains that have not reached the end of their [.finally]: handlers
    pending, resolved chains waiting out their delay, rejected chains about
    to finish. It is never negative. *)
Theorem processing_count_is_pending_chains (q : Queue.t) :
  reachable q ->
  getProcessingCount q = in_progress q /\ 0 <= getProcessingCount q.
Proof.
  intros Hreach. destruct (reachable_steady q Hreach) as ((Hact & _) & _).
  unfold getProcessingCount. rewrite Hact. split; [done|]. unfold in_progress. lia.
Qed.

(** Between callbacks the scheduler leaves no slot idle: while it runs and
    an entry waits in a lane, at least [concurrency] chains are in
    progress. *)
Theorem no_idle_slot_while_waiting (q : Queue.t) :
  reachable q -> running q = true -> 0 < size q ->
  concurrency q <= getProcessingCount q.
Proof.
  intros Hreach Hrun Hsize. destruct (reachable_steady q Hreach) as (_ & Hstop).
  unfold may_dispatch in Hstop. rewrite Hrun in Hstop.
  apply Z.ltb_lt in Hsize. rewrite Hsize in Hstop. simpl in Hstop.
  by apply Z.ltb_ge in Hstop.
Qed.

(** No callback raises the number of active jobs above the concurrency in
    force when it ends, unless the number was above it already (after the
    50 ms interval lowered the concurrency). *)
Theorem dispatch_respects_concurrency (q : Queue.t) (ev : event) (q' : Queue.t) :
  reachable q -> fire ev q = Some q' ->
  getProcessingCount q' <= Z.max (getProcessingCount q) (concurrency q').
Proof.
  intros Hreach Hfire.
  by destruct (fire_dispatch ev q q' (reachable_inv q Hreach) Hfire).
Qed.

(** After [pause()] nothing is handed to the handler until [start()]: every
    other callback leaves the scheduler paused, adds no pending handler call
    and does not raise the active count. Entries are still accepted and
    retried entries still return to their lanes. *)
Theorem paused_scheduler_dispatches_nothing (q : Queue.t) (ev : event) (q' : Queue.t) :
  reachable q -> running q = false -> ev <> Start -> fire ev q = Some q' ->
  running q' = false /\ sublist (handling q') (handling q) /\
  getProcessingCount q' <= getProcessingCount q.
Proof.
  intros Hreach Hoff Hev Hfire.
  destruct (fire_dispatch ev q q' (reachable_inv q Hreach) Hfire) as (_ & H). by apply H.
Qed.

(** Every ['job failed'] the scheduler has emitted for an entry that was
    enqueued with [max_attempts >= 1] carries exactly [max_attempts] counted
    attempts, and its error is not [NoBotsAvailable]. *)
Theorem job_failed_means_attempts_used_up (q : Queue.t) (job : entry) (err : error) :
  reachable q -> (job, err) ∈ emitted q -> 1 <= max_attempts job ->
  attempts job = max_attempts job /\ err <> NoBotsAvailable.
Proof.
  intros Hreach Hin Hone. destruct (reachable_steady q Hreach) as ((_ & _ & Hem) & _).
  destruct (Hem _ Hin Hone) as (Ha & Hn). simpl in *. split; [done|].
  intros ->. discriminate.
Qed.

(** A handler rejection with [NoBotsAvailable] never ends an entry that was
    enqueued with [max_attempts >= 1]: nothing is emitted, the caller's count
    stays, and the entry goes behind a backoff timer with its attempts as
    they were. For an entry without a counted failure the timer is 500 ms
    ([1000 * 2^-1]). *)
Theorem no_bots_available_is_retried_without_limit (q : Queue.t) (i : nat) (job : entry) :
  reachable q -> handling q !! i = Some job -> 1 <= max_attempts job ->
  exists q',
    on_rejected i NoBotsAvailable q = Some q' /\
    emitted q' = emitted q /\ users q' = users q /\
    backoff q' = backoff q ++ [(backoffDelay (attempts job), job)] /\
    (attempts job = 0 -> (backoffDelay (attempts job) == 500)%Q).
Proof.
  intros Hreach Hi Hone. destruct (reachable_steady q Hreach) as ((_ & Hatt & _) & _).
  assert (attempts_ok job) as Hok.
  { apply Hatt. unfold outstanding. rewrite !elem_of_app. right; left.
    by eapply list_elem_of_lookup_2. }
  unfold on_rejected. rewrite Hi.
  change (count_attempt NoBotsAvailable job) with job.
  assert ((max_attempts job <=? attempts job) = false) as ->.
  { apply Z.leb_gt. destruct Hok; lia. }
  eexists. split; [reflexivity|]. split_and!; [reflexivity | reflexivity | reflexivity |].
  intros ->. by vm_compute.
Qed.

(** While the scheduler is paused or every slot is taken, [addJob] returns
    with one entry per link appended to the tail of the lane of the given
    priority, in the order of the links and with [attempts = 0]; the other
    lanes and the pending handler calls are as before. *)
Theorem addJob_appends_when_no_slot (job : Job.t) (m p : Z) (q : Queue.t)
    (w : list entry) :
  reachable q ->
  running q = false \/ concurrency q <= activeJobsCount q ->
  lane p (priorityQueues q) = Some w ->
  exists q',
    addJob job m p q = Returned q' /\
    lane p (priorityQueues q')
    = Some (w ++ entries_of (Job.ip job) m p (Job.getRemainingLinks job)) /\
    (forall p', p' <> p -> lane p' (priorityQueues q') = lane p' (priorityQueues q)) /\
    handling q' = handling q /\
    size q' = size q + Job.remainingSize job.
Proof.
  intros Hreach Hno Hlane. destruct (reachable_inv q Hreach) as (Hlock & _).
  unfold addJob.
  set (q0 := if JS.has (Job.ip job) (users q) then q else _).
  assert (processingLock q0 = false /\ running q0 = running q /\
          concurrency q0 = concurrency q /\ activeJobsCount q0 = activeJobsCount q /\
          priorityQueues q0 = priorityQueues q /\ handling q0 = handling q)
    as (H1 & H2 & H3 & H4 & H5 & H6).
  { unfold q0. by destruct (JS.has (Job.ip job) (users q)). }
  destruct (addJob_loop_no_slot (Job.ip job) m p (Job.getRemainingLinks job) q0 w)
    as (q' & Heq & Hl & Hother & Hh & Hs).
  - done.
  - rewrite H2, H3, H4. exact Hno.
  - by rewrite H5.
  - exists q'. rewrite Heq, Hl, Hh, H6, Hs. unfold size. rewrite H5.
    split_and!; try done. intros p' Hne. rewrite Hother by done. by rewrite H5.
Qed.

(** [addJob] with a priority outside 1..5 enqueues nothing and dispatches
    nothing, and [getUserQueuedAmt] reads as before for every caller; when
    the job has a link it raises at the first one. *)
Theorem addJob_bad_priority_enqueues_nothing (job : Job.t) (m p : Z) (q : Queue.t) :
  p < 1 \/ 5 < p ->
  let o := addJob job m p q in
  priorityQueues (state_of o) = priorityQueues q /\
  handling (state_of o) = handling q /\
  (forall c, getUserQueuedAmt c (state_of o) = getUserQueuedAmt c q) /\
  (Job.getRemainingLinks job <> [] -> exists q', o = Threw q').
Proof.
  intros Hp. simpl. unfold addJob.
  set (q0 := if JS.has (Job.ip job) (users q) then q else _).
  assert (priorityQueues q0 = priorityQueues q /\ handling q0 = handling q /\
          forall c, getUserQueuedAmt c q0 = getUserQueuedAmt c q) as (H1 & H2 & H3).
  { unfold q0. destruct (JS.has (Job.ip job) (users q)) eqn:Hu; [done|].
    split_and!; [done | done |]. intros c. unfold getUserQueuedAmt. simpl.
    unfold JS.has in Hu. destruct (users q !! Job.ip job) eqn:Hown; [discriminate|].
    destruct (decide (Job.ip job = c)) as [<- | Hne].
    - rewrite (get_own _ (JS.Num 0)) by by apply lookup_set_eq.
      by rewrite get_undefined.
    - unfold JS.get. by rewrite lookup_set_ne. }
  assert (lane p (priorityQueues q0) = None) as Hlane.
  { destruct (lane p (priorityQueues q0)) as [w|] eqn:Hl; [|done].
    apply lane_range in Hl. lia. }
  destruct (Job.getRemainingLinks job) as [|l links]; simpl.
  - split_and!; try done.
  - unfold enqueue_link. rewrite Hlane. simpl. split_and!; try done. intros _. by eexists.
Qed.

Lemma processing_count_is_pending_chains_witness :
  reachable Scenario.two_in_flight /\
  getProcessingCount Scenario.two_in_flight = 2 /\
  getProcessingCount Scenario.two_in_flight = in_progress Scenario.two_in_flight.
Proof.
  assert (reachable Scenario.two_in_flight) as Hreach.
  { exists 2, [Start; AddJob (Scenario.job_of "9.9.9.9" "7") 3 4;
               AddJob (Scenario.job_of "9.9.9.9" "8") 3 4]. by vm_compute. }
  split; [exact Hreach|]. split; [reflexivity|].
  apply (processing_count_is_pending_chains Scenario.two_in_flight Hreach).
Defined.

Lemma three_waiting_reachable : reachable Scenario.three_waiting.
Proof.
  exists 0, [Start; AddJob (Scenario.job_of "10.0.0.1" "1") 3 5;
             AddJob (Scenario.job_of "10.0.0.2" "2") 3 3;
             AddJob (Scenario.job_of "10.0.0.3" "3") 3 1]. by vm_compute.
Defined.

Lemma one_in_flight_reachable : reachable Scenario.one_in_flight.
Proof. exists 1, [Start; AddJob (Scenario.job_of "9.9.9.9" "7") 3 4]. by vm_compute. Defined.

Lemma one_busy_one_waiting_reachable : reachable Scenario.one_busy_one_waiting.
Proof.
  exists 1, [Start; AddJob (Scenario.job_of "10.0.0.1" "1") 3 4;
             AddJob (Scenario.job_of "10.0.0.2" "2") 3 4]. by vm_compute.
Defined.

Lemma no_idle_slot_while_waiting_witness :
  reachable Scenario.one_busy_one_waiting /\
  running Scenario.one_busy_one_waiting = true /\
  size Scenario.one_busy_one_waiting = 1 /\
  concurrency Scenario.one_busy_one_waiting = 1 /\
  length (handling Scenario.one_busy_one_waiting) = 1%nat /\
  concurrency Scenario.one_busy_one_waiting
  <= getProcessingCount Scenario.one_busy_one_waiting.
Proof.
  split_and!; [exact one_busy_one_waiting_reachable | reflexivity | reflexivity
               | reflexivity | reflexivity |].
  apply (no_idle_slot_while_waiting Scenario.one_busy_one_waiting
           one_busy_one_waiting_reachable); reflexivity.
Defined.

Lemma dispatch_respects_concurrency_witness :
  reachable Scenario.one_in_flight /\
  exists q', fire (AddJob (Scenario.job_of "9.9.9.9" "8") 3 1) Scenario.one_in_flight = Some q' /\
    size q' = 1 /\
    getProcessingCount q' <= Z.max (getProcessingCount Scenario.one_in_flight) (concurrency q').
Proof.
  split; [exact one_in_flight_reachable|]. eexists. split; [reflexivity|].
  split; [reflexivity|].
  apply (dispatch_respects_concurrency Scenario.one_in_flight
           (AddJob (Scenario.job_of "9.9.9.9" "8") 3 1) _ one_in_flight_reachable).
  reflexivity.
Defined.

Lemma paused_scheduler_dispatches_nothing_witness :
  reachable (init 1) /\ running (init 1) = false /\
  exists q', fire (AddJob (Scenario.job_of "9.9.9.9" "7") 3 4) (init 1) = Some q' /\
    size q' = 1 /\ running q' = false /\ sublist (handling q') (handling (init 1)).
Proof.
  assert (reachable (init 1)) as Hreach by (exists 1, []; reflexivity).
  split; [exact Hreach|]. split; [reflexivity|]. eexists. split; [reflexivity|].
  split; [reflexivity|].
  destruct (paused_scheduler_dispatches_nothing (init 1)
              (AddJob (Scenario.job_of "9.9.9.9" "7") 3 4) _ Hreach eq_refl
              ltac:(discriminate) eq_refl) as (H1 & H2 & _).
  by split.
Defined.

Lemma job_failed_means_attempts_used_up_witness :
  reachable Scenario.one_failed /\
  emitted Scenario.one_failed
  = [(mkEntry (Scenario.link_of "7") 1 1 "9.9.9.9" 4, OtherError "Request timeout")] /\
  attempts (mkEntry (Scenario.link_of "7") 1 1 "9.9.9.9" 4) = 1.
Proof.
  assert (reachable Scenario.one_failed) as Hreach.
  { exists 1, [Start; AddJob (Scenario.job_of "9.9.9.9" "7") 1 4;
               Rejected 0 (OtherError "Request timeout")]. by vm_compute. }
  split; [exact Hreach|]. split; [reflexivity|].
  refine (proj1 (job_failed_means_attempts_used_up Scenario.one_failed
                   (mkEntry (Scenario.link_of "7") 1 1 "9.9.9.9" 4)
                   (OtherError "Request timeout") Hreach _ _)).
  - apply list_elem_of_singleton. reflexivity.
  - simpl. lia.
Defined.

Lemma no_bots_available_is_retried_without_limit_witness :
  reachable Scenario.one_in_flight /\
  handling Scenario.one_in_flight !! 0%nat = Some Scenario.in_flight_entry /\
  exists q',
    on_rejected 0 NoBotsAvailable Scenario.one_in_flight = Some q' /\
    emitted q' = [] /\
    (backoffDelay (attempts Scenario.in_flight_entry) == 500)%Q.
Proof.
  split; [exact one_in_flight_reachable|]. split; [reflexivity|].
  destruct (no_bots_available_is_retried_without_limit Scenario.one_in_flight 0
              Scenario.in_flight_entry one_in_flight_reachable eq_refl)
    as (q' & H1 & H2 & _ & _ & H5); [simpl; lia|].
  exists q'. split_and!; [exact H1 | exact H2 | by apply H5].
Defined.

Lemma addJob_appends_when_no_slot_witness :
  reachable Scenario.three_waiting /\
  exists q',
    addJob (Scenario.job_of "10.0.0.4" "4") 3 3 Scenario.three_waiting = Returned q' /\
    lane 3 (priorityQueues q')
    = Some (lane3 (priorityQueues Scenario.three_waiting) ++
            [mkEntry (Scenario.link_of "4") 3 0 "10.0.0.4" 3]).
Proof.
  split; [exact three_waiting_reachable|].
  destruct (addJob_appends_when_no_slot (Scenario.job_of "10.0.0.4" "4") 3 3
              Scenario.three_waiting (lane3 (priorityQueues Scenario.three_waiting))
              three_waiting_reachable)
    as (q' & H1 & H2 & _); [right; vm_compute; discriminate | reflexivity |].
  exists q'. split; [exact H1 | exact H2].
Defined.

Lemma addJob_bad_priority_enqueues_nothing_witness :
  (0 < 1 \/ 5 < 0) /\
  exists q', addJob (Scenario.job_of "10.0.0.4" "4") 3 0 Scenario.three_waiting = Threw q' /\
    priorityQueues q' = priorityQueues Scenario.three_waiting.
Proof.
  split; [left; lia|].
  destruct (addJob_bad_priority_enqueues_nothing (Scenario.job_of "10.0.0.4" "4") 3 0
              Scenario.three_waiting) as (H1 & _ & _ & H4); [left; lia|].
  destruct H4 as [q' Hq']; [discriminate|].
  exists q'. split; [exact Hq'|]. rewrite Hq' in H1. exact H1.
Defined.

End QueueExtras.

(** ** Bot dispatcher: counters, order and the log of settlements *)

Section BotBooks.

#[local] Open Scope Z_scope.
Import Bot.

(** What each operation of the dispatcher does to the queue, the log and the
    current request. *)
Lemma handleRequestError_effect msg b :
  let b' := handleRequestError msg b in
  sent b' = sent b /\ requestQueue b' = requestQueue b /\
  isShuttingDown b' = isShuttingDown b /\
  activeRequests b' = Z.max 0 (activeRequests b - 1) /\
  match resolve b, currentRequest b with
  | Some _, Some req =>
      settled b' = settled b ++ [(promise req, Rejected msg)] /\ currentRequest b' = None
  | _, _ => settled b' = settled b /\ currentRequest b' = currentRequest b
  end.
Proof.
  destruct b as [cfg bs rd sh q a l res cur ttl armed nt dt np snt st].
  unfold handleRequestError, clear_ttl. simpl.
  destruct ttl, res, cur; simpl; by split_and!.
Qed.

Lemma handleInspectResponse_effect info now b :
  let b' := handleInspectResponse info now b in
  sent b' = sent b /\ requestQueue b' = requestQueue b /\
  isShuttingDown b' = isShuttingDown b /\
  (b' = b \/
   exists res req r,
     resolve b = Some res /\ currentRequest b = Some req /\
     settled b' = settled b ++ [(res, Resolved r)] /\ currentRequest b' = None /\
     activeRequests b' = activeRequests b - 1).
Proof.
  destruct b as [cfg bs rd sh q a l res cur ttl armed nt dt np snt st].
  unfold handleInspectResponse, clear_ttl. simpl.
  destruct res as [res|], cur as [req|]; try (by split_and!; try left).
  destruct (props info !! "itemid"%string) as [[| | |itemid|]|];
    try (by split_and!; try left).
  destruct (decide (itemid = InspectURL.a (params req))); [|by split_and!; try left].
  destruct ttl; simpl; (split_and!; [done | done | done |]); right;
    eexists _, _, _; by split_and!.
Qed.

Lemma processRequestQueue_effect now gc_ok b :
  let b' := processRequestQueue now gc_ok b in
  b' = b \/
  exists req rest,
    requestQueue b = req :: rest /\ busy b = false /\ isShuttingDown b = false /\
    requestQueue b' = rest /\ isShuttingDown b' = false /\
    if gc_ok then
      sent b' = sent b ++ [req] /\ settled b' = settled b /\
      currentRequest b' = Some req /\ activeRequests b' = activeRequests b + 1
    else
      sent b' = sent b /\
      settled b' = settled b ++ [(promise req, Rejected "inspectItem raised")] /\
      currentRequest b' = None /\
      activeRequests b' = Z.max 0 (activeRequests b + 1 - 1).
Proof.
  destruct b as [cfg bs rd sh q a l res cur ttl armed nt dt np snt st].
  unfold processRequestQueue. simpl.
  destruct sh; [by left|]. destruct bs; [by left|]. destruct rd; [|by left]. simpl.
  destruct q as [|req rest]; [by left|].
  destruct (max_concurrent_requests cfg <=? a); [by left|].
  destruct (negb (canProcessRequest now _)); [by left|].
  right. exists req, rest. unfold executeRequest, handleRequestError, clear_ttl.
  destruct gc_ok, ttl; simpl; by split_and!.
Qed.

Lemma sendFloatRequest_effect link now b :
  let b' := sendFloatRequest link now b in
  sent b' = sent b /\ isShuttingDown b' = isShuttingDown b /\
  currentRequest b' = currentRequest b /\ activeRequests b' = activeRequests b /\
  ttl_armed b' = ttl_armed b /\
  ((exists msg, settled b' = settled b ++ [(next_promise b, Rejected msg)] /\
                requestQueue b' = requestQueue b) \/
   (isShuttingDown b = false /\ settled b' = settled b /\
    requestQueue b' = requestQueue b ++ [mkRequest link now (next_promise b)])).
Proof.
  destruct b as [cfg bs rd sh q a l res cur ttl armed nt dt np snt st].
  unfold sendFloatRequest. simpl.
  destruct sh; simpl; [split_and!; try done; left; by eexists|].
  destruct rd; simpl; split_and!; try done; [by right | left; by eexists].
Qed.

Lemma destroy_effect b :
  let b' := destroy b in
  sent b' = sent b /\ isShuttingDown b' = true /\ requestQueue b' = [] /\
  currentRequest b' = currentRequest b /\ activeRequests b' = activeRequests b /\
  ttlTimeout b' = None /\
  settled b'
  = settled b ++ ((fun req => (promise req, Rejected "Bot destroyed")) <$> requestQueue b).
Proof.
  destruct b as [cfg bs rd sh q a l res cur ttl armed nt dt np snt st].
  unfold destroy, clear_ttl. simpl. destruct ttl; simpl; by split_and!.
Qed.

Lemma sorted_without_middle (l1 l2 : list nat) (x : nat) :
  StronglySorted lt (l1 ++ x :: l2) -> StronglySorted lt (l1 ++ l2).
Proof.
  intros H. apply StronglySorted_app in H as (Hlt & H1 & H2).
  apply StronglySorted_app_2; [|done|by inversion H2].
  intros x1 x2 Hx1 Hx2. apply Hlt; [done | by right].
Qed.

(** What [bot_inv] says about the current request. *)
Lemma current_unsettled b r :
  bot_inv b -> currentRequest b = Some r ->
  resolve b = Some (promise r) /\ busy b = true /\ promise r ∉ (settled b).*1.
Proof.
  intros (Hres & Hcur & _) Hc. rewrite Hc in Hres, Hcur. destruct Hcur as (Hb & _ & Hout & _).
  split_and!; [done | done |].
  assert (r ∈ outstanding b) as Hin by (rewrite Hout; left).
  unfold outstanding in Hin. by apply list_elem_of_filter in Hin as [Hin _].
Qed.

Lemma bot_books_init cfg : bot_books (init cfg).
Proof. split_and!; [done | apply NoDup_nil_2 | constructor]. Qed.

Lemma bot_books_error msg b r :
  bot_books b -> resolve b = Some (promise r) -> currentRequest b = Some r ->
  promise r ∉ (settled b).*1 ->
  bot_books (handleRequestError msg b).
Proof.
  intros (Hact & Hnd & Hord) Hres Hc Hnew.
  destruct (handleRequestError_effect msg b) as (Hs & Hq & _ & Ha & Hst).
  rewrite Hres, Hc in Hst. destruct Hst as (Hst & Hc').
  unfold bot_books, in_order. rewrite Hs, Hq, Ha, Hst, Hc', Hact, Hc.
  split_and!; [done | | done].
  rewrite fmap_app. apply NoDup_app. split_and!; [done | | apply NoDup_singleton].
  intros p Hp Hp'. simpl in Hp'. apply list_elem_of_singleton in Hp' as ->. done.
Qed.

Lemma bot_books_process now gc_ok b :
  bot_inv b -> bot_books b -> bot_books (processRequestQueue now gc_ok b).
Proof.
  intros Hinv Hbooks. pose proof Hbooks as (Hact & Hnd & Hord).
  pose proof Hinv as (Hres & Hcur & Hqnd & Hq & Hsent & Hsettled).
  destruct (processRequestQueue_effect now gc_ok b)
    as [-> | (req & rest & Hqueue & Hbusy & _ & Hrest & _ & Hcase)]; [done|].
  assert (currentRequest b = None) as Hnone.
  { destruct (currentRequest b) as [r|] eqn:Hc; [|done].
    destruct (current_unsettled b r Hinv Hc) as (_ & Hb & _). congruence. }
  rewrite Hnone in Hact. unfold in_order in Hord. rewrite Hqueue in Hord.
  destruct gc_ok.
  - destruct Hcase as (Hs & Hst & Hc & Ha).
    unfold bot_books, in_order. rewrite Hs, Hst, Hc, Ha, Hrest, Hact.
    split_and!; [done | done |]. by rewrite <- app_assoc.
  - destruct Hcase as (Hs & Hst & Hc & Ha).
    unfold bot_books, in_order. rewrite Hs, Hst, Hc, Ha, Hrest, Hact.
    split_and!; [done | |].
    + rewrite fmap_app. apply NoDup_app. split_and!; [done | | apply NoDup_singleton].
      intros p Hp Hp'. simpl in Hp'. apply list_elem_of_singleton in Hp' as ->.
      destruct (Hq req) as (_ & Hn & _); [rewrite Hqueue; left | done].
    + rewrite fmap_app in *. simpl in Hord. by eapply sorted_without_middle.
Qed.

Lemma bot_books_fire ev b b' :
  bot_inv b -> bot_books b -> fire ev b = Some b' -> bot_books b'.
Proof.
  intros Hinv Hbooks. pose proof Hbooks as (Hact & Hnd & Hord).
  pose proof Hinv as (Hres & Hcur & Hqnd & Hq & Hsent & Hsettled).
  destruct ev as [link now | now gc_ok | info now | h | k | now gc_ok | |]; simpl.
  - intros [= <-].
    destruct (sendFloatRequest_effect link now b) as (Hs & _ & Hc & Ha & _ & Hcase).
    unfold bot_books, in_order. rewrite Hs, Hc, Ha.
    destruct Hcase as [(msg & Hst & Hqueue) | (_ & Hst & Hqueue)]; rewrite Hst, Hqueue.
    + split_and!; [done | | done].
      rewrite fmap_app. apply NoDup_app. split_and!; [done | | apply NoDup_singleton].
      intros p Hp Hp'. simpl in Hp'. apply list_elem_of_singleton in Hp' as ->.
      specialize (Hsettled _ Hp). lia.
    + split_and!; [done | done |].
      rewrite app_assoc, fmap_app. apply StronglySorted_app_2; [|done|repeat constructor].
      intros x1 x2 Hx1 Hx2. simpl in Hx2. apply list_elem_of_singleton in Hx2 as ->.
      apply list_elem_of_fmap in Hx1 as (r & -> & Hr).
      apply elem_of_app in Hr as [Hr | Hr]; [by apply Hsent | by apply Hq].
  - intros [= <-]. by apply bot_books_process.
  - intros [= <-]. destruct (handleInspectResponse_effect info now b)
      as (Hs & Hqueue & _ & [-> | (res & req & r & Hr & Hc & Hst & Hc' & Ha)]); [done|].
    destruct (current_unsettled b req Hinv Hc) as (Hres' & _ & Hnew).
    rewrite Hr in Hres'. injection Hres' as ->.
    unfold bot_books, in_order. rewrite Hs, Hqueue, Hst, Hc', Ha, Hact, Hc.
    split_and!; [done | | done].
    rewrite fmap_app. apply NoDup_app. split_and!; [done | | apply NoDup_singleton].
    intros p Hp Hp'. simpl in Hp'. apply list_elem_of_singleton in Hp' as ->. done.
  - destruct (decide (h ∈ ttl_armed b)) as [Hh|]; [|discriminate]. intros [= <-].
    destruct (currentRequest b) as [r|] eqn:Hc.
    2:{ destruct Hcur as (_ & Harmed & _). rewrite Harmed in Hh. by apply elem_of_nil in Hh. }
    destruct (current_unsettled b r Hinv) as (Hres' & _ & Hnew); [by rewrite Hc|].
    apply (bot_books_error _ _ r); done.
  - destruct (delay_timers b !! k); [|discriminate]. by intros [= <-].
  - intros [= <-]. apply bot_books_process; [by apply bot_inv_ready | exact Hbooks].
  - by intros [= <-].
  - intros [= <-]. destruct (destroy_effect b) as (Hs & _ & Hqueue & Hc & Ha & _ & Hst).
    unfold bot_books, in_order. rewrite Hs, Hqueue, Hc, Ha, Hst.
    split_and!; [done | |].
    + rewrite fmap_app, <- list_fmap_compose. apply NoDup_app. split_and!; [done | | done].
      intros p Hp Hp'. apply list_elem_of_fmap in Hp' as (r & -> & Hr). simpl in Hp.
      by destruct (Hq r Hr) as (_ & Hn & _).
    + unfold in_order in Hord. rewrite fmap_app in Hord. rewrite app_nil_r.
      by eapply StronglySorted_app_1_l.
Qed.

Lemma bot_books_run evs : forall b b',
  bot_inv b -> bot_books b -> run evs b = Some b' -> bot_books b'.
Proof.
  induction evs as [|ev evs IH]; intros b b' Hinv Hbooks; simpl.
  - by intros [= <-].
  - destruct (fire ev b) as [b1|] eqn:Hf; [|discriminate].
    apply IH; [by eapply bot_inv_fire | by eapply bot_books_fire].
Qed.

Lemma bot_reachable_books b : reachable b -> bot_books b.
Proof.
  intros (cfg & evs & Hrun).
  eapply bot_books_run; [apply bot_inv_init | apply bot_books_init | exact Hrun].
Qed.

End BotBooks.

(** ** Bot dispatcher: after [destroy] *)

Section BotShutdown.

#[local] Open Scope Z_scope.
Import Bot.

Lemma down_fire ev b b' :
  isShuttingDown b = true -> requestQueue b = [] -> fire ev b = Some b' ->
  isShuttingDown b' = true /\ requestQueue b' = [] /\ sent b' = sent b /\
  settled b `prefix_of` settled b'.
Proof.
  intros Hdown Hqueue.
  destruct ev as [link now | now gc_ok | info now | h | k | now gc_ok | |]; simpl.
  - intros [= <-].
    destruct (sendFloatRequest_effect link now b) as (Hs & Hsh & _ & _ & _ & Hcase).
    destruct Hcase as [(msg & Hst & Hq) | (Hup & _)]; [|congruence].
    rewrite Hs, Hsh, Hq, Hst. split_and!; try done. by apply prefix_app_r.
  - intros [= <-]. destruct (processRequestQueue_effect now gc_ok b)
      as [-> | (req & rest & _ & _ & Hup & _)]; [done | congruence].
  - intros [= <-]. destruct (handleInspectResponse_effect info now b)
      as (Hs & Hq & Hsh & [-> | (res & req & r & _ & _ & Hst & _)]); [done|].
    rewrite Hs, Hq, Hsh, Hst. split_and!; try done. by apply prefix_app_r.
  - destruct (decide (h ∈ ttl_armed b)); [|discriminate]. intros [= <-].
    set (b1 := with_ttl _ _ _ b).
    destruct (handleRequestError_effect "Request timeout" b1) as (Hs & Hq & Hsh & _ & Hst).
    rewrite Hs, Hq, Hsh. split_and!; try done.
    change (settled b) with (settled b1).
    destruct (resolve b1), (currentRequest b1); destruct Hst as (-> & _);
      first [done | by apply prefix_app_r].
  - destruct (delay_timers b !! k); [|discriminate]. intros [= <-]. by split_and!.
  - intros [= <-]. destruct (processRequestQueue_effect now gc_ok (with_ready true b))
      as [-> | (req & rest & _ & _ & Hup & _)]; [by split_and! | simpl in Hup; congruence].
  - intros [= <-]. by split_and!.
  - intros [= <-]. destruct (destroy_effect b) as (Hs & Hsh & Hq & _ & _ & _ & Hst).
    rewrite Hs, Hsh, Hq, Hst, Hqueue. simpl. rewrite app_nil_r. by split_and!.
Qed.

Lemma down_run evs : forall b b',
  isShuttingDown b = true -> requestQueue b = [] -> run evs b = Some b' ->
  isShuttingDown b' = true /\ requestQueue b' = [] /\ sent b' = sent b /\
  settled b `prefix_of` settled b'.
Proof.
  induction evs as [|ev evs IH]; intros b b' Hdown Hqueue; simpl.
  - intros [= <-]. by split_and!.
  - destruct (fire ev b) as [b1|] eqn:Hf; [|discriminate]. intros Hrun.
    destruct (down_fire ev b b1 Hdown Hqueue Hf) as (H1 & H2 & H3 & H4).
    destruct (IH b1 b' H1 H2 Hrun) as (H1' & H2' & H3' & H4').
    split_and!; [done | done | congruence | by etrans].
Qed.

Lemma abandoned_destroy r b :
  bot_inv b -> currentRequest b = Some r -> abandoned r (destroy b).
Proof.
  intros Hinv Hc. pose proof (bot_inv_destroy b Hinv) as (_ & Hcur & _).
  destruct (destroy_effect b) as (_ & Hsh & Hq & Hc' & _ & Httl & _).
  rewrite Hc', Hc in Hcur. destruct Hcur as (_ & _ & Hout & Harmed).
  unfold abandoned. rewrite Hc', Hc. split_and!; try done.
  destruct Harmed as [[Ha _] | (h & _ & Hh)]; [done | congruence].
Qed.

Lemma abandoned_fire r ev b b' :
  bot_inv b -> abandoned r b -> is_answer ev = false -> fire ev b = Some b' ->
  abandoned r b'.
Proof.
  intros Hinv Hab Hev. pose proof Hab as (Hdown & Hqueue & Harmed & Hc & Hout).
  pose proof Hinv as (Hres & Hcur & Hqnd & Hq & Hsent & Hsettled).
  destruct ev as [link now | now gc_ok | info now | h | k | now gc_ok | |];
    simpl in *; try discriminate.
  - intros [= <-].
    destruct (sendFloatRequest_effect link now b) as (Hs & Hsh & Hc' & _ & Ha & Hcase).
    destruct Hcase as [(msg & Hst & Hq') | (Hup & _)]; [|congruence].
    unfold abandoned. rewrite Hsh, Hq', Ha, Hc'. split_and!; try done.
    rewrite outstanding_unsettled, Hs, Hst, unsettled_others; [done|].
    intros r0 Hr0. simpl. rewrite list_elem_of_singleton.
    specialize (Hsent r0 Hr0). lia.
  - intros [= <-]. destruct (processRequestQueue_effect now gc_ok b)
      as [-> | (req & rest & _ & _ & Hup & _)]; [done | congruence].
  - rewrite Harmed. destruct (decide (h ∈ [])) as [Hh|]; [|discriminate].
    by apply elem_of_nil in Hh.
  - rewrite Hc in Hcur. destruct Hcur as (_ & -> & _). discriminate.
  - intros [= <-]. destruct (processRequestQueue_effect now gc_ok (with_ready true b))
      as [-> | (req & rest & _ & _ & Hup & _)]; [done | simpl in Hup; congruence].
  - by intros [= <-].
  - intros [= <-]. by apply abandoned_destroy.
Qed.

Lemma abandoned_run r evs : forall b b',
  bot_inv b -> abandoned r b -> Forall (fun ev => is_answer ev = false) evs ->
  run evs b = Some b' -> abandoned r b'.
Proof.
  induction evs as [|ev evs IH]; intros b b' Hinv Hab Hall; simpl.
  - by intros [= <-].
  - apply Forall_cons in Hall as [Hev Hall].
    destruct (fire ev b) as [b1|] eqn:Hf; [|discriminate].
    apply IH; [by eapply bot_inv_fire | by eapply abandoned_fire | done].
Qed.

(** In every reachable state [activeRequests] is 1 while a request is
    current and 0 otherwise; an idle bot has none. The counter therefore
    never passes 1, and the test against [max_concurrent_requests] in
    [processRequestQueue] can only hold back a bot whose limit is below 1. *)
Theorem active_requests_mirror_current_request (b : Bot.t) :
  reachable b ->
  activeRequests b = (match currentRequest b with Some _ => 1 | None => 0 end) /\
  (busy b = false -> activeRequests b = 0) /\
  (busy b = false -> 1 <= max_concurrent_requests (config b) ->
   (max_concurrent_requests (config b) <=? activeRequests b) = false).
Proof.
  intros Hreach. destruct (bot_reachable_books b Hreach) as (Hact & _).
  assert (busy b = false -> activeRequests b = 0) as Hidle.
  { intros Hidle. rewrite Hact.
    destruct (currentRequest b) as [r|] eqn:Hc; [|done].
    destruct (current_unsettled b r (bot_reachable_inv b Hreach) Hc) as (_ & Hb & _).
    congruence. }
  split_and!; [done | done |].
  intros Hb Hone. rewrite (Hidle Hb). apply Z.leb_gt. lia.
Qed.

(** The dispatcher calls [resolve] or [reject] at most once for each promise
    that [sendFloatRequest] created. *)
Theorem promise_settled_at_most_once (b : Bot.t) :
  reachable b -> NoDup (settled b).*1.
Proof. intros Hreach. by destruct (bot_reachable_books b Hreach) as (_ & Hnd & _). Qed.

(** Requests go to the coordinator in the order in which
    [sendFloatRequest] accepted them: the inspects sent are in the order of
    their promises, and every request still queued was accepted after every
    one that was sent. *)
Theorem inspects_sent_in_order_of_acceptance (b : Bot.t) :
  reachable b ->
  StronglySorted lt (promise <$> sent b) /\
  forall r q, r ∈ sent b -> q ∈ requestQueue b -> (promise r < promise q)%nat.
Proof.
  intros Hreach. destruct (bot_reachable_books b Hreach) as (_ & _ & Hord).
  unfold in_order in Hord. rewrite fmap_app in Hord.
  apply StronglySorted_app in Hord as (Hlt & Hs & _). split; [done|].
  intros r q Hr Hq. apply Hlt; apply list_elem_of_fmap; by eexists.
Qed.

(** After [destroy()], whatever callbacks follow: the bot stays shut down,
    no further inspect is passed to the coordinator, the queue stays empty
    (a later [sendFloatRequest] is rejected at once), and every request that
    was queued has been rejected with ['Bot destroyed']. *)
Theorem nothing_is_sent_after_destroy (b : Bot.t) (evs : list event) (b' : Bot.t) :
  run evs (destroy b) = Some b' ->
  isShuttingDown b' = true /\ sent b' = sent b /\ requestQueue b' = [] /\
  forall req, req ∈ requestQueue b ->
              (promise req, Rejected "Bot destroyed") ∈ settled b'.
Proof.
  intros Hrun. destruct (destroy_effect b) as (Hs & Hsh & Hq & _ & _ & _ & Hst).
  destruct (down_run evs (destroy b) b' Hsh Hq Hrun) as (H1 & H2 & H3 & H4).
  split_and!; [done | congruence | done |].
  intros req Hreq. eapply elem_of_prefix; [|exact H4].
  rewrite Hst, elem_of_app. right. apply list_elem_of_fmap. by exists req.
Qed.

(** [destroy()] clears the TTL timer of the inspect in flight but neither
    resolves nor rejects it: unless the coordinator still answers, its
    promise stays unsettled through every later callback, with no timer
    armed that could reject it. *)
Theorem destroy_abandons_the_inspect_in_flight (b : Bot.t) (r : request)
    (evs : list event) (b' : Bot.t) :
  reachable b -> currentRequest b = Some r ->
  Forall (fun ev => is_answer ev = false) evs ->
  run evs (destroy b) = Some b' ->
  currentRequest b' = Some r /\ outstanding b' = [r] /\ ttl_armed b' = [].
Proof.
  intros Hreach Hc Hall Hrun. pose proof (bot_reachable_inv b Hreach) as Hinv.
  destruct (abandoned_run r evs (destroy b) b') as (_ & _ & Ha & Hc' & Hout); try done.
  - by apply bot_inv_destroy.
  - by apply abandoned_destroy.
Qed.


Lemma bot_waiting_reachable : reachable Scenario.bot_waiting.
Proof.
  exists default_settings,
    [ConnectedToGC 0 true;
     SendFloatRequest (InspectURL.mkParams "76561198000000001" "10" "11" "0") 5000;
     ProcessQueue 5010 true]. by vm_compute.
Defined.

Lemma bot_two_requests_reachable : reachable Scenario.bot_two_requests.
Proof.
  exists default_settings,
    [ConnectedToGC 0 true;
     SendFloatRequest (InspectURL.mkParams "76561198000000001" "10" "11" "0") 5000;
     SendFloatRequest (InspectURL.mkParams "76561198000000001" "20" "11" "0") 5001;
     ProcessQueue 5010 true]. by vm_compute.
Defined.

Lemma bot_answered_reachable : reachable Scenario.bot_answered.
Proof.
  exists default_settings,
    [ConnectedToGC 0 true;
     SendFloatRequest (InspectURL.mkParams "76561198000000001" "10" "11" "0") 5000;
     ProcessQueue 5010 true; InspectItemInfo Scenario.answer_10 5500]. by vm_compute.
Defined.

Lemma active_requests_mirror_current_request_witness :
  reachable Scenario.bot_waiting /\
  currentRequest Scenario.bot_waiting = Some Scenario.request_10 /\
  activeRequests Scenario.bot_waiting = 1.
Proof.
  split; [exact bot_waiting_reachable|]. split; [reflexivity|].
  exact (proj1 (active_requests_mirror_current_request Scenario.bot_waiting
                  bot_waiting_reachable)).
Defined.

Lemma promise_settled_at_most_once_witness :
  reachable Scenario.bot_answered /\ (settled Scenario.bot_answered).*1 = [0%nat] /\
  NoDup (settled Scenario.bot_answered).*1.
Proof.
  split; [exact bot_answered_reachable|]. split; [by vm_compute|].
  exact (promise_settled_at_most_once Scenario.bot_answered bot_answered_reachable).
Defined.

Lemma inspects_sent_in_order_of_acceptance_witness :
  reachable Scenario.bot_two_requests /\
  sent Scenario.bot_two_requests = [Scenario.request_10] /\
  requestQueue Scenario.bot_two_requests = [Scenario.request_20] /\
  (promise Scenario.request_10 < promise Scenario.request_20)%nat.
Proof.
  split; [exact bot_two_requests_reachable|]. split; [by vm_compute|].
  split; [by vm_compute|].
  apply (proj2 (inspects_sent_in_order_of_acceptance Scenario.bot_two_requests
                  bot_two_requests_reachable)).
  - assert (sent Scenario.bot_two_requests = [Scenario.request_10]) as -> by (by vm_compute). left.
  - assert (requestQueue Scenario.bot_two_requests = [Scenario.request_20]) as -> by (by vm_compute). left.
Defined.

Lemma nothing_is_sent_after_destroy_witness :
  exists b',
    run [SendFloatRequest (InspectURL.mkParams "76561198000000001" "30" "11" "0") 6000;
         ProcessQueue 7000 true] (destroy Scenario.bot_two_requests) = Some b' /\
    sent b' = [Scenario.request_10] /\
    (promise Scenario.request_20, Rejected "Bot destroyed") ∈ settled b'.
Proof.
  exists (Scenario.bot_run
            [SendFloatRequest (InspectURL.mkParams "76561198000000001" "30" "11" "0") 6000;
             ProcessQueue 7000 true] (destroy Scenario.bot_two_requests)).
  assert (run [SendFloatRequest (InspectURL.mkParams "76561198000000001" "30" "11" "0") 6000;
               ProcessQueue 7000 true] (destroy Scenario.bot_two_requests)
          = Some (Scenario.bot_run
                    [SendFloatRequest (InspectURL.mkParams "76561198000000001" "30" "11" "0")
                       6000; ProcessQueue 7000 true] (destroy Scenario.bot_two_requests))) as Hrun
    by (by vm_compute).
  split; [exact Hrun|].
  destruct (nothing_is_sent_after_destroy Scenario.bot_two_requests _ _ Hrun) as (_ & Hs & _ & Hrej).
  split.
  - rewrite Hs. by vm_compute.
  - apply Hrej. assert (requestQueue Scenario.bot_two_requests = [Scenario.request_20]) as -> by (by vm_compute).
    left.
Defined.

Lemma destroy_abandons_the_inspect_in_flight_witness :
  reachable Scenario.bot_waiting /\
  currentRequest Scenario.bot_waiting = Some Scenario.request_10 /\
  exists b',
    run [ProcessQueue 40000 true; ConnectedToGC 50000 true] (destroy Scenario.bot_waiting)
    = Some b' /\
    outstanding b' = [Scenario.request_10] /\ ttl_armed b' = [].
Proof.
  split; [exact bot_waiting_reachable|]. split; [reflexivity|].
  exists (Scenario.bot_run [ProcessQueue 40000 true; ConnectedToGC 50000 true]
            (destroy Scenario.bot_waiting)).
  assert (run [ProcessQueue 40000 true; ConnectedToGC 50000 true]
            (destroy Scenario.bot_waiting)
          = Some (Scenario.bot_run [ProcessQueue 40000 true; ConnectedToGC 50000 true]
                    (destroy Scenario.bot_waiting))) as Hrun by (by vm_compute).
  split; [exact Hrun|].
  assert (Forall (fun ev => is_answer ev = false)
            [ProcessQueue 40000 true; ConnectedToGC 50000 true]) as Hall
    by (repeat constructor).
  destruct (destroy_abandons_the_inspect_in_flight Scenario.bot_waiting Scenario.request_10
              [ProcessQueue 40000 true; ConnectedToGC 50000 true] _
              bot_waiting_reachable eq_refl Hall Hrun) as (_ & H1 & H2).
  by split.
Defined.

End BotShutdown.

(** ** Result caches: lookups after writes *)

Section JSMapMore.

Context {K V : Type} `{EqDecision K}.

Implicit Types (m : JSMap.t K V) (k : K) (v : V).

Lemma jsmap_get_remove_ne k k' m : k <> k' -> JSMap.get k' (JSMap.remove k m) = JSMap.get k' m.
Proof.
  intros Hne. induction m as [|[k0 v0] m IH]; [done|]. simpl.
  destruct (decide (k0 = k)) as [-> | Hk0].
  - by rewrite decide_False.
  - simpl. destruct (decide (k0 = k')); [done | exact IH].
Qed.

Lemma jsmap_get_some_key k v m : JSMap.get k m = Some v -> k ∈ JSMap.keys m.
Proof.
  intros Hget. destruct (decide (k ∈ JSMap.keys m)) as [|Hnin]; [done|].
  apply jsmap_get_none in Hnin. congruence.
Qed.

End JSMapMore.

Section BoundedCacheMore.

#[local] Open Scope Z_scope.
Import BoundedCache.

Context {Item : Type} (asset : Item -> string).

Implicit Types (c : BoundedCache.t (Item := Item)).

Lemma getItemData_from c ks : forall acc,
  foldl (fun result key =>
           match JSMap.get key (cache c) with
           | Some e => result ++ [(item e, price e)]
           | None => result
           end) acc ks
  = acc ++ omap (found c) ks.
Proof.
  induction ks as [|k ks IH]; intros acc; simpl.
  - by rewrite app_nil_r.
  - rewrite IH. unfold found at 2.
    destruct (JSMap.get k (cache c)); simpl; [|done].
    by rewrite <- app_assoc.
Qed.

Lemma getItemData_omap c ks : getItemData ks c = omap (found c) ks.
Proof. unfold getItemData. by rewrite getItemData_from. Qed.

(** [getItemData] of the bounded cache returns, in the order of the keys
    asked for, the item and price of every key that is cached and nothing
    for a key that is not: the result is never longer than the list of keys,
    and a key that is not cached gives the empty list. *)
Theorem bounded_getItemData_skips_absent_keys c (ks : list string) :
  getItemData ks c = omap (found c) ks /\
  (length (getItemData ks c) <= length ks)%nat /\
  (forall k, JSMap.get k (cache c) = None -> getItemData [k] c = []) /\
  (forall x, x ∈ getItemData ks c <->
             exists k e, k ∈ ks /\ JSMap.get k (cache c) = Some e /\ x = (item e, price e)).
Proof.
  rewrite !getItemData_omap. split_and!.
  - done.
  - apply omap_length.
  - intros k Hk. rewrite getItemData_omap. simpl. unfold found. by rewrite Hk.
  - intros x. rewrite list_elem_of_omap. unfold found. split.
    + intros (k & Hk & Hx). destruct (JSMap.get k (cache c)) as [e|] eqn:He; [|discriminate].
      injection Hx as <-. by exists k, e.
    + intros (k & e & Hk & He & ->). exists k. by rewrite He.
Qed.

(** What [insertItemData] stored is what [getItemData] returns for the
    item's asset id: the item, with the price given (a missing price and the
    price 0 read back as [null]). Lookups of every other key are unchanged,
    unless the cache was full and the key was the one at the front. *)
Theorem bounded_insert_then_lookup c (it : Item) (p : option Z) (now : Z) :
  let c' := insertItemData asset it p now c in
  getItemData [asset it] c' = [(it, price_or_null p)] /\
  forall k, k <> asset it ->
            JSMap.size (cache c) < maxEntries c \/ JSMap.first_key (cache c) <> Some k ->
            getItemData [k] c' = getItemData [k] c.
Proof.
  simpl. split.
  - rewrite getItemData_omap. simpl. unfold found, insertItemData. simpl.
    by rewrite jsmap_get_set_eq.
  - intros k Hne Hkept. rewrite !getItemData_omap. simpl. unfold found, insertItemData. simpl.
    rewrite jsmap_get_set_ne by done.
    assert (JSMap.get k (evict c) = JSMap.get k (cache c)) as ->; [|done].
    unfold evict. destruct (maxEntries c <=? JSMap.size (cache c)) eqn:Hfull; [|done].
    apply Z.leb_le in Hfull. destruct Hkept as [Hlt | Hfirst]; [lia|].
    destruct (JSMap.first_key (cache c)) as [k0|] eqn:Hk0; [|done].
    apply jsmap_get_remove_ne. congruence.
Qed.


(** [updateItemPrice] sets the price of the entry of the given asset id and
    nothing else: no key is added, removed or moved, the item and the
    timestamp of the entry stay, every other entry stays, and for an asset
    id that is not cached the cache is left as it was. *)
Theorem updateItemPrice_changes_the_price_only c (assetId : string) (p : option Z) :
  let c' := updateItemPrice assetId p c in
  JSMap.keys (cache c') = JSMap.keys (cache c) /\
  maxEntries c' = maxEntries c /\
  (JSMap.get assetId (cache c) = None -> c' = c) /\
  (forall e, JSMap.get assetId (cache c) = Some e ->
             JSMap.get assetId (cache c') = Some (mkCached (item e) p (timestamp e))) /\
  (forall k, k <> assetId -> JSMap.get k (cache c') = JSMap.get k (cache c)).
Proof.
  simpl. unfold updateItemPrice.
  destruct (JSMap.get assetId (cache c)) as [e|] eqn:Hget; simpl.
  - split_and!; try done.
    + apply jsmap_set_present. by eapply jsmap_get_some_key.
    + intros e' [= <-]. apply jsmap_get_set_eq.
    + intros k Hne. by apply jsmap_get_set_ne.
  - by split_and!.
Qed.

End BoundedCacheMore.


Section MemoryCacheMore.

Import MemoryCache.

Context {Item : Type} (fields : Item -> InspectURL.params).

Implicit Types (c : MemoryCache.t (Item := Item)).

(** In the cache of [lib/memory_cache.js] an inserted item is returned by
    [getItemData] for a link with the item's parameters, given as an
    [InspectURL] or as a plain object; lookups under any other key are
    unchanged. *)
Theorem memory_cache_insert_then_lookup c (it : Item) (p : option Z) (now : Z) :
  let c' := insertItemData fields it p now c in
  getItemData (Links [LinkObject (fields it)]) c' = Resolved [it] /\
  getItemData (Links [Plain (fields it)]) c' = Resolved [it] /\
  forall l, generateKey <$> params_of l <> Some (generateKey (fields it)) ->
            hit c' l = hit c l.
Proof.
  simpl. unfold getItemData, collect, insertItemData. simpl.
  rewrite !jsmap_get_set_eq. split_and!; [done | done |].
  intros l Hne. unfold hit. destruct (params_of l) as [p0|]; [|done].
  rewrite jsmap_get_set_ne; [done|]. intros Heq. apply Hne. simpl. by rewrite Heq.
Qed.

End MemoryCacheMore.

(** ** HTTP glue over the scheduler *)

Section QueueSize.

#[local] Open Scope Z_scope.
Import Queue.

(** A callback leads from a reachable state to a reachable state. *)
Lemma reachable_fire ev q q' : reachable q -> fire ev q = Some q' -> reachable q'.
Proof.
  intros (c & evs & Hrun) Hfire. exists c, (evs ++ [ev]).
  revert Hrun. generalize (init c). induction evs as [|e evs IH]; intros q0; simpl.
  - intros [= ->]. by rewrite Hfire.
  - destruct (fire e q0) as [q1|]; [apply IH | discriminate].
Qed.

Lemma lanes_size_snoc p w e pq :
  lane p pq = Some w -> lanes_size (set_lane p (w ++ [e]) pq) = lanes_size pq + 1.
Proof.
  intros Hlane. pose proof (lane_range _ _ _ Hlane) as Hp.
  rewrite !lanes_size_waiting.
  assert (p = 1 \/ p = 2 \/ p = 3 \/ p = 4 \/ p = 5) as Hc by lia.
  destruct Hc as [-> | [-> | [-> | [-> | ->]]]]; simpl in Hlane; injection Hlane as <-;
    rewrite !waiting_lanes; simpl; rewrite !length_app; simpl; lia.
Qed.

Lemma checkQueue_size q : processingLock q = false -> size (checkQueue q) <= size q.
Proof.
  intros Hlock. destruct (checkQueue_spec q Hlock) as (_ & Hw & _).
  unfold size. rewrite !lanes_size_waiting, Hw, length_drop. lia.
Qed.

Lemma addJob_loop_size caller m p links : forall q w,
  inv q -> JS.has caller (users q) = true -> lane p (priorityQueues q) = Some w ->
  size (state_of (addJob_loop caller m p links q)) <= size q + Z.of_nat (length links).
Proof.
  induction links as [|l links IH]; intros q w Hinv Hsome Hlane; simpl; [lia|].
  destruct (inv_enqueue_link caller m p l q w Hinv Hsome Hlane)
    as (q1 & Heq & Hinv1 & Hsome1 & _).
  rewrite Heq.
  destruct (lane_some p (priorityQueues q1)) as [w1 Hlane1]; [by eapply lane_range|].
  specialize (IH q1 w1 Hinv1 Hsome1 Hlane1).
  assert (size q1 <= size q + 1) as Hone; [|lia].
  unfold enqueue_link in Heq. rewrite Hlane in Heq. injection Heq as <-.
  destruct Hinv as (Hlock & _).
  etrans; [apply checkQueue_size; exact Hlock|].
  unfold size. simpl. by rewrite (lanes_size_snoc p w).
Qed.

Lemma addJob_size job m p q :
  inv q -> size (state_of (addJob job m p q)) <= size q + Job.remainingSize job.
Proof.
  intros Hinv. unfold addJob.
  destruct (inv_register (Job.ip job) q Hinv) as (Hinv0 & Hsome0 & Hpq & _).
  set (q0 := if JS.has (Job.ip job) (users q) then q else _) in *.
  assert (size q0 = size q) as Hs by (unfold size; by rewrite Hpq).
  rewrite <- Hs. unfold Job.remainingSize.
  destruct (lane p (priorityQueues q0)) as [w|] eqn:Hlane.
  - by eapply addJob_loop_size.
  - destruct (Job.getRemainingLinks job) as [|l links] eqn:Hl; simpl.
    + unfold Job.getRemainingLinks in Hl. rewrite Hl. simpl. lia.
    + unfold enqueue_link. rewrite Hlane. simpl. lia.
Qed.

End QueueSize.

Section AppMore.

#[local] Open Scope Z_scope.
Import App.

Variable getParams : link_input -> option InspectURL.params.
Variable submitted_price : body -> InspectURL.params -> option Z.
Variable cfg : config.

Lemma parse_priority_range b : 1 <= parse_priority b <= 5.
Proof.
  unfold parse_priority.
  set (p := match priority b with Some n => if n =? 0 then 4 else n | None => 4 end).
  destruct ((p <? 1) || (5 <? p)) eqn:Hout; [lia|].
  apply orb_false_iff in Hout as [H1 H2]. apply Z.ltb_ge in H1, H2. lia.
Qed.

(** A [POST /inspect] (handler of lines 148-193) with the right key and a
    link that parses is not answered at once: the priority handed to
    [addJob] is within 1..5 whatever the body holds, so [addJob] returns, a
    job with the one link is created, and the number of the caller's
    outstanding entries grows by exactly one, whatever the scheduler's load.
    For every caller whose ip is not the name of a member of
    [Object.prototype], that number is what [getUserQueuedAmt] reads, before
    and after. *)
Theorem valid_post_inspect_enqueues_one_entry (caller : string) (b : body)
    (q : Queue.t) (l : InspectURL.params) :
  Queue.reachable q -> invalid_key cfg b = false ->
  link b <> NoLink -> getParams (link b) = Some l ->
  let out := post_inspect getParams submitted_price cfg caller b q in
  1 <= parse_priority b <= 5 /\
  replied out = None /\
  created out = Some (Job.add l (submitted_price b l) (Job.create caller false)) /\
  Queue.reachable (queue out) /\
  (forall c, Queue.owed c (queue out)
             = Queue.owed c q + (if decide (caller = c) then 1 else 0)) /\
  (forall c, JS.inherited c = false ->
     Queue.getUserQueuedAmt c q = JS.Amount (Queue.owed c q) /\
     Queue.getUserQueuedAmt c (queue out)
     = JS.Amount (Queue.owed c q + (if decide (caller = c) then 1 else 0))).
Proof.
  intros Hreach Hkey Hlink Hparams. cbv zeta.
  split; [apply parse_priority_range|].
  pose proof (reachable_inv q Hreach) as Hinv.
  unfold post_inspect. rewrite Hkey. unfold inspect_link.
  set (job := Job.add l (submitted_price b l) (Job.create caller false)).
  assert (Queue.reachable
            (Queue.state_of (Queue.addJob job (max_attempts cfg) (parse_priority b) q)))
    as Hreach'.
  { by apply (reachable_fire (Queue.AddJob job (max_attempts cfg) (parse_priority b)) q). }
  destruct (addJob_owed job (max_attempts cfg) (parse_priority b) q Hinv
              (parse_priority_range b)) as (q' & Heq & Ho).
  rewrite Heq in Hreach'. simpl in Hreach'.
  destruct Hinv as (_ & _ & _ & Hacc).
  destruct (reachable_inv q' Hreach') as (_ & _ & _ & Hacc').
  destruct (link b) eqn:Hl; [done | |]; rewrite Hparams; fold job; rewrite Heq; simpl;
    (split_and!; [done | done | done | exact Ho |]); intros c Hc;
    rewrite !amt_owed by done; by rewrite Ho.
Qed.

Lemma handleJob_cases (online : bool) (job : Job.t) (q : Queue.t) :
  (handleJob cfg online job q).2 = q \/
  ((handleJob cfg online job q).2
   = Queue.state_of (Queue.addJob job (max_attempts cfg) 3 q) /\
   (0 < max_simultaneous_requests cfg ->
    JS.plus_gt (Queue.getUserQueuedAmt (Job.ip job) q) (Job.remainingSize job)
      (max_simultaneous_requests cfg) = false) /\
   (forall n, max_queue_size cfg = Some n -> 0 < n ->
              Queue.size q + Job.remainingSize job <= n)).
Proof.
  unfold handleJob.
  destruct (negb online); [by left|].
  destruct ((0 <? max_simultaneous_requests cfg) &&
            JS.plus_gt (Queue.getUserQueuedAmt (Job.ip job) q) (Job.remainingSize job)
              (max_simultaneous_requests cfg)) eqn:Huser;
    [by left|].
  assert (0 < max_simultaneous_requests cfg ->
          JS.plus_gt (Queue.getUserQueuedAmt (Job.ip job) q) (Job.remainingSize job)
            (max_simultaneous_requests cfg) = false) as Hu.
  { intros Hpos. apply Z.ltb_lt in Hpos. by rewrite Hpos in Huser. }
  destruct (max_queue_size cfg) as [n|] eqn:Hn.
  - destruct ((0 <? n) && (n <? Queue.size q + Job.remainingSize job)) eqn:Hq; [by left|].
    destruct (0 <? Job.remainingSize job); [|by left].
    right. split_and!; [done | done |].
    intros n' [= <-] Hpos. apply Z.ltb_lt in Hpos. rewrite Hpos in Hq.
    by apply Z.ltb_ge in Hq.
  - destruct (0 <? Job.remainingSize job); [|by left].
    right. split_and!; [done | done |]. intros n' Hn'. discriminate.
Qed.

(** [handleJob] never takes the queue, or a caller whose ip is not the name
    of a member of [Object.prototype], over the configured limits: after
    it, the number of the caller's outstanding entries, which is what
    [getUserQueuedAmt] reads for such a caller, is at most the larger of its
    old value and [max_simultaneous_requests], and the queue size at most
    the larger of its old value and [max_queue_size], when these limits are
    positive. *)
Theorem handleJob_keeps_the_limits (online : bool) (job : Job.t) (q : Queue.t) :
  Queue.reachable q ->
  let q' := (handleJob cfg online job q).2 in
  (0 < max_simultaneous_requests cfg -> JS.inherited (Job.ip job) = false ->
   Queue.getUserQueuedAmt (Job.ip job) q = JS.Amount (Queue.owed (Job.ip job) q) /\
   Queue.getUserQueuedAmt (Job.ip job) q' = JS.Amount (Queue.owed (Job.ip job) q') /\
   Queue.owed (Job.ip job) q'
   <= Z.max (Queue.owed (Job.ip job) q) (max_simultaneous_requests cfg)) /\
  (forall n, max_queue_size cfg = Some n -> 0 < n ->
             Queue.size q' <= Z.max (Queue.size q) n).
Proof.
  intros Hreach. cbv zeta. pose proof (reachable_inv q Hreach) as Hinv.
  assert (forall c, JS.inherited c = false ->
            Queue.getUserQueuedAmt c q = JS.Amount (Queue.owed c q)) as Hamt.
  { intros c Hc. apply amt_owed; [apply Hinv | done]. }
  destruct (handleJob_cases online job q) as [-> | (-> & Hu & Hq)].
  { split; [|intros; lia]. intros _ Hc. rewrite (Hamt _ Hc). split_and!; [done | done | lia]. }
  pose proof (addJob_size job (max_attempts cfg) 3 q Hinv) as Hsize.
  destruct (addJob_owed job (max_attempts cfg) 3 q Hinv ltac:(lia)) as (q1 & Heq & Ho).
  assert (Queue.reachable q1) as Hreach1.
  { pose proof (reachable_fire (Queue.AddJob job (max_attempts cfg) 3) q _ Hreach eq_refl)
      as H. by rewrite Heq in H. }
  rewrite Heq in *. change (Queue.state_of (Queue.Returned q1)) with q1 in *.
  split.
  - intros Hpos Hc. specialize (Hu Hpos). rewrite (Hamt _ Hc) in Hu |- *.
    unfold JS.plus_gt in Hu. apply Z.ltb_ge in Hu.
    split_and!; [done | |].
    + apply amt_owed; [apply (reachable_inv q1 Hreach1) | done].
    + rewrite Ho, decide_True by done. lia.
  - intros n Hn Hpos. specialize (Hq n Hn Hpos). lia.
Qed.

End AppMore.

Lemma two_in_flight_reachable : Queue.reachable Scenario.two_in_flight.
Proof.
  exists 2%Z, [Queue.Start; Queue.AddJob (Scenario.job_of "9.9.9.9" "7") 3 4;
               Queue.AddJob (Scenario.job_of "9.9.9.9" "8") 3 4]. by vm_compute.
Defined.

Lemma valid_post_inspect_enqueues_one_entry_witness :
  Queue.reachable Scenario.two_in_flight /\
  App.invalid_key Scenario.limits Scenario.keyed_request = false /\
  Queue.getUserQueuedAmt "9.9.9.9"
    (App.queue (App.post_inspect Scenario.parse_fields Scenario.no_price Scenario.limits
                  "9.9.9.9" Scenario.keyed_request Scenario.two_in_flight))
  = JS.Amount (Queue.owed "9.9.9.9" Scenario.two_in_flight + 1).
Proof.
  split; [exact two_in_flight_reachable|]. split; [by vm_compute|].
  destruct (valid_post_inspect_enqueues_one_entry Scenario.parse_fields Scenario.no_price
              Scenario.limits "9.9.9.9" Scenario.keyed_request Scenario.two_in_flight
              (InspectURL.mkParams "76561198000000001" "9" "11" "0")
              two_in_flight_reachable) as (_ & _ & _ & _ & _ & H);
    [by vm_compute | done | done |].
  destruct (H "9.9.9.9"%string eq_refl) as (_ & H'). rewrite H'. by rewrite decide_True.
Defined.

Lemma handleJob_keeps_the_limits_witness :
  Queue.reachable Scenario.two_in_flight /\
  (0 < App.max_simultaneous_requests Scenario.limits)%Z /\
  JS.inherited "10.0.0.1" = false /\
  (Queue.owed "10.0.0.1"
     (App.handleJob Scenario.limits true (Scenario.job_of "10.0.0.1" "1")
        Scenario.two_in_flight).2
   <= Z.max (Queue.owed "10.0.0.1" Scenario.two_in_flight) 2)%Z.
Proof.
  split; [exact two_in_flight_reachable|]. split; [by vm_compute|].
  split; [reflexivity|].
  destruct (handleJob_keeps_the_limits Scenario.limits true (Scenario.job_of "10.0.0.1" "1")
              Scenario.two_in_flight two_in_flight_reachable) as (H & _).
  apply H; [by vm_compute | reflexivity].
Defined.

(** ** Bot dispatcher: the timeout of the inspect in flight *)

Section BotTimeout.

#[local] Open Scope Z_scope.
Import Bot.

Lemma processRequestQueue_timer now b :
  let b' := processRequestQueue now true b in
  b' = b \/ (isShuttingDown b' = false /\ ttlTimeout b' = Some (next_timer b)).
Proof.
  destruct b as [cfg bs rd sh q a l res cur ttl armed nt dt np snt st].
  unfold processRequestQueue. simpl.
  destruct sh; [by left|]. destruct bs; [by left|]. destruct rd; [|by left]. simpl.
  destruct q as [|req rest]; [by left|].
  destruct (max_concurrent_requests cfg <=? a); [by left|].
  destruct (negb (canProcessRequest now _)); [by left|].
  right. by split.
Qed.

Lemma timed_process now gc_ok b :
  bot_inv b -> timed b -> timed (processRequestQueue now gc_ok b).
Proof.
  intros Hinv Htimed.
  pose proof (bot_inv_process now gc_ok b Hinv) as (Hinv' & _). simpl in Hinv'.
  destruct (processRequestQueue_effect now gc_ok b)
    as [-> | (req & rest & _ & _ & _ & _ & _ & Hcase)]; [done|].
  destruct gc_ok.
  - destruct Hcase as (_ & _ & Hc & _).
    destruct (processRequestQueue_timer now b) as [-> | (_ & Httl)]; [done|].
    intros _ _. destruct Hinv' as (_ & Hcur & _). rewrite Hc in Hcur.
    destruct Hcur as (_ & _ & _ & [[_ Hnone] | (h & Ha & Hh)]); [congruence|].
    by exists h.
  - destruct Hcase as (_ & _ & Hc & _). intros _ [r Hr]. congruence.
Qed.

Lemma timed_fire ev b b' : bot_inv b -> timed b -> fire ev b = Some b' -> timed b'.
Proof.
  intros Hinv Htimed.
  destruct ev as [link now | now gc_ok | info now | h | k | now gc_ok | |]; simpl.
  - intros [= <-].
    destruct (sendFloatRequest_effect link now b) as (_ & Hsh & Hc & _ & Ha & _).
    assert (ttlTimeout (sendFloatRequest link now b) = ttlTimeout b) as Ht.
    { unfold sendFloatRequest. simpl. destruct (isShuttingDown b); [done|].
      by destruct (ready b). }
    unfold timed. rewrite Hsh, Hc, Ha, Ht. exact Htimed.
  - intros [= <-]. by apply timed_process.
  - intros [= <-]. destruct (handleInspectResponse_effect info now b)
      as (_ & _ & _ & [-> | (res & req & r & _ & _ & _ & Hc & _)]); [done|].
    intros _ [r0 Hr0]. congruence.
  - intros Hf. destruct (bot_inv_ttl h b b' Hinv Hf) as (_ & _ & r & Hc & _).
    destruct (decide (h ∈ ttl_armed b)); [|discriminate]. injection Hf as <-.
    set (b1 := with_ttl _ _ _ b).
    destruct (handleRequestError_effect "Request timeout" b1) as (_ & _ & _ & _ & Hst).
    destruct Hinv as (Hres & _).
    change (resolve b1) with (resolve b) in Hst.
    change (currentRequest b1) with (currentRequest b) in Hst.
    rewrite Hres, Hc in Hst. simpl in Hst. destruct Hst as (_ & Hnone).
    intros _ [r0 Hr0]. congruence.
  - destruct (delay_timers b !! k); [|discriminate]. by intros [= <-].
  - intros [= <-]. apply timed_process; [by apply bot_inv_ready | exact Htimed].
  - by intros [= <-].
  - intros [= <-]. destruct (destroy_effect b) as (_ & Hsh & _). intros Hup. congruence.
Qed.

Lemma timed_run evs : forall b b', bot_inv b -> timed b -> run evs b = Some b' -> timed b'.
Proof.
  induction evs as [|ev evs IH]; intros b b' Hinv Htimed; simpl.
  - by intros [= <-].
  - destruct (fire ev b) as [b1|] eqn:Hf; [|discriminate].
    apply IH; [by eapply bot_inv_fire | by eapply timed_fire].
Qed.

Lemma reachable_timed b : reachable b -> timed b.
Proof.
  intros (cfg & evs & Hrun). eapply timed_run; [apply bot_inv_init | | exact Hrun].
  intros _ [r Hr]. discriminate.
Qed.

(** While a bot that was not destroyed has an inspect in flight, exactly one
    TTL timer is armed; when it fires, [handleRequestTimeout] rejects the
    promise of that inspect with ['Request timeout'], the bot is free at
    once (no post-response delay), and no inspect is left unsettled. *)
Theorem inspect_in_flight_has_its_timeout_armed (b : Bot.t) (r : request) :
  reachable b -> isShuttingDown b = false -> currentRequest b = Some r ->
  exists h b',
    ttl_armed b = [h] /\ fire (TtlFired h) b = Some b' /\
    settled b' = settled b ++ [(promise r, Rejected "Request timeout")] /\
    busy b' = false /\ outstanding b' = [].
Proof.
  intros Hreach Hup Hc. pose proof (bot_reachable_inv b Hreach) as Hinv.
  destruct (reachable_timed b Hreach Hup) as (h & Ha & Hh); [by eexists|].
  assert (is_Some (fire (TtlFired h) b)) as [b' Hf].
  { simpl. rewrite Ha. rewrite decide_True by left. by eexists. }
  destruct (bot_inv_ttl h b b' Hinv Hf) as (Hinv' & Hbusy & r' & Hc' & Hst & _).
  rewrite Hc in Hc'. injection Hc' as <-.
  exists h, b'. split_and!; try done.
  destruct Hinv' as (_ & Hcur & _).
  destruct (currentRequest b') as [r1|]; [|by destruct Hcur].
  destruct Hcur as (Hb & _). congruence.
Qed.

Lemma inspect_in_flight_has_its_timeout_armed_witness :
  reachable Scenario.bot_waiting /\
  currentRequest Scenario.bot_waiting = Some Scenario.request_10 /\
  exists h b',
    ttl_armed Scenario.bot_waiting = [h] /\
    fire (TtlFired h) Scenario.bot_waiting = Some b' /\ busy b' = false.
Proof.
  split; [exact bot_waiting_reachable|]. split; [reflexivity|].
  destruct (inspect_in_flight_has_its_timeout_armed Scenario.bot_waiting Scenario.request_10
              bot_waiting_reachable eq_refl eq_refl) as (h & b' & H1 & H2 & _ & H4 & _).
  by exists h, b'.
Defined.

End BotTimeout.

(** ** Bot: login retries *)

Section BotLoginFacts.

#[local] Open Scope Z_scope.
Import BotLogin.

Lemma capped_init : capped init.
Proof. unfold capped. simpl. split_and!; [done | lia | lia | constructor]. Qed.

Lemma capped_attemptLogin totp_ok s : capped s -> capped (attemptLogin totp_ok s).
Proof.
  intros (Hmax & Hca & Hb). unfold attemptLogin.
  destruct (maxConnectionAttempts s <=? connectionAttempts s) eqn:Hcap.
  - apply Z.leb_le in Hcap. unfold capped. simpl. split_and!; [done | lia | lia |].
    apply Forall_app. split; [done|]. constructor; [|constructor].
    unfold backoffTime. replace (connectionAttempts s - maxConnectionAttempts s) with 0 by lia.
    reflexivity.
  - apply Z.leb_gt in Hcap. unfold capped. simpl. split_and!; [done | lia | lia | done].
Qed.

Lemma capped_fire ev s s' : capped s -> fire ev s = Some s' -> capped s'.
Proof.
  intros Hc. pose proof Hc as (Hmax & Hca & Hb).
  destruct ev as [totp_ok | totp_ok | i totp_ok | | eresult | | from_gc]; simpl.
  - intros [= <-]. unfold capped. simpl. split_and!; first [done | lia].
  - intros [= <-]. by apply capped_attemptLogin.
  - unfold on_backoff. destruct (backoff s !! i) eqn:Hi; [|discriminate].
    intros [= <-]. apply capped_attemptLogin. unfold capped. simpl.
    split_and!; [done | lia | lia |].
    by apply Forall_delete.
  - intros [= <-]. unfold capped. simpl. split_and!; [done | lia | lia | done].
  - intros [= <-]. unfold capped, on_error. simpl.
    destruct (decide (eresult = Some 84)); split_and!; first [done | lia].
  - intros [= <-]. unfold capped. simpl. split_and!; first [done | lia].
  - intros [= <-]. unfold capped. simpl. split_and!; first [done | lia].
Qed.

Lemma capped_run evs : forall s s', capped s -> run evs s = Some s' -> capped s'.
Proof.
  induction evs as [|ev evs IH]; intros s s' Hc; simpl.
  - by intros [= <-].
  - destruct (fire ev s) as [s1|] eqn:Hf; [|discriminate].
    apply IH. by eapply capped_fire.
Qed.

(** [connectionAttempts] never passes [maxConnectionAttempts] (5): it is
    counted up only below the cap, and the rate-limit error sets it to the
    cap. The exponent of the backoff of [attemptLogin] is therefore always
    0: every timer it arms waits 5000 ms, and at the cap a call arms such a
    timer and counts nothing. *)
Theorem login_backoff_is_always_five_seconds (s : BotLogin.t) :
  reachable s ->
  0 <= connectionAttempts s <= maxConnectionAttempts s /\
  Forall (fun d => d = 5000) (backoff s) /\
  (maxConnectionAttempts s <= connectionAttempts s ->
   forall totp_ok, backoff (attemptLogin totp_ok s) = backoff s ++ [5000] /\
                   connectionAttempts (attemptLogin totp_ok s) = connectionAttempts s).
Proof.
  intros (evs & Hrun).
  destruct (capped_run evs init s capped_init Hrun) as (Hmax & Hca & Hb).
  split_and!; [lia | lia | done |].
  intros Hcap totp_ok. unfold attemptLogin.
  apply Z.leb_le in Hcap as Hcap'. rewrite Hcap'. simpl. split; [|done].
  unfold backoffTime. replace (connectionAttempts s - maxConnectionAttempts s) with 0 by lia.
  reflexivity.
Qed.

Lemma login_backoff_is_always_five_seconds_witness :
  reachable (mk 5 5 false false [5000]) /\
  Forall (fun d => d = 5000) (backoff (mk 5 5 false false [5000])).
Proof.
  assert (reachable (mk 5 5 false false [5000])) as Hreach.
  { exists [AttemptLogin true; SteamError (Some 84); AttemptLogin true]. reflexivity. }
  split; [exact Hreach|].
  by destruct (login_backoff_is_always_five_seconds _ Hreach) as (_ & H & _).
Defined.

End BotLoginFacts.

(** ** Bounded cache: [cleanup] *)

Section BoundedCleanup.

#[local] Open Scope Z_scope.
Import BoundedCache.

Context {Item : Type}.

Implicit Types (c : BoundedCache.t (Item := Item)).

Lemma jsmap_get_filter (P : string * cached (Item := Item) -> bool)
    (m : list (string * cached (Item := Item))) (k : string) :
  NoDup (JSMap.keys m) ->
  JSMap.get k (filter P m)
  = match JSMap.get k m with
    | Some e => if P (k, e) then Some e else None
    | None => None
    end.
Proof.
  induction m as [|[k0 e0] m IH]; intros Hnd; [done|].
  unfold JSMap.keys in Hnd. simpl in Hnd. apply NoDup_cons in Hnd as [Hnin Hnd].
  specialize (IH Hnd). rewrite filter_cons. simpl.
  destruct (decide (k0 = k)) as [-> | Hne].
  - assert (JSMap.get k m = None) as Hnone by by apply jsmap_get_none.
    rewrite Hnone in IH.
    destruct (decide (P (k, e0))) as [HP | HP].
    + simpl. rewrite decide_True by done. by destruct (P (k, e0)).
    + rewrite IH. by destruct (P (k, e0)).
  - destruct (decide (P (k0, e0))); [|done]. simpl. by rewrite decide_False.
Qed.

(** [cleanup] of the bounded cache keeps exactly the entries written within
    the last hour: a key whose entry is at most 3600000 ms old still reads
    the same entry, an older one reads as absent, and an absent key stays
    absent. *)
Theorem bounded_cleanup_keeps_the_last_hour c (now : Z) (k : string) :
  cache_ok c ->
  cache_ok (cleanup now c) /\
  JSMap.get k (cache (cleanup now c))
  = match JSMap.get k (cache c) with
    | Some e => if 3600000 <? now - timestamp e then None else Some e
    | None => None
    end.
Proof.
  intros Hok. split; [by apply cache_ok_cleanup|].
  destruct Hok as (Hnd & _). unfold cleanup. simpl.
  rewrite (jsmap_get_filter _ _ k Hnd).
  destruct (JSMap.get k (cache c)) as [e|]; [|done]. simpl.
  change (60 * 60 * 1000) with 3600000.
  by destruct (3600000 <? now - timestamp e).
Qed.

End BoundedCleanup.

Lemma bounded_cleanup_keeps_the_last_hour_witness :
  BoundedCache.cache_ok Scenario.full_cache /\
  JSMap.get "A"%string
    (BoundedCache.cache (BoundedCache.cleanup 3600002 Scenario.full_cache)) = None /\
  BoundedCache.timestamp <$>
    JSMap.get "B"%string
      (BoundedCache.cache (BoundedCache.cleanup 3600002 Scenario.full_cache)) = Some 2%Z.
Proof.
  assert (BoundedCache.cache_ok Scenario.full_cache) as Hok.
  { apply (cache_ok_after (fun x : string => x)). by vm_compute. }
  split; [exact Hok|].
  destruct (bounded_cleanup_keeps_the_last_hour Scenario.full_cache 3600002 "A"%string Hok)
    as (_ & HA).
  destruct (bounded_cleanup_keeps_the_last_hour Scenario.full_cache 3600002 "B"%string Hok)
    as (_ & HB).
  split; [rewrite HA | rewrite HB]; by vm_compute.
Defined.

(** ** The cache of [lib/memory_cache.js]: prices *)

Section MemoryCachePrices.

Import MemoryCache.

Context {Item : Type} (fields : Item -> InspectURL.params).

Implicit Types (c : MemoryCache.t (Item := Item)).

Lemma updateItemPrice_keys assetId p c :
  JSMap.keys (updateItemPrice fields assetId p c) = JSMap.keys c.
Proof.
  induction c as [|[k e] c IH]; [done|]. simpl.
  destruct (decide (InspectURL.a (fields (item e)) = assetId)); [done|].
  change (JSMap.keys ((k, e) :: updateItemPrice fields assetId p c))
    with (k :: JSMap.keys (updateItemPrice fields assetId p c)).
  by rewrite IH.
Qed.

Lemma updateItemPrice_item assetId p c k :
  item <$> JSMap.get k (updateItemPrice fields assetId p c) = item <$> JSMap.get k c.
Proof.
  induction c as [|[k0 e] c IH]; [done|]. simpl.
  destruct (decide (InspectURL.a (fields (item e)) = assetId)); simpl;
    destruct (decide (k0 = k)); done.
Qed.

(** The cache of [lib/memory_cache.js] stores a price with every entry, but
    no lookup reads it: [getItemData] returns the same items before and
    after [updateItemPrice] (which also adds, removes and moves no key), and
    the same items whatever price and time [insertItemData] was given. *)
Theorem memory_cache_lookups_ignore_prices c (links : links_arg) :
  (forall assetId p,
     getItemData links (updateItemPrice fields assetId p c) = getItemData links c /\
     JSMap.keys (updateItemPrice fields assetId p c) = JSMap.keys c) /\
  (forall it p p' now now',
     getItemData links (insertItemData fields it p now c)
     = getItemData links (insertItemData fields it p' now' c)).
Proof.
  assert (forall c1 c2 : MemoryCache.t (Item := Item),
             (forall k, item <$> JSMap.get k c1 = item <$> JSMap.get k c2) ->
             getItemData links c1 = getItemData links c2) as Hsame.
  { intros c1 c2 Heq. destruct links as [|ls]; [done|].
    unfold getItemData. by apply collect_ext. }
  split.
  - intros assetId p. split; [|apply updateItemPrice_keys].
    apply Hsame. intros k. apply updateItemPrice_item.
  - intros it p p' now now'. apply Hsame. intros k. unfold insertItemData.
    destruct (decide (generateKey (fields it) = k)) as [<- | Hne].
    + by rewrite !jsmap_get_set_eq.
    + by rewrite !jsmap_get_set_ne.
Qed.

End MemoryCachePrices.
